(** * The trigger state engine ([TriggersManager]) of the camera card

    A shallow embedding of [TriggersManager] (src/unnamed/part_000): the
    triggered-camera map, the per-camera untrigger timers, the throttled
    trigger action, and the commands the manager sends to its collaborators.

    The manager runs on a single-threaded event loop.  The loop is modelled
    by a [World]: the manager's fields, the current answers of the
    collaborators it queries, a clock, the queue of pending timeouts, and a
    time-stamped log of every command the manager issues. *)

From Stdlib Require Import String ZArith List Bool Lia PeanoNat SpecFloat.
Import ListNotations.
Local Open Scope Z_scope.

(** ** JavaScript [Map<string, V>]

    Keys are unique and kept in insertion order: [set] on a present key
    replaces the value in place, [set] on a fresh key appends, [delete]
    removes the entry. *)
Module JSMap.
Section WithValue.
Context {V : Type}.

Fixpoint get (k : string) (m : list (string * V)) : option V :=
  match m with
  | [] => None
  | (k', v) :: m' => if String.eqb k' k then Some v else get k m'
  end.

Definition has (k : string) (m : list (string * V)) : bool :=
  match get k m with Some _ => true | None => false end.

Fixpoint set (k : string) (v : V) (m : list (string * V)) : list (string * V) :=
  match m with
  | [] => [(k, v)]
  | (k', v') :: m' =>
      if String.eqb k' k then (k', v) :: m' else (k', v') :: set k v m'
  end.

Fixpoint delete (k : string) (m : list (string * V)) : list (string * V) :=
  match m with
  | [] => []
  | (k', v') :: m' =>
      if String.eqb k' k then delete k m' else (k', v') :: delete k m'
  end.

Definition keys (m : list (string * V)) : list string := map fst m.

Definition size (m : list (string * V)) : nat := length m.
End WithValue.
End JSMap.

(** ** Data model *)

(** [CameraEvent] (../camera-manager/types): the discriminator [type], the
    fidelity, and the optional media flags. *)
Inductive EventType := ev_new | ev_update | ev_end.
Inductive Fidelity := high | low.

Record CameraEvent := {
  cameraID : string;
  type : EventType;
  fidelity : Fidelity;
  snapshot : option bool;
  clip : option bool
}.

(** JavaScript truthiness of an optional boolean: [undefined] and [false]
    are falsy. *)
Definition truthy (b : option bool) : bool :=
  match b with Some true => true | _ => false end.

Definition is_end (t : EventType) : bool :=
  match t with ev_end => true | _ => false end.

Definition is_high (f : Fidelity) : bool :=
  match f with high => true | low => false end.

(** ** JavaScript numbers

    A [number] is an IEEE 754 double (binary64): a signed zero, an
    infinity, NaN, or a finite [(-1)^s * m * 2^e].  The product of two
    numbers is rounded to the nearest double. *)
Definition Number : Type := spec_float.

Definition Number_of_Z (z : Z) : Number := binary_normalize 53 1024 z 0 false.

Definition Number_mul (x y : Number) : Number := SFmul 53 1024 x y.

Definition Number_div (x y : Number) : Number := SFdiv 53 1024 x y.

(** The conversion of a number to a [long], the type of the delay that
    [window.setTimeout] takes: NaN and the infinities become 0, otherwise
    the fraction is dropped ([IntegerPart]) and the whole number is
    wrapped to 32 bits, signed ([ToInt32]). *)
Definition IntegerPart (x : Number) : Z :=
  match x with
  | S754_finite s m e =>
      let r := Z.shiftl (Z.pos m) e in if s then - r else r
  | _ => 0
  end.

Definition ToInt32 (x : Z) : Z :=
  let r := x mod 2 ^ 32 in
  if 2 ^ 31 <=? r then r - 2 ^ 32 else r.

(** The trigger policy, [config.view.triggers], and the default view
    [config.view.default]. *)
Inductive TriggerAction := trigger_default | trigger_live | trigger_media | trigger_none.
Inductive UntriggerAction := untrigger_default | untrigger_none.
Inductive InteractionMode := mode_all | mode_active | mode_inactive.

Record TriggersActions := {
  trigger : TriggerAction;
  untrigger : UntriggerAction;
  interaction_mode : InteractionMode
}.

Record TriggersConfig := {
  filter_selected_camera : bool;
  untrigger_seconds : Number;
  actions : TriggersActions
}.

Record ViewConfig := {
  default : string;
  triggers : TriggersConfig
}.

Record Config := { view : ViewConfig }.

Record View := { camera : string }.

(** Commands sent to the collaborators.  [triggerAction_called] is not a
    command: it marks each execution of [_triggerAction], so that
    executions that return early are still counted. *)
Inductive Effect :=
| setViewByParameters (viewName : string) (camera_id : string)
| setViewDefault (camera_id : option string)
| setState (triggered : option (list string))
| update
| triggerAction_called (ev : CameraEvent).

(** ** The event loop: timeouts *)

Inductive Callback :=
| cb_untrigger (camera_id : string)   (* () => this._untriggerAction(cameraID) *)
| cb_timerExpired.                    (* the throttle's timerExpired *)

Record Timeout := {
  handle : nat;
  due : Z;
  callback : Callback
}.

(** Modelled from the spec: the [Timer] utility (../utils/timer, not among
    the sources) is a single-shot cancellable countdown.  It holds the
    handle of its pending timeout, if any. *)
Record Timer := { _timer : option nat }.

(** The closure of [throttle(func, wait, options)] of lodash: [throttle]
    returns [debounce(func, wait, {leading, maxWait: wait, trailing})], and
    the debounced function keeps these variables. *)
Record Debounced := {
  wait : Z;
  leading : bool;
  maxing : bool;
  maxWait : Z;
  trailing : bool;
  lastArgs : option CameraEvent;
  lastCallTime : option Z;
  lastInvokeTime : Z;
  timerId : option nat
}.

(** The fields of [TriggersManager]. *)
Record Manager := {
  _triggeredCameras : list (string * Z);
  _triggeredCameraTimers : list (string * Timer);
  _throttledTriggerAction : Debounced
}.

(** What the collaborators behind [CardTriggersAPI] currently answer, and
    the [triggered] entry of the condition-state store. *)
Record API := {
  getConfig : option Config;
  getView : option View;
  getAllDependentCameras : string -> list string;
  hasInteraction : bool;
  conditionState_triggered : option (list string)
}.

Record World := {
  manager : Manager;
  api : API;
  now : Z;                       (* milliseconds *)
  timeouts : list Timeout;       (* pending, in the order they were set *)
  nextHandle : nat;
  log : list (Z * Effect)        (* newest first *)
}.

(** *** Field updates *)

Definition with_manager (m : Manager) (w : World) : World :=
  {| manager := m; api := api w; now := now w; timeouts := timeouts w;
     nextHandle := nextHandle w; log := log w |}.

Definition with_api (a : API) (w : World) : World :=
  {| manager := manager w; api := a; now := now w; timeouts := timeouts w;
     nextHandle := nextHandle w; log := log w |}.

Definition with_now (t : Z) (w : World) : World :=
  {| manager := manager w; api := api w; now := t; timeouts := timeouts w;
     nextHandle := nextHandle w; log := log w |}.

Definition with_timeouts (q : list Timeout) (w : World) : World :=
  {| manager := manager w; api := api w; now := now w; timeouts := q;
     nextHandle := nextHandle w; log := log w |}.

Definition with_triggeredCameras (m : list (string * Z)) (w : World) : World :=
  with_manager
    {| _triggeredCameras := m;
       _triggeredCameraTimers := _triggeredCameraTimers (manager w);
       _throttledTriggerAction := _throttledTriggerAction (manager w) |} w.

Definition with_triggeredCameraTimers (m : list (string * Timer)) (w : World) : World :=
  with_manager
    {| _triggeredCameras := _triggeredCameras (manager w);
       _triggeredCameraTimers := m;
       _throttledTriggerAction := _throttledTriggerAction (manager w) |} w.

Definition with_throttle (d : Debounced) (w : World) : World :=
  with_manager
    {| _triggeredCameras := _triggeredCameras (manager w);
       _triggeredCameraTimers := _triggeredCameraTimers (manager w);
       _throttledTriggerAction := d |} w.

Definition with_conditionState (s : option (list string)) (w : World) : World :=
  with_api
    {| getConfig := getConfig (api w); getView := getView (api w);
       getAllDependentCameras := getAllDependentCameras (api w);
       hasInteraction := hasInteraction (api w);
       conditionState_triggered := s |} w.

(** A command is recorded with the time at which it is issued. *)
Definition emit (e : Effect) (w : World) : World :=
  {| manager := manager w; api := api w; now := now w; timeouts := timeouts w;
     nextHandle := nextHandle w; log := (now w, e) :: log w |}.

(** [window.setTimeout(handler, timeout)] and [window.clearTimeout].
    [timeout] is the integer part of the delay asked for.  The platform
    takes the delay as a [long], so it is wrapped to 32 bits, and a delay
    that is negative after that runs as soon as possible. *)
Definition setTimeout (cb : Callback) (timeout : Z) (w : World) : nat * World :=
  let h := nextHandle w in
  let delay := Z.max 0 (ToInt32 timeout) in
  (h, {| manager := manager w; api := api w; now := now w;
         timeouts := timeouts w ++ [{| handle := h; due := now w + delay; callback := cb |}];
         nextHandle := S h; log := log w |}).

Definition clearTimeout (h : nat) (w : World) : World :=
  with_timeouts (filter (fun t => negb (Nat.eqb (handle t) h)) (timeouts w)) w.

(** ** Query operations of [TriggersManager] *)

Definition getTriggeredCameraIDs (w : World) : list string :=
  JSMap.keys (_triggeredCameras (manager w)).

Definition isTriggered (w : World) : bool :=
  negb (Nat.eqb (JSMap.size (_triggeredCameras (manager w))) 0).

(** [orderBy(collection, iteratee, 'desc')] of lodash: every element is
    decorated with its criterion and its index, and the array is sorted
    with [compareMultiple], which compares the criteria (negated for
    ['desc']) and falls back to the index. *)
Record Decorated := {
  criteria : Z;
  index : nat;
  value : string * Z
}.

Definition compareAscending (a b : Z) : Z :=
  if a >? b then 1 else if a <? b then -1 else 0.

Definition compareMultiple_desc (object other : Decorated) : Z :=
  let result := compareAscending (criteria object) (criteria other) in
  if result =? 0
  then Z.of_nat (index object) - Z.of_nat (index other)
  else - result.

Fixpoint decorate (i : nat) (entries : list (string * Z)) : list Decorated :=
  match entries with
  | [] => []
  | e :: rest => {| criteria := snd e; index := i; value := e |} :: decorate (S i) rest
  end.

Fixpoint insert_sorted (x : Decorated) (l : list Decorated) : list Decorated :=
  match l with
  | [] => [x]
  | y :: l' =>
      if compareMultiple_desc x y <=? 0 then x :: y :: l' else y :: insert_sorted x l'
  end.

Definition baseSortBy (l : list Decorated) : list Decorated :=
  fold_right insert_sorted [] l.

Definition orderBy_desc (entries : list (string * Z)) : list (string * Z) :=
  map value (baseSortBy (decorate 0 entries)).

Definition getMostRecentlyTriggeredCameraID (w : World) : option string :=
  match orderBy_desc (_triggeredCameras (manager w)) with
  | [] => None
  | entry :: _ => Some (fst entry)
  end.

(** ** Actions *)

Definition triggersConfig (w : World) : option TriggersConfig :=
  option_map (fun c => triggers (view c)) (getConfig (api w)).

Definition _hasAllowableInteractionStateForAction (w : World) : bool :=
  match triggersConfig w with
  | None => false
  | Some tc =>
      match interaction_mode (actions tc) with
      | mode_all => true
      | mode_active => hasInteraction (api w)
      | mode_inactive => negb (hasInteraction (api w))
      end
  end.

Definition is_trigger (a : option TriggerAction) (b : TriggerAction) : bool :=
  match a, b with
  | Some trigger_default, trigger_default
  | Some trigger_live, trigger_live
  | Some trigger_media, trigger_media
  | Some trigger_none, trigger_none => true
  | _, _ => false
  end.

Definition is_view (v : option string) (name : string) : bool :=
  match v with Some s => String.eqb s name | None => false end.

(** The guard of [_triggerAction] that makes it return at once. *)
Definition suppressed (ev : CameraEvent) (w : World) : bool :=
  let triggerAction := option_map (fun tc => trigger (actions tc)) (triggersConfig w) in
  let defaultView := option_map (fun c => default (view c)) (getConfig (api w)) in
  is_high (fidelity ev) && negb (truthy (snapshot ev)) && negb (truthy (clip ev))
  && negb (is_trigger triggerAction trigger_live
           || (is_trigger triggerAction trigger_default && is_view defaultView "live")).

Definition _triggerAction (ev : CameraEvent) (w0 : World) : World :=
  let w := emit (triggerAction_called ev) w0 in
  let triggerAction := option_map (fun tc => trigger (actions tc)) (triggersConfig w) in
  if suppressed ev w then w
  else
    let w1 :=
      if _hasAllowableInteractionStateForAction w then
        if is_trigger triggerAction trigger_live then
          emit (setViewByParameters "live" (cameraID ev)) w
        else if is_trigger triggerAction trigger_default then
          emit (setViewDefault (Some (cameraID ev))) w
        else if is_high (fidelity ev) && is_trigger triggerAction trigger_media then
          emit (setViewByParameters (if truthy (clip ev) then "clip" else "snapshot")
                                    (cameraID ev)) w
        else w
      else w in
    emit update w1.

(** [isEqual] of lodash on the two values it is given here: [undefined]
    or a [Set] of strings.  Two sets are equal when they have the same
    size and every member of one is a member of the other. *)
Definition isEqual (a b : option (list string)) : bool :=
  match a, b with
  | None, None => true
  | Some x, Some y =>
      Nat.eqb (length x) (length y)
      && forallb (fun k => existsb (String.eqb k) y) x
  | _, _ => false
  end.

Definition triggeredState (w : World) : option (list string) :=
  let triggeredCameraIDs := JSMap.keys (_triggeredCameras (manager w)) in
  if Nat.eqb (length triggeredCameraIDs) 0 then None else Some triggeredCameraIDs.

(** Modelled from the spec: the condition-state store (the conditions
    manager, not among the sources) keeps under [triggered] the value last
    written with [setState], and [getState().triggered] reads it back. *)
Definition _setConditionStateIfNecessary (w : World) : World :=
  if negb (isEqual (triggeredState w) (conditionState_triggered (api w))) then
    emit (setState (triggeredState w)) (with_conditionState (triggeredState w) w)
  else w.

(** [Timer.stop]: cancel the pending timeout, if there is one.  Cancelling
    the handle of a timeout that has already run does nothing. *)
Definition Timer_stop (t : Timer) (w : World) : World :=
  match _timer t with
  | Some h => clearTimeout h w
  | None => w
  end.

(** [Timer.start(seconds, func)] on a new timer: the timeout is set for
    [seconds * 1000], a product of numbers. *)
Definition Timer_start (seconds : Number) (cb : Callback) (w : World) : Timer * World :=
  let timeout := Number_mul seconds (Number_of_Z 1000) in
  let '(h, w') := setTimeout cb (IntegerPart timeout) w in
  ({| _timer := Some h |}, w').

Definition _deleteTimer (camera_id : string) (w : World) : World :=
  let w1 :=
    match JSMap.get camera_id (_triggeredCameraTimers (manager w)) with
    | Some t => Timer_stop t w
    | None => w
    end in
  with_triggeredCameraTimers
    (JSMap.delete camera_id (_triggeredCameraTimers (manager w1))) w1.

Definition _untriggerAction (camera_id : string) (w : World) : World :=
  let action := option_map (fun tc => untrigger (actions tc)) (triggersConfig w) in
  let w1 :=
    match action with
    | Some untrigger_default =>
        if _hasAllowableInteractionStateForAction w
        then emit (setViewDefault None) w else w
    | _ => w
    end in
  let w2 := with_triggeredCameras
              (JSMap.delete camera_id (_triggeredCameras (manager w1))) w1 in
  let w3 := _deleteTimer camera_id w2 in
  let w4 := _setConditionStateIfNecessary w3 in
  emit update w4.

Definition _startUntriggerTimer (camera_id : string) (w : World) : World :=
  let w1 := _deleteTimer camera_id w in
  let seconds :=
    match triggersConfig w1 with
    | Some tc => untrigger_seconds tc
    | None => Number_of_Z 0
    end in
  let '(timer, w2) := Timer_start seconds (cb_untrigger camera_id) w1 in
  with_triggeredCameraTimers
    (JSMap.set camera_id timer (_triggeredCameraTimers (manager w2))) w2.

(** ** The throttled trigger action

    [throttle(func, wait, options)] of lodash (lodash-es/throttle, an
    external dependency): [leading] and [trailing] default to [true] and
    are overridden only by the keys present in [options]; the result is
    [debounce(func, wait, {leading, maxWait: wait, trailing})].  The
    functions below are lodash's [debounce], instantiated at
    [func = this._triggerAction]. *)

Record ThrottleOptions := {
  opt_leading : option bool;     (* [None]: the key is absent *)
  opt_trailing : option bool
}.

Definition throttle (wait_ms : Z) (options : ThrottleOptions) : Debounced :=
  {| wait := wait_ms;
     leading := match opt_leading options with Some b => b | None => true end;
     maxing := true;
     maxWait := Z.max wait_ms wait_ms;
     trailing := match opt_trailing options with Some b => b | None => true end;
     lastArgs := None;
     lastCallTime := None;
     lastInvokeTime := 0;
     timerId := None |}.

Definition throttled (w : World) : Debounced := _throttledTriggerAction (manager w).

Definition set_lastArgs (a : option CameraEvent) (d : Debounced) : Debounced :=
  {| wait := wait d; leading := leading d; maxing := maxing d; maxWait := maxWait d;
     trailing := trailing d; lastArgs := a; lastCallTime := lastCallTime d;
     lastInvokeTime := lastInvokeTime d; timerId := timerId d |}.

Definition set_lastCallTime (t : option Z) (d : Debounced) : Debounced :=
  {| wait := wait d; leading := leading d; maxing := maxing d; maxWait := maxWait d;
     trailing := trailing d; lastArgs := lastArgs d; lastCallTime := t;
     lastInvokeTime := lastInvokeTime d; timerId := timerId d |}.

Definition set_lastInvokeTime (t : Z) (d : Debounced) : Debounced :=
  {| wait := wait d; leading := leading d; maxing := maxing d; maxWait := maxWait d;
     trailing := trailing d; lastArgs := lastArgs d; lastCallTime := lastCallTime d;
     lastInvokeTime := t; timerId := timerId d |}.

Definition set_timerId (h : option nat) (d : Debounced) : Debounced :=
  {| wait := wait d; leading := leading d; maxing := maxing d; maxWait := maxWait d;
     trailing := trailing d; lastArgs := lastArgs d; lastCallTime := lastCallTime d;
     lastInvokeTime := lastInvokeTime d; timerId := h |}.

(** [timerId = setTimeout(timerExpired, ms)]. *)
Definition startTimer (ms : Z) (w : World) : World :=
  let '(h, w') := setTimeout cb_timerExpired ms w in
  with_throttle (set_timerId (Some h) (throttled w')) w'.

(** [invokeFunc] is reached only with [lastArgs] defined. *)
Definition invokeFunc (time : Z) (w : World) : World :=
  let args := lastArgs (throttled w) in
  let w1 := with_throttle
              (set_lastInvokeTime time (set_lastArgs None (throttled w))) w in
  match args with
  | Some ev => _triggerAction ev w1
  | None => w1
  end.

Definition leadingEdge (time : Z) (w : World) : World :=
  let w1 := with_throttle (set_lastInvokeTime time (throttled w)) w in
  let w2 := startTimer (wait (throttled w1)) w1 in
  if leading (throttled w2) then invokeFunc time w2 else w2.

(** [remainingWait] is reached only with [lastCallTime] defined. *)
Definition remainingWait (d : Debounced) (time : Z) : Z :=
  match lastCallTime d with
  | None => 0
  | Some lct =>
      let timeSinceLastCall := time - lct in
      let timeSinceLastInvoke := time - lastInvokeTime d in
      let timeWaiting := wait d - timeSinceLastCall in
      if maxing d then Z.min timeWaiting (maxWait d - timeSinceLastInvoke)
      else timeWaiting
  end.

Definition shouldInvoke (d : Debounced) (time : Z) : bool :=
  match lastCallTime d with
  | None => true
  | Some lct =>
      let timeSinceLastCall := time - lct in
      let timeSinceLastInvoke := time - lastInvokeTime d in
      (timeSinceLastCall >=? wait d) || (timeSinceLastCall <? 0)
      || (maxing d && (timeSinceLastInvoke >=? maxWait d))
  end.

Definition trailingEdge (time : Z) (w : World) : World :=
  let w1 := with_throttle (set_timerId None (throttled w)) w in
  match lastArgs (throttled w1) with
  | Some _ =>
      if trailing (throttled w1) then invokeFunc time w1
      else with_throttle (set_lastArgs None (throttled w1)) w1
  | None => with_throttle (set_lastArgs None (throttled w1)) w1
  end.

Definition timerExpired (w : World) : World :=
  let time := now w in
  if shouldInvoke (throttled w) time then trailingEdge time w
  else startTimer (remainingWait (throttled w) time) w.

(** The debounced function itself: [this._throttledTriggerAction(ev)]. *)
Definition debounced (ev : CameraEvent) (w : World) : World :=
  let time := now w in
  let isInvoking := shouldInvoke (throttled w) time in
  let w1 := with_throttle
              (set_lastCallTime (Some time) (set_lastArgs (Some ev) (throttled w))) w in
  match isInvoking, timerId (throttled w1) with
  | true, None => leadingEdge time w1
  | true, Some h =>
      if maxing (throttled w1) then
        invokeFunc time (startTimer (wait (throttled w1)) (clearTimeout h w1))
      else w1
  | false, None => startTimer (wait (throttled w1)) w1
  | false, Some _ => w1
  end.

(** ** [handleCameraEvent] *)

(** [!selectedCameraID]: the view is absent or its camera is the empty
    string. *)
Definition selectedCameraID (w : World) : option string :=
  match getView (api w) with
  | Some v => if String.eqb (camera v) "" then None else Some (camera v)
  | None => None
  end.

Definition Set_has (k : string) (s : list string) : bool :=
  existsb (String.eqb k) s.

Definition handleCameraEvent (ev : CameraEvent) (w : World) : World :=
  match triggersConfig w, selectedCameraID w with
  | Some tc, Some selected =>
      let dependentCameraIDs := getAllDependentCameras (api w) selected in
      if filter_selected_camera tc && negb (Set_has (cameraID ev) dependentCameraIDs)
      then w
      else if is_end (type ev) then _startUntriggerTimer (cameraID ev) w
      else
        let w1 := with_triggeredCameras
                    (JSMap.set (cameraID ev) (now w) (_triggeredCameras (manager w))) w in
        let w2 := _setConditionStateIfNecessary w1 in
        debounced ev w2
  | _, _ => w
  end.

(** [new TriggersManager(api)]. *)
Definition new_TriggersManager : Manager :=
  {| _triggeredCameras := [];
     _triggeredCameraTimers := [];
     _throttledTriggerAction :=
       throttle 1000 {| opt_leading := None; opt_trailing := Some true |} |}.

(** ** The event loop

    Pending timeouts run in the order of their due times, and in the order
    they were set when due together; a timeout runs at its due time. *)

Fixpoint earliest (q : list Timeout) : option Timeout :=
  match q with
  | [] => None
  | t :: q' =>
      match earliest q' with
      | Some t' => if due t' <? due t then Some t' else Some t
      | None => Some t
      end
  end.

Definition run_callback (cb : Callback) (w : World) : World :=
  match cb with
  | cb_untrigger camera_id => _untriggerAction camera_id w
  | cb_timerExpired => timerExpired w
  end.

Definition fire (t : Timeout) (w : World) : World :=
  run_callback (callback t)
    (clearTimeout (handle t) (with_now (Z.max (now w) (due t)) w)).

(** Let time pass until [t], running the timeouts that fall due.  [None]
    when [fuel] timeouts have run and another one is still due. *)
Fixpoint advance (fuel : nat) (t : Z) (w : World) : option World :=
  match earliest (timeouts w) with
  | Some next =>
      if due next <=? t then
        match fuel with
        | O => None
        | S fuel' => advance fuel' t (fire next w)
        end
      else Some (with_now (Z.max (now w) t) w)
  | None => Some (with_now (Z.max (now w) t) w)
  end.

(** An event delivered at time [t]. *)
Definition deliver (fuel : nat) (t : Z) (ev : CameraEvent) (w : World) : option World :=
  option_map (handleCameraEvent ev) (advance fuel t w).

Fixpoint run (fuel : nat) (feed : list (Z * CameraEvent)) (w : World) : option World :=
  match feed with
  | [] => Some w
  | (t, ev) :: feed' =>
      match deliver fuel t ev w with
      | Some w' => run fuel feed' w'
      | None => None
      end
  end.

(** ** Executions of the manager *)

(** One step of the event loop: an event is delivered, a pending timeout
    runs, time passes, or a collaborator changes what it answers (the
    configuration is edited, the user selects another camera or touches the
    card, the condition-state store is written by someone else). *)
Inductive step : World -> World -> Prop :=
| step_event (ev : CameraEvent) (w : World) : step w (handleCameraEvent ev w)
| step_fire (t : Timeout) (w : World) : In t (timeouts w) -> step w (fire t w)
| step_clock (t : Z) (w : World) : now w <= t -> step w (with_now t w)
| step_api (a : API) (w : World) : step w (with_api a w).

Definition initial (w : World) : Prop :=
  manager w = new_TriggersManager /\ timeouts w = [] /\ log w = [].

Inductive reachable : World -> Prop :=
| reachable_initial (w : World) : initial w -> reachable w
| reachable_step (w w' : World) : reachable w -> step w w' -> reachable w'.

(** ** Reading the log *)

Definition is_navigation (e : Effect) : bool :=
  match e with
  | setViewByParameters _ _ | setViewDefault _ => true
  | _ => false
  end.

(** A navigation command changes to the live view when it names the live
    view, or asks for the default view while the configured default view
    is the live view (the test [_triggerAction] itself makes). *)
Definition navigates_to_live (w : World) (e : Effect) : bool :=
  match e with
  | setViewByParameters viewName _ => String.eqb viewName "live"
  | setViewDefault _ =>
      is_view (option_map (fun c => default (view c)) (getConfig (api w))) "live"
  | _ => false
  end.

(** The values written to the condition-state store recorded in a log,
    newest first, and their number. *)
Fixpoint published (l : list (Z * Effect)) : list (option (list string)) :=
  match l with
  | [] => []
  | (_, setState s) :: l' => s :: published l'
  | _ :: l' => published l'
  end.

Definition writes (l : list (Z * Effect)) : nat := length (published l).

(** The executions of [_triggerAction] recorded in a log, newest first. *)
Fixpoint executions (l : list (Z * Effect)) : list (Z * CameraEvent) :=
  match l with
  | [] => []
  | (t, triggerAction_called ev) :: l' => (t, ev) :: executions l'
  | _ :: l' => executions l'
  end.

(** A published value is a non-empty set or [undefined]. *)
Definition nonempty_or_absent (s : option (list string)) : Prop :=
  match s with
  | Some [] => False
  | _ => True
  end.

Definition with_log (l : list (Z * Effect)) (w : World) : World :=
  {| manager := manager w; api := api w; now := now w; timeouts := timeouts w;
     nextHandle := nextHandle w; log := l |}.

Definition is_untrigger_of (camera_id : string) (t : Timeout) : bool :=
  match callback t with
  | cb_untrigger c => String.eqb c camera_id
  | cb_timerExpired => false
  end.

Definition is_untrigger (t : Timeout) : bool :=
  match callback t with
  | cb_untrigger _ => true
  | cb_timerExpired => false
  end.

(** The pending untrigger timeouts of a camera. *)
Definition active_timers (camera_id : string) (w : World) : list Timeout :=
  filter (is_untrigger_of camera_id) (timeouts w).

(** The event passes the guards of [handleCameraEvent]. *)
Definition passes_guards (ev : CameraEvent) (w : World) : bool :=
  match triggersConfig w, selectedCameraID w with
  | Some tc, Some selected =>
      negb (filter_selected_camera tc
            && negb (Set_has (cameraID ev) (getAllDependentCameras (api w) selected)))
  | _, _ => false
  end.

(** ** Scenarios *)

Definition policy (t : TriggerAction) (u : UntriggerAction) (m : InteractionMode)
    (default_view : string) (filter_selected : bool) (seconds : Number) : Config :=
  {| view :=
       {| default := default_view;
          triggers :=
            {| filter_selected_camera := filter_selected;
               untrigger_seconds := seconds;
               actions := {| trigger := t; untrigger := u; interaction_mode := m |} |} |} |}.

(** A card showing camera "A", whose dependent cameras are "A" and "B". *)
Definition card (c : option Config) : World :=
  {| manager := new_TriggersManager;
     api := {| getConfig := c;
               getView := Some {| camera := "A" |};
               getAllDependentCameras := fun _ => ["A"; "B"]%string;
               hasInteraction := false;
               conditionState_triggered := None |};
     now := 0; timeouts := []; nextHandle := 1; log := [] |}.

Definition event (c : string) (t : EventType) (f : Fidelity)
    (has_snapshot has_clip : bool) : CameraEvent :=
  {| cameraID := c; type := t; fidelity := f;
     snapshot := Some has_snapshot; clip := Some has_clip |}.

(** Scenario worlds and events used by the examples below. *)
Definition low_fidelity_event : CameraEvent := event "A" ev_new low false false.

Definition card_default_clips : World :=
  card (Some (policy trigger_default untrigger_none mode_all "clips" false (Number_of_Z 10))).

Definition empty_high_fidelity_event : CameraEvent := event "A" ev_new high false false.

Definition card_media : World :=
  card (Some (policy trigger_media untrigger_none mode_all "live" false (Number_of_Z 10))).

Definition card_filtering : World :=
  card (Some (policy trigger_live untrigger_default mode_all "live" true (Number_of_Z 10))).

Definition card_live : World :=
  card (Some (policy trigger_live untrigger_default mode_all "live" false (Number_of_Z 10))).

Definition start_A : CameraEvent := event "A" ev_new high true false.
Definition start_B : CameraEvent := event "B" ev_new high true false.
Definition end_A : CameraEvent := event "A" ev_end high true false.

(** Camera "A" starts at 0 s, ends at 1 s and starts again at 5 s; then
    time passes until 11 s. *)
Definition retrigger_scenario : option World :=
  run 4 [(0, start_A); (1000, end_A); (5000, start_A)] card_live.

Definition retrigger_scenario_later : option World :=
  match retrigger_scenario with
  | Some w => advance 4 11000 w
  | None => None
  end.

(** Camera "A" has started and ended: it is triggered and its untrigger
    timer is armed. *)
Definition armed_world : World :=
  handleCameraEvent end_A (handleCameraEvent start_A card_live).

(** Cameras "A" and "B" start 0.3 s apart; then time passes until 1 s. *)
Definition burst_scenario : option World :=
  match run 4 [(0, start_A); (300, start_B)] card_live with
  | Some w => advance 4 1000 w
  | None => None
  end.

(** The same card with [untrigger_seconds = 1.5]. *)
Definition card_short : World :=
  card (Some (policy trigger_live untrigger_default mode_all "live" false
                (Number_div (Number_of_Z 3) (Number_of_Z 2)))).

(** A card whose policy acts only while the user interacts; nobody does. *)
Definition card_active_mode : World :=
  card (Some (policy trigger_live untrigger_default mode_active "live" false (Number_of_Z 10))).

(** ** Vocabulary of the properties *)

(** The timeouts left once the timer stored for [c] is stopped. *)
Definition stop_timer_of (c : string) (timers : list (string * Timer))
    (q : list Timeout) : list Timeout :=
  match JSMap.get c timers with
  | Some {| _timer := Some h |} => filter (fun t => negb (Nat.eqb (handle t) h)) q
  | _ => q
  end.

(** The timeouts left pending when the timer stored for a camera is
    stopped. *)
Definition without_timer_of (camera_id : string) (w : World) : list Timeout :=
  stop_timer_of camera_id (_triggeredCameraTimers (manager w)) (timeouts w).

(** The navigation decision of [_untriggerAction]. *)
Definition untrigger_navigates (w : World) : bool :=
  match option_map (fun tc => untrigger (actions tc)) (triggersConfig w) with
  | Some untrigger_default => _hasAllowableInteractionStateForAction w
  | _ => false
  end.

(** The world after the triggered camera and its timer are removed, before
    the condition state is published. *)
Definition untriggered (c : string) (w : World) : World :=
  with_triggeredCameraTimers (JSMap.delete c (_triggeredCameraTimers (manager w)))
    (with_timeouts (without_timer_of c w)
       (with_triggeredCameras (JSMap.delete c (_triggeredCameras (manager w))) w)).

(** Two worlds that differ only in the throttle's closure, the pending
    timeouts and the commands other than condition-state writes. *)
Record same_tracking (w w' : World) : Prop := {
  same_cameras : _triggeredCameras (manager w') = _triggeredCameras (manager w);
  same_timers : _triggeredCameraTimers (manager w') = _triggeredCameraTimers (manager w);
  same_api : api w' = api w;
  same_now : now w' = now w;
  same_published : published (log w') = published (log w)
}.

(** The world after a start event has refreshed the camera's timestamp. *)
Definition triggered_at_now (ev : CameraEvent) (w : World) : World :=
  with_triggeredCameras
    (JSMap.set (cameraID ev) (now w) (_triggeredCameras (manager w))) w.

(** Two values of the [triggered] entry of the store hold the same
    cameras. *)
Definition same_set (a b : option (list string)) : Prop :=
  match a, b with
  | None, None => True
  | Some x, Some y => forall k, In k x <-> In k y
  | _, _ => False
  end.

(** A value of the [triggered] entry is a JavaScript [Set]: it holds no
    camera twice. *)
Definition is_set (a : option (list string)) : Prop :=
  match a with
  | Some x => NoDup x
  | None => True
  end.

(** The number [x] of seconds is exactly [ms] milliseconds: [x] is a zero
    and [ms] is 0, or [x] is the positive number [m * 2^e] and
    [m * 2^e * 1000 = ms]. *)
Definition seconds_are_ms (x : Number) (ms : Z) : Prop :=
  match x with
  | S754_zero _ => ms = 0
  | S754_finite false m e =>
      Z.pos m * 1000 * 2 ^ Z.max 0 e = ms * 2 ^ Z.max 0 (- e)
  | _ => False
  end.

(** The longest delay the platform's timers take, in milliseconds. *)
Definition longest_delay : Z := 2147483647.

(** An untrigger timeout for camera [c], set in world [w] to run [ms]
    milliseconds later. *)
Definition untrigger_timeout (c : string) (ms : Z) (w : World) : Timeout :=
  {| handle := nextHandle w; due := now w + ms; callback := cb_untrigger c |}.

(** The delay [setTimeout] gives the timer that [_startUntriggerTimer]
    starts in world [w]. *)
Definition untrigger_delay (w : World) : Z :=
  let seconds :=
    match triggersConfig w with
    | Some tc => untrigger_seconds tc
    | None => Number_of_Z 0
    end in
  Z.max 0 (ToInt32 (IntegerPart (Number_mul seconds (Number_of_Z 1000)))).

(** [x] sorts before [y]. *)
Definition sorts_before (x y : Decorated) : Prop := compareMultiple_desc x y <= 0.

(** The head of a list sorts before every element of the list. *)
Definition head_first (l : list Decorated) : Prop :=
  match l with
  | [] => True
  | h :: _ => forall y, In y l -> sorts_before h y
  end.

(** The pending timeouts carry distinct handles below the next handle;
    every pending untrigger timeout is the one held by the timer stored
    for its camera; and the handle held by a stored timer was issued
    earlier and belongs to no other callback. *)
Definition consistent (timers : list (string * Timer)) (q : list Timeout)
    (next : nat) : Prop :=
  NoDup (map handle q) /\
  (forall t, In t q -> (handle t < next)%nat) /\
  (forall t c, In t q -> callback t = cb_untrigger c ->
     JSMap.get c timers = Some {| _timer := Some (handle t) |}) /\
  (forall c h, JSMap.get c timers = Some {| _timer := Some h |} ->
     (h < next)%nat /\
     forall t, In t q -> handle t = h -> callback t = cb_untrigger c).

Definition timers_consistent (w : World) : Prop :=
  consistent (_triggeredCameraTimers (manager w)) (timeouts w) (nextHandle w).

(** No timeout of the throttle is pending. *)
Definition quiet (q : list Timeout) : Prop :=
  forall t, In t q -> callback t <> cb_timerExpired.

(** The options the manager builds its throttle with. *)
Definition throttle_settings (d : Debounced) : Prop :=
  wait d = 1000 /\ leading d = true /\ maxing d = true /\
  maxWait d = 1000 /\ trailing d = true.

(** Every pending timeout of the throttle is the one [timerId] names, and
    the handle [timerId] names belongs to no other callback. *)
Definition throttle_ok (d : Debounced) (q : list Timeout) (next : nat) : Prop :=
  throttle_settings d /\
  (forall t, In t q -> callback t = cb_timerExpired -> timerId d = Some (handle t)) /\
  (forall h, timerId d = Some h ->
     (h < next)%nat /\
     forall t, In t q -> handle t = h -> callback t = cb_timerExpired).

Definition throttle_consistent (w : World) : Prop :=
  throttle_ok (throttled w) (timeouts w) (nextHandle w).

(** Two worlds in which the guards of [handleCameraEvent] read the same
    configuration, view and camera topology. *)
Definition same_policy (v w : World) : Prop :=
  getConfig (api v) = getConfig (api w) /\
  getView (api v) = getView (api w) /\
  getAllDependentCameras (api v) = getAllDependentCameras (api w).

(** The timeout the throttle sets at the leading edge of a window that
    opens at [t1]. *)
Definition throttle_timeout (n : nat) (t1 : Z) : Timeout :=
  {| handle := n; due := t1 + 1000; callback := cb_timerExpired |}.

(** The state of a window of the throttle that opened at [t1] with the
    timeout [n]: [last] is the call waiting for the trailing edge and [E]
    the executions so far. *)
Record in_window (t1 : Z) (n : nat) (last : option CameraEvent)
    (E : list (Z * CameraEvent)) (w0 v : World) : Prop := {
  ws_timers : timers_consistent v;
  ws_settings : throttle_settings (throttled v);
  ws_timerId : timerId (throttled v) = Some n;
  ws_invoke : lastInvokeTime (throttled v) = t1;
  ws_call : exists tc, lastCallTime (throttled v) = Some tc /\ t1 <= tc <= now v;
  ws_args : lastArgs (throttled v) = last;
  ws_pending : In (throttle_timeout n t1) (timeouts v);
  ws_only : forall t, In t (timeouts v) -> callback t = cb_timerExpired -> handle t = n;
  ws_now : now v <= t1 + 1000;
  ws_exec : executions (log v) = E;
  ws_policy : same_policy v w0
}.

(** The state after the trailing edge: no timeout of the throttle is
    pending. *)
Record window_closed (E : list (Z * CameraEvent)) (v : World) : Prop := {
  wc_timers : timers_consistent v;
  wc_quiet : quiet (timeouts v);
  wc_exec : executions (log v) = E
}.

(** The execution at the trailing edge of a window opened at [t1]. *)
Definition trailing_execution (t1 : Z) (last : option CameraEvent)
    : list (Z * CameraEvent) :=
  match last with
  | Some ev => [(t1 + 1000, ev)]
  | None => []
  end.

(** The delivery times of a feed do not decrease, starting from [t]. *)
Fixpoint nondecreasing_from (t : Z) (feed : list (Z * CameraEvent)) : Prop :=
  match feed with
  | [] => True
  | (t', _) :: feed' => t <= t' /\ nondecreasing_from t' feed'
  end.

(** The last event of a feed, or [first] when the feed is empty. *)
Definition last_call (first : option CameraEvent) (feed : list (Z * CameraEvent))
    : option CameraEvent :=
  fold_left (fun _ x => Some (snd x)) feed first.

(** The navigation commands recorded in a log, newest first. *)
Definition navigations (l : list (Z * Effect)) : list (Z * Effect) :=
  filter (fun x => is_navigation (snd x)) l.

(** The condition-state store holds the set of triggered cameras. *)
Definition in_sync (w : World) : Prop :=
  isEqual (triggeredState w) (conditionState_triggered (api w)) = true.

Definition is_throttle (t : Timeout) : bool :=
  match callback t with
  | cb_timerExpired => true
  | cb_untrigger _ => false
  end.

(** The call waiting in the throttle and the executions recorded so far
    are all of start-type events. *)
Definition start_only (w : World) : Prop :=
  (forall ev, lastArgs (throttled w) = Some ev -> is_end (type ev) = false) /\
  (forall t ev, In (t, ev) (executions (log w)) -> is_end (type ev) = false).

(** The throttle has not executed in the future, and its pending timeout
    is due no earlier than a full wait after its last execution. *)
Definition throttle_timing (w : World) : Prop :=
  (lastCallTime (throttled w) <> None -> lastInvokeTime (throttled w) <= now w) /\
  (forall t, In t (timeouts w) -> callback t = cb_timerExpired ->
             lastInvokeTime (throttled w) + 1000 <= due t).

(** Every entry of the timer map holds the handle of a pending untrigger
    timeout of its camera, the only one. *)
Definition timers_live (w : World) : Prop :=
  forall c tm,
    JSMap.get c (_triggeredCameraTimers (manager w)) = Some tm ->
    exists t, active_timers c w = [t] /\ tm = {| _timer := Some (handle t) |}.

(** The timeout [timerId] names is pending and due within a second, and a
    call waits in the throttle only while such a timeout is pending. *)
Definition throttle_pending (w : World) : Prop :=
  (forall h, timerId (throttled w) = Some h ->
     exists t, In t (timeouts w) /\ handle t = h /\
               callback t = cb_timerExpired /\ due t <= now w + 1000) /\
  (lastArgs (throttled w) <> None -> timerId (throttled w) <> None).

(** ** The engine factory ([CameraManagerEngineFactory])

    src/src/camera-manager/engine-factory.ts.  Engines are objects: an
    engine is identified by the number of its allocation, and the factory
    is modelled together with the count of the engines it has created. *)
Module EngineFactory.

(** The engine kinds of [./types] (not among the sources).  The factory
    names [Engine.Frigate] only and has no case for any other kind. *)
Inductive Engine := Frigate | OtherEngine (name : string).

Definition Engine_eqb (a b : Engine) : bool :=
  match a, b with
  | Frigate, Frigate => true
  | OtherEngine x, OtherEngine y => String.eqb x y
  | _, _ => false
  end.

Record CameraManagerEngine := {
  engine_ref : nat;        (* identity of the object *)
  engine_kind : Engine
}.

(** [cameraConfig.frigate.camera_name]. *)
Record CameraConfig := { frigate_camera_name : option string }.

Record Factory := {
  _engines : list (Engine * CameraManagerEngine);   (* Map<Engine, CameraManagerEngine> *)
  created : nat
}.

(** [new CameraManagerEngineFactory(cardWideConfig)]. *)
Definition new_factory : Factory := {| _engines := []; created := 0 |}.

Fixpoint engines_get (k : Engine) (m : list (Engine * CameraManagerEngine))
    : option CameraManagerEngine :=
  match m with
  | [] => None
  | (k', e) :: m' => if Engine_eqb k' k then Some e else engines_get k m'
  end.

Fixpoint engines_set (k : Engine) (e : CameraManagerEngine)
    (m : list (Engine * CameraManagerEngine)) : list (Engine * CameraManagerEngine) :=
  match m with
  | [] => [(k, e)]
  | (k', e') :: m' =>
      if Engine_eqb k' k then (k', e) :: m' else (k', e') :: engines_set k e m'
  end.

Definition getEngine (engine : Engine) (f : Factory)
    : option CameraManagerEngine * Factory :=
  match engines_get engine (_engines f) with
  | Some cachedEngine => (Some cachedEngine, f)
  | None =>
      match engine with
      | Frigate =>
          let cameraManagerEngine :=
            {| engine_ref := created f; engine_kind := Frigate |} in
          (Some cameraManagerEngine,
           {| _engines := engines_set engine cameraManagerEngine (_engines f);
              created := S (created f) |})
      | OtherEngine _ => (None, f)
      end
  end.

(** A camera name is truthy when it is present and not empty. *)
Definition has_camera_name (c : CameraConfig) : bool :=
  match frigate_camera_name c with
  | Some name => negb (String.eqb name "")
  | None => false
  end.

Definition getEngineForCamera (cameraConfig : option CameraConfig) (f : Factory)
    : option CameraManagerEngine * Factory :=
  match cameraConfig with
  | None => (None, f)
  | Some c => if has_camera_name c then getEngine Frigate f else (None, f)
  end.

(** [Map<CameraManagerEngine, Set<string>>]: keyed by the engine object. *)
Definition same_engine (a b : CameraManagerEngine) : bool :=
  Nat.eqb (engine_ref a) (engine_ref b).

Definition Set_add (x : string) (s : list string) : list string :=
  if existsb (String.eqb x) s then s else s ++ [x].

Fixpoint output_has (e : CameraManagerEngine)
    (output : list (CameraManagerEngine * list string)) : bool :=
  match output with
  | [] => false
  | (e', _) :: output' => same_engine e' e || output_has e output'
  end.

(** [output.get(engine)?.add(cameraID)]. *)
Fixpoint output_add (e : CameraManagerEngine) (cameraID : string)
    (output : list (CameraManagerEngine * list string))
    : list (CameraManagerEngine * list string) :=
  match output with
  | [] => []
  | (e', ids) :: output' =>
      if same_engine e' e then (e', Set_add cameraID ids) :: output'
      else (e', ids) :: output_add e cameraID output'
  end.

(** One turn of the loop of [getEnginesForCameraIDs]. *)
Definition visit (cameras : list (string * CameraConfig))
    (state : list (CameraManagerEngine * list string) * Factory) (cameraID : string)
    : list (CameraManagerEngine * list string) * Factory :=
  let '(output, f) := state in
  match JSMap.get cameraID cameras with
  | None => (output, f)
  | Some cameraConfig =>
      match getEngineForCamera (Some cameraConfig) f with
      | (None, f') => (output, f')
      | (Some engine, f') =>
          let output' :=
            if output_has engine output then output else output ++ [(engine, [])] in
          (output_add engine cameraID output', f')
      end
  end.

Definition getEnginesForCameraIDs (cameras : list (string * CameraConfig))
    (cameraIDs : list string) (f : Factory)
    : option (list (CameraManagerEngine * list string)) * Factory :=
  let '(output, f') := fold_left (visit cameras) cameraIDs ([], f) in
  (match output with [] => None | _ => Some output end, f').

(** [media.getCameraID()] is the argument; [null] and the empty string
    are falsy. *)
Definition getEngineForMedia (cameras : list (string * CameraConfig))
    (mediaCameraID : option string) (f : Factory)
    : option CameraManagerEngine * Factory :=
  match mediaCameraID with
  | None => (None, f)
  | Some cameraID =>
      if String.eqb cameraID "" then (None, f)
      else
        match getEnginesForCameraIDs cameras [cameraID] f with
        | (Some ((engine, _) :: _), f') => (Some engine, f')
        | (_, f') => (None, f')
        end
  end.

Definition getAllEngines (cameras : list (string * CameraConfig)) (f : Factory)
    : option (list CameraManagerEngine) * Factory :=
  match getEnginesForCameraIDs cameras (JSMap.keys cameras) f with
  | (Some engines, f') => (Some (map fst engines), f')
  | (None, f') => (None, f')
  end.

(** The factories that calls of the public methods can produce. *)
Inductive produced : Factory -> Prop :=
| produced_new : produced new_factory
| produced_getEngine engine f : produced f -> produced (snd (getEngine engine f))
| produced_getEngineForCamera c f :
    produced f -> produced (snd (getEngineForCamera c f))
| produced_getEnginesForCameraIDs cameras ids f :
    produced f -> produced (snd (getEnginesForCameraIDs cameras ids f))
| produced_getEngineForMedia cameras m f :
    produced f -> produced (snd (getEngineForMedia cameras m f))
| produced_getAllEngines cameras f :
    produced f -> produced (snd (getAllEngines cameras f)).

(** The camera can be served by an engine. *)
Definition resolvable (cameras : list (string * CameraConfig)) (cameraID : string)
    : bool :=
  match JSMap.get cameraID cameras with
  | Some c => has_camera_name c
  | None => false
  end.

End EngineFactory.

(** The engine a factory creates first, and the factory that holds it. *)
Definition first_engine : EngineFactory.CameraManagerEngine :=
  {| EngineFactory.engine_ref := 0; EngineFactory.engine_kind := EngineFactory.Frigate |}.

Definition warm_factory : EngineFactory.Factory :=
  {| EngineFactory._engines := [(EngineFactory.Frigate, first_engine)];
     EngineFactory.created := 1 |}.

(** The output map of [getEnginesForCameraIDs] once the cameras [done]
    have been given to the engine. *)
Definition grouped (done : list string)
    : list (EngineFactory.CameraManagerEngine * list string) :=
  match done with
  | [] => []
  | _ => [(first_engine, done)]
  end.

Definition cameras_example : list (string * EngineFactory.CameraConfig) :=
  [("front"%string, {| EngineFactory.frigate_camera_name := Some "front_door"%string |});
   ("birdseye"%string, {| EngineFactory.frigate_camera_name := None |});
   ("back"%string, {| EngineFactory.frigate_camera_name := Some "back_yard"%string |})].

(** ** The dynamic menu buttons ([MenuButtonController])

    src/src/components-lib/menu-controller.ts, [addDynamicMenuButton] and
    [removeDynamicMenuButton].  Menu items are objects: [includes] and
    [!=] compare them by identity, here the test [same]. *)
Module MenuButtons.
Section WithItems.
Context {MenuItem : Type} (same : MenuItem -> MenuItem -> bool).

Definition includes (l : list MenuItem) (button : MenuItem) : bool :=
  existsb (same button) l.

Definition addDynamicMenuButton (button : MenuItem) (_dynamicMenuButtons : list MenuItem)
    : list MenuItem :=
  if negb (includes _dynamicMenuButtons button)
  then _dynamicMenuButtons ++ [button]
  else _dynamicMenuButtons.

Definition removeDynamicMenuButton (button : MenuItem)
    (_dynamicMenuButtons : list MenuItem) : list MenuItem :=
  filter (fun existingButton => negb (same existingButton button)) _dynamicMenuButtons.

(** A call of one of the two methods. *)
Inductive Call := add (button : MenuItem) | remove (button : MenuItem).

Definition call (l : list MenuItem) (c : Call) : list MenuItem :=
  match c with
  | add button => addDynamicMenuButton button l
  | remove button => removeDynamicMenuButton button l
  end.

End WithItems.
End MenuButtons.

(** * Properties *)

(** ** Numbers and delays *)

Lemma Zdigits2_log2 (p : positive) : Zdigits2 (Z.pos p) = Z.log2 (Z.pos p) + 1.
Proof.
  assert (H : forall q, digits2_pos q = Pos.size q) by (induction q; simpl; congruence).
  simpl. rewrite H. destruct p; simpl; lia.
Qed.

Lemma iter_shr_1 (k : positive) :
  forall M a : positive,
    Z.pos M = Z.pos a * 2 ^ Z.pos k ->
    iter_pos shr_1 k {| shr_m := Z.pos M; shr_r := false; shr_s := false |}
      = {| shr_m := Z.pos a; shr_r := false; shr_s := false |}.
Proof.
  induction k as [k IH|k IH|]; intros M a HM.
  - assert (Hk : Z.pos k~1 = 1 + Z.pos k + Z.pos k) by lia.
    rewrite Hk, !Z.pow_add_r, Z.pow_1_r in HM by lia.
    destruct M as [M|M|]; try lia.
    simpl. rewrite (IH M (a * 2 ^ k)%positive).
    + apply IH. rewrite Pos2Z.inj_mul, Pos2Z.inj_pow. reflexivity.
    + rewrite Pos2Z.inj_mul, Pos2Z.inj_pow. lia.
  - assert (Hk : Z.pos k~0 = Z.pos k + Z.pos k) by lia.
    rewrite Hk, !Z.pow_add_r in HM by lia.
    simpl. rewrite (IH M (a * 2 ^ k)%positive).
    + apply IH. rewrite Pos2Z.inj_mul, Pos2Z.inj_pow. reflexivity.
    + rewrite Pos2Z.inj_mul, Pos2Z.inj_pow. lia.
  - rewrite Z.pow_1_r in HM. destruct M as [M|M|]; try lia.
    simpl. f_equal. lia.
Qed.

(** Rounding a mantissa and exponent whose value is a whole number below
    2^53 is exact. *)
Lemma binary_round_aux_whole (M : positive) (E ms : Z) :
  0 < ms < 2 ^ 53 ->
  Z.pos M * 2 ^ Z.max 0 E = ms * 2 ^ Z.max 0 (- E) ->
  IntegerPart (binary_round_aux 53 1024 false (Z.pos M) E loc_Exact) = ms.
Proof.
  intros Hms HM.
  assert (HL : 0 <= Z.log2 ms < 53).
  { split; [apply Z.log2_nonneg|]. apply Z.log2_lt_pow2; lia. }
  unfold binary_round_aux, shr_fexp, fexp, emin.
  rewrite Zdigits2_log2. cbn [shr_record_of_loc].
  destruct (Z_le_gt_dec 0 E) as [HE|HE].
  - (* a whole mantissa: nothing is shifted out *)
    rewrite Z.max_r in HM by lia. rewrite Z.max_l in HM by lia.
    rewrite Z.pow_0_r, Z.mul_1_r in HM.
    assert (Hpow : 0 < 2 ^ E) by (apply Z.pow_pos_nonneg; lia).
    assert (HlM : Z.log2 (Z.pos M) <= Z.log2 ms) by (apply Z.log2_le_mono; nia).
    assert (HEl : E <= Z.log2 ms).
    { apply Z.log2_le_pow2; [lia|]. nia. }
    assert (Hn : Z.max (Z.log2 (Z.pos M) + 1 + E - 53) (3 - 1024 - 53) - E <= 0) by lia.
    destruct (Z.max (Z.log2 (Z.pos M) + 1 + E - 53) (3 - 1024 - 53) - E) eqn:En;
      try lia; cbn [shr shr_m loc_of_shr_record round_nearest_even shr_r shr_s];
      rewrite Zdigits2_log2, En; cbn [shr shr_m];
      (replace (E <=? 1024 - 53) with true by (symmetry; apply Z.leb_le; lia));
      cbn [IntegerPart]; rewrite Z.shiftl_mul_pow2 by lia; exact HM.
  - (* a fractional mantissa: only zero bits are shifted out *)
    rewrite Z.max_l in HM by lia. rewrite Z.max_r in HM by lia.
    rewrite Z.pow_0_r, Z.mul_1_r in HM.
    assert (HlM : Z.log2 (Z.pos M) = - E + Z.log2 ms).
    { rewrite HM. apply Z.log2_mul_pow2; lia. }
    rewrite HlM.
    replace (Z.max (- E + Z.log2 ms + 1 + E - 53) (3 - 1024 - 53) - E)
      with (Z.log2 ms - 52 - E) by lia.
    destruct (Z.log2 ms - 52 - E) as [|k|k] eqn:En.
    + cbn [shr shr_m loc_of_shr_record round_nearest_even shr_r shr_s].
      rewrite Zdigits2_log2, HlM.
      replace (Z.max (- E + Z.log2 ms + 1 + E - 53) (3 - 1024 - 53) - E) with 0 by lia.
      cbn [shr shr_m].
      replace (E <=? 1024 - 53) with true by (symmetry; apply Z.leb_le; lia).
      cbn [IntegerPart].
      rewrite Z.shiftl_div_pow2 by lia. rewrite HM. apply Z.div_mul.
      apply Z.pow_nonzero; lia.
    + (* shifted by [k] bits, leaving 53 of them *)
      assert (Hpos : 0 < ms * 2 ^ (52 - Z.log2 ms)).
      { apply Z.mul_pos_pos; [lia|apply Z.pow_pos_nonneg; lia]. }
      destruct (ms * 2 ^ (52 - Z.log2 ms)) as [|a|a] eqn:Ea; try lia.
      cbn [shr]. rewrite (iter_shr_1 k M a).
      2:{ rewrite HM, <- Ea, <- Z.mul_assoc, <- Z.pow_add_r by lia.
          f_equal. f_equal. lia. }
      cbn [shr_m loc_of_shr_record round_nearest_even shr_r shr_s].
      rewrite Zdigits2_log2.
      assert (Hla : Z.log2 (Z.pos a) = 52).
      { rewrite <- Ea. rewrite Z.log2_mul_pow2 by lia. lia. }
      rewrite Hla.
      replace (Z.max (52 + 1 + (E + Z.pos k) - 53) (3 - 1024 - 53) - (E + Z.pos k))
        with 0 by lia.
      cbn [shr shr_m].
      replace (E + Z.pos k <=? 1024 - 53) with true by (symmetry; apply Z.leb_le; lia).
      cbn [IntegerPart].
      rewrite Z.shiftl_div_pow2 by lia.
      replace (- (E + Z.pos k)) with (52 - Z.log2 ms) by lia. rewrite <- Ea. apply Z.div_mul.
      apply Z.pow_nonzero; lia.
    + cbn [shr shr_m loc_of_shr_record round_nearest_even shr_r shr_s].
      rewrite Zdigits2_log2, HlM.
      replace (Z.max (- E + Z.log2 ms + 1 + E - 53) (3 - 1024 - 53) - E)
        with (Z.neg k) by lia.
      cbn [shr shr_m].
      replace (E <=? 1024 - 53) with true by (symmetry; apply Z.leb_le; lia).
      cbn [IntegerPart].
      rewrite Z.shiftl_div_pow2 by lia. rewrite HM. apply Z.div_mul.
      apply Z.pow_nonzero; lia.
Qed.

(** A number of seconds that is a whole number of milliseconds gives that
    many milliseconds when it is multiplied by 1000. *)
Lemma seconds_are_ms_product (x : Number) (ms : Z) :
  seconds_are_ms x ms -> 0 <= ms < 2 ^ 53 ->
  IntegerPart (Number_mul x (Number_of_Z 1000)) = ms.
Proof.
  intros H Hms.
  assert (Hk : Number_of_Z 1000 = S754_finite false 8796093022208000 (-43))
    by (vm_compute; reflexivity).
  rewrite Hk. destruct x as [s|s| |s m e]; cbn [seconds_are_ms] in H; try contradiction.
  - subst ms. reflexivity.
  - destruct s; [contradiction|].
    unfold Number_mul, SFmul. cbn [xorb].
    assert (Hpos : 0 < ms).
    { assert (0 < Z.pos m * 1000 * 2 ^ Z.max 0 e)
        by (apply Z.mul_pos_pos; [lia|apply Z.pow_pos_nonneg; lia]).
      destruct (Z_lt_le_dec 0 ms) as [Hlt|Hle]; [exact Hlt|].
      assert (ms * 2 ^ Z.max 0 (- e) <= 0)
        by (apply Z.mul_nonpos_nonneg; [lia|apply Z.pow_nonneg; lia]).
      lia. }
    apply binary_round_aux_whole; [lia|].
    rewrite Pos2Z.inj_mul.
    change (Z.pos 8796093022208000) with (1000 * 2 ^ 43).
    destruct (Z_le_gt_dec 43 e) as [He|He].
    + rewrite (Z.max_r 0 (e + -43)), (Z.max_l 0 (- (e + -43))) by lia.
      rewrite (Z.max_r 0 e), (Z.max_l 0 (- e)) in H by lia.
      rewrite Z.pow_0_r, Z.mul_1_r in *. rewrite <- H.
      assert (Hp : 2 ^ e = 2 ^ 43 * 2 ^ (e + -43))
        by (rewrite <- Z.pow_add_r by lia; f_equal; lia).
      rewrite Hp. ring.
    + rewrite (Z.max_l 0 (e + -43)), (Z.max_r 0 (- (e + -43))) by lia.
      rewrite Z.pow_0_r, Z.mul_1_r.
      destruct (Z_le_gt_dec 0 e) as [He0|He0].
      * rewrite (Z.max_r 0 e), (Z.max_l 0 (- e)) in H by lia.
        rewrite Z.pow_0_r, Z.mul_1_r in H. rewrite <- H.
        assert (Hp : 2 ^ 43 = 2 ^ e * 2 ^ (- (e + -43)))
          by (rewrite <- Z.pow_add_r by lia; f_equal; lia).
        rewrite Hp. ring.
      * rewrite (Z.max_l 0 e), (Z.max_r 0 (- e)) in H by lia.
        rewrite Z.pow_0_r, Z.mul_1_r in H.
        assert (Hp : 2 ^ (- (e + -43)) = 2 ^ (- e) * 2 ^ 43)
          by (rewrite <- Z.pow_add_r by lia; f_equal; lia).
        rewrite Hp.
        replace (Z.pos m * (1000 * 2 ^ 43)) with (Z.pos m * 1000 * 2 ^ 43) by ring.
        rewrite H. ring.
Qed.

Lemma ToInt32_in_range (x : Z) : - 2 ^ 31 <= x < 2 ^ 31 -> ToInt32 x = x.
Proof.
  unfold ToInt32. change (2 ^ 32) with 4294967296. change (2 ^ 31) with 2147483648.
  intros H. pose proof (Z.mod_pos_bound x 4294967296 eq_refl) as Hb.
  pose proof (Z.div_mod x 4294967296) as Hd.
  destruct (2147483648 <=? x mod 4294967296) eqn:E;
    [apply Z.leb_le in E|apply Z.leb_gt in E]; lia.
Qed.

(** A delay of at least 2^31 and less than 2^32 milliseconds wraps to a
    negative one. *)
Lemma ToInt32_wraps (x : Z) : 2 ^ 31 <= x < 2 ^ 32 -> ToInt32 x = x - 2 ^ 32.
Proof.
  unfold ToInt32. intros H. rewrite Z.mod_small by lia.
  destruct (2 ^ 31 <=? x) eqn:E; [reflexivity|apply Z.leb_gt in E; lia].
Qed.

(** Within the range of the platform's timers, the timer that
    [_startUntriggerTimer] starts runs for [untrigger_seconds]. *)
Lemma untrigger_delay_in_range (w : World) (tc : TriggersConfig) (ms : Z) :
  triggersConfig w = Some tc ->
  seconds_are_ms (untrigger_seconds tc) ms -> 0 <= ms <= longest_delay ->
  untrigger_delay w = ms.
Proof.
  unfold untrigger_delay, longest_delay. intros Htc Hs Hms. rewrite Htc.
  rewrite (seconds_are_ms_product _ ms Hs) by lia.
  rewrite ToInt32_in_range by lia. lia.
Qed.

(** Beyond it the delay wraps, and the timer runs at once. *)
Lemma untrigger_delay_wraps (w : World) (tc : TriggersConfig) (ms : Z) :
  triggersConfig w = Some tc ->
  seconds_are_ms (untrigger_seconds tc) ms -> longest_delay < ms < 2 ^ 32 ->
  untrigger_delay w = 0.
Proof.
  unfold untrigger_delay, longest_delay. intros Htc Hs Hms. rewrite Htc.
  rewrite (seconds_are_ms_product _ ms Hs) by lia.
  rewrite ToInt32_wraps by lia. lia.
Qed.

Lemma untrigger_delay_nonneg (w : World) : 0 <= untrigger_delay w.
Proof. unfold untrigger_delay. lia. Qed.

(** ** The trigger action *)

Lemma emit_log (e : Effect) (w : World) : log (emit e w) = (now w, e) :: log w.
Proof. reflexivity. Qed.

(** What [_triggerAction] appends to the log, case by case. *)
Lemma _triggerAction_log (ev : CameraEvent) (w : World) :
  log (_triggerAction ev w) =
    if suppressed ev w then (now w, triggerAction_called ev) :: log w
    else
      (now w, update) ::
      (if _hasAllowableInteractionStateForAction w then
         match option_map (fun tc => trigger (actions tc)) (triggersConfig w) with
         | Some trigger_live => [(now w, setViewByParameters "live" (cameraID ev))]
         | Some trigger_default => [(now w, setViewDefault (Some (cameraID ev)))]
         | Some trigger_media =>
             if is_high (fidelity ev)
             then [(now w, setViewByParameters
                             (if truthy (clip ev) then "clip" else "snapshot")
                             (cameraID ev))]
             else []
         | _ => []
         end
       else [])
      ++ (now w, triggerAction_called ev) :: log w.
Proof.
  unfold _triggerAction.
  change (suppressed ev (emit (triggerAction_called ev) w)) with (suppressed ev w).
  change (_hasAllowableInteractionStateForAction (emit (triggerAction_called ev) w))
    with (_hasAllowableInteractionStateForAction w).
  change (triggersConfig (emit (triggerAction_called ev) w)) with (triggersConfig w).
  destruct (suppressed ev w); [reflexivity|].
  destruct (_hasAllowableInteractionStateForAction w); [|reflexivity].
  destruct (option_map _ (triggersConfig w)) as [[]|]; simpl;
    rewrite ?andb_true_r, ?andb_false_r; try reflexivity.
  destruct (is_high (fidelity ev)); reflexivity.
Qed.

(** C3, as stated, fails: with [actions.trigger = 'default'] and a default
    view that is not the live view, a low-fidelity event commands the
    default view. *)
Lemma low_fidelity_default_view_counterexample :
  fidelity low_fidelity_event = low /\
  log (_triggerAction low_fidelity_event card_default_clips) =
    [(0, update); (0, setViewDefault (Some "A"%string));
     (0, triggerAction_called low_fidelity_event)] /\
  is_navigation (setViewDefault (Some "A"%string)) = true /\
  navigates_to_live card_default_clips (setViewDefault (Some "A"%string)) = false.
Proof. repeat split. Qed.

(** C3 (amended): a low-fidelity event that reaches [_triggerAction] issues
    at most one navigation command, and that command is either a change to
    the live view of the event's camera (action 'live') or a change to the
    configured default view for the event's camera (action 'default'); in
    particular it never navigates to a clip or snapshot view through the
    'media' action. *)
Theorem low_fidelity_navigation (ev : CameraEvent) (w : World) :
  fidelity ev = low ->
  exists cmds,
    log (_triggerAction ev w) = cmds ++ log w /\
    (length (filter (fun x => is_navigation (snd x)) cmds) <= 1)%nat /\
    (forall t e, In (t, e) cmds -> is_navigation e = true ->
       e = setViewByParameters "live" (cameraID ev) \/
       e = setViewDefault (Some (cameraID ev))) /\
    (option_map (fun tc => trigger (actions tc)) (triggersConfig w) = Some trigger_media ->
     forall t e, In (t, e) cmds -> is_navigation e = false).
Proof.
  intros Hlow. rewrite _triggerAction_log.
  assert (Hs : suppressed ev w = false) by (unfold suppressed; rewrite Hlow; reflexivity).
  rewrite Hs, Hlow. simpl is_high.
  match goal with
  | |- exists cmds, ?a :: ?b ++ ?c :: ?l = _ /\ _ => exists (a :: b ++ [c])
  end.
  split; [simpl; rewrite <- app_assoc; reflexivity|].
  destruct (_hasAllowableInteractionStateForAction w);
    [destruct (option_map _ (triggersConfig w)) as [[]|]|];
    simpl; (split; [lia|]); split; try discriminate; try intros _; intros t e H;
    repeat (destruct H as [H|H];
            [inversion H; subst; simpl; auto; try discriminate|]);
    contradiction.
Qed.

Lemma low_fidelity_navigation_witness :
  exists cmds,
    log (_triggerAction low_fidelity_event card_default_clips)
      = cmds ++ log card_default_clips /\
    (length (filter (fun x => is_navigation (snd x)) cmds) <= 1)%nat /\
    (forall t e, In (t, e) cmds -> is_navigation e = true ->
       e = setViewByParameters "live" (cameraID low_fidelity_event) \/
       e = setViewDefault (Some (cameraID low_fidelity_event))) /\
    (option_map (fun tc => trigger (actions tc)) (triggersConfig card_default_clips)
       = Some trigger_media ->
     forall t e, In (t, e) cmds -> is_navigation e = false).
Proof. apply (low_fidelity_navigation low_fidelity_event card_default_clips). reflexivity. Defined.

(** C4, as stated, fails: a suppressed execution (high fidelity, no
    snapshot, no clip, action 'media') returns before the refresh. *)
Lemma suppressed_action_no_refresh_counterexample :
  suppressed empty_high_fidelity_event card_media = true /\
  log (_triggerAction empty_high_fidelity_event card_media) =
    [(0, triggerAction_called empty_high_fidelity_event)] /\
  ~ In update (map snd (log (_triggerAction empty_high_fidelity_event card_media))).
Proof.
  repeat split. simpl. intros [H|[]]. discriminate H.
Qed.

(** C4 (amended): an execution of [_triggerAction] that is not suppressed
    requests one UI refresh, after the action selection, whether or not a
    navigation command was issued and also when the interaction-mode gate
    denies the action (then no navigation is issued).  A suppressed
    execution (high-fidelity event with no snapshot and no clip whose
    configured action is not a switch to live) returns at once: it issues
    no navigation and no UI refresh. *)
Theorem refresh_unless_suppressed (ev : CameraEvent) (w : World) :
  if suppressed ev w
  then log (_triggerAction ev w) = (now w, triggerAction_called ev) :: log w
  else
    exists nav,
      log (_triggerAction ev w)
        = (now w, update) :: nav ++ (now w, triggerAction_called ev) :: log w /\
      Forall (fun x => is_navigation (snd x) = true) nav /\
      (length nav <= 1)%nat /\
      (if _hasAllowableInteractionStateForAction w then True else nav = []).
Proof.
  rewrite _triggerAction_log.
  destruct (suppressed ev w); [reflexivity|].
  eexists; split; [reflexivity|].
  destruct (_hasAllowableInteractionStateForAction w);
    [destruct (option_map _ (triggersConfig w)) as [[]|];
     try destruct (is_high (fidelity ev))|];
    simpl; repeat split; auto.
Qed.

(** ** The guards of [handleCameraEvent] *)

(** C5: when the trigger policy is absent, or no camera is selected, or
    the policy filters on the selected camera and the event's camera is
    not one of its dependent cameras, [handleCameraEvent] returns the
    world it was given: the triggered set, the timers, the pending
    timeouts, the condition state and the log of commands are unchanged. *)
Theorem guards_discard_event (ev : CameraEvent) (w : World) :
  getConfig (api w) = None \/
  selectedCameraID w = None \/
  (exists tc selected,
      triggersConfig w = Some tc /\ selectedCameraID w = Some selected /\
      filter_selected_camera tc = true /\
      ~ In (cameraID ev) (getAllDependentCameras (api w) selected)) ->
  handleCameraEvent ev w = w.
Proof.
  unfold handleCameraEvent, triggersConfig.
  intros [H|[H|(tc & selected & Htc & Hsel & Hf & Hin)]].
  - rewrite H. reflexivity.
  - rewrite H. destruct (option_map _ _); reflexivity.
  - unfold triggersConfig in Htc. rewrite Htc, Hsel, Hf.
    assert (Hhas : Set_has (cameraID ev) (getAllDependentCameras (api w) selected) = false).
    { unfold Set_has. apply not_true_is_false. intros Hex.
      apply existsb_exists in Hex. destruct Hex as (x & Hx & Heq).
      apply String.eqb_eq in Heq. subst x. contradiction. }
    rewrite Hhas. reflexivity.
Qed.

Lemma guards_discard_event_witness :
  handleCameraEvent (event "C" ev_new high true false) card_filtering = card_filtering.
Proof.
  apply (guards_discard_event (event "C" ev_new high true false) card_filtering).
  right. right.
  exists (triggers (view (policy trigger_live untrigger_default mode_all "live" true (Number_of_Z 10)))), "A"%string.
  repeat split. simpl. intros [H|[H|[]]]; discriminate H.
Defined.

(** ** Maps *)

Section JSMapFacts.
Context {V : Type}.
Implicit Types (m : list (string * V)) (k : string).

Lemma get_delete_same k m : JSMap.get k (JSMap.delete k m) = None.
Proof.
  induction m as [|[k' v] m IH]; simpl; [reflexivity|].
  destruct (String.eqb k' k) eqn:E; [exact IH|]. simpl. rewrite E. exact IH.
Qed.

Lemma get_delete_other k k' m :
  k' <> k -> JSMap.get k' (JSMap.delete k m) = JSMap.get k' m.
Proof.
  intros Hne. induction m as [|[k0 v] m IH]; simpl; [reflexivity|].
  destruct (String.eqb k0 k) eqn:E.
  - apply String.eqb_eq in E. subst k0.
    destruct (String.eqb k k') eqn:E'; [|exact IH].
    apply String.eqb_eq in E'. congruence.
  - simpl. rewrite IH. reflexivity.
Qed.

Lemma get_set_same k (v : V) m : JSMap.get k (JSMap.set k v m) = Some v.
Proof.
  induction m as [|[k' v'] m IH]; simpl.
  - rewrite String.eqb_refl. reflexivity.
  - destruct (String.eqb k' k) eqn:E; simpl; rewrite E; [reflexivity|exact IH].
Qed.

Lemma get_set_other k k' (v : V) m :
  k' <> k -> JSMap.get k' (JSMap.set k v m) = JSMap.get k' m.
Proof.
  intros Hne. induction m as [|[k0 v0] m IH]; simpl.
  - destruct (String.eqb k k') eqn:E; [|reflexivity].
    apply String.eqb_eq in E. congruence.
  - destruct (String.eqb k0 k) eqn:E; simpl.
    + apply String.eqb_eq in E. subst k0.
      destruct (String.eqb k k') eqn:E'; [|reflexivity].
      apply String.eqb_eq in E'. congruence.
    + rewrite IH. reflexivity.
Qed.

Lemma has_delete_same k m : JSMap.has k (JSMap.delete k m) = false.
Proof. unfold JSMap.has. rewrite get_delete_same. reflexivity. Qed.

Lemma has_set_same k (v : V) m : JSMap.has k (JSMap.set k v m) = true.
Proof. unfold JSMap.has. rewrite get_set_same. reflexivity. Qed.

Lemma get_In k m : JSMap.get k m <> None <-> In k (JSMap.keys m).
Proof.
  induction m as [|[k' v] m IH]; simpl.
  - split; [congruence|tauto].
  - destruct (String.eqb k' k) eqn:E.
    + apply String.eqb_eq in E. split; [auto|discriminate].
    + apply String.eqb_neq in E. rewrite IH. split; [auto|intros [H|H]; congruence].
Qed.

(** Setting a key that is present keeps the keys and their order. *)
Lemma keys_set_present k (v : V) m :
  JSMap.has k m = true -> JSMap.keys (JSMap.set k v m) = JSMap.keys m.
Proof.
  unfold JSMap.has. induction m as [|[k' v'] m IH]; simpl; [discriminate|].
  destruct (String.eqb k' k) eqn:E; simpl; [reflexivity|].
  intros H. rewrite IH; auto.
Qed.

(** Setting a fresh key appends it. *)
Lemma keys_set_fresh k (v : V) m :
  JSMap.has k m = false -> JSMap.keys (JSMap.set k v m) = JSMap.keys m ++ [k].
Proof.
  unfold JSMap.has. induction m as [|[k' v'] m IH]; simpl; [reflexivity|].
  destruct (String.eqb k' k) eqn:E; simpl; [discriminate|].
  intros H. rewrite IH; auto.
Qed.

Lemma set_fresh k (v : V) m :
  JSMap.get k m = None -> JSMap.set k v m = m ++ [(k, v)].
Proof.
  induction m as [|[k' v'] m IH]; simpl; [reflexivity|].
  destruct (String.eqb k' k) eqn:E; [discriminate|].
  intros H. rewrite IH; auto.
Qed.

Lemma In_keys_delete k k' m :
  In k' (JSMap.keys (JSMap.delete k m)) <-> k' <> k /\ In k' (JSMap.keys m).
Proof.
  induction m as [|[k0 v] m IH]; simpl; [tauto|].
  destruct (String.eqb k0 k) eqn:E.
  - apply String.eqb_eq in E. subst k0. rewrite IH.
    split; [tauto|]. intros [Hne [H|H]]; [congruence|tauto].
  - apply String.eqb_neq in E. simpl. rewrite IH.
    split; [intros [H|H]; [subst; tauto|tauto]|tauto].
Qed.

Lemma NoDup_keys_delete k m :
  NoDup (JSMap.keys m) -> NoDup (JSMap.keys (JSMap.delete k m)).
Proof.
  induction m as [|[k0 v] m IH]; simpl; [auto|].
  intros H. inversion H as [|? ? Hnin Hnd]; subst.
  destruct (String.eqb k0 k); [auto|].
  simpl. constructor; [|auto].
  intros Hin. apply In_keys_delete in Hin. tauto.
Qed.

Lemma NoDup_keys_set k (v : V) m :
  NoDup (JSMap.keys m) -> NoDup (JSMap.keys (JSMap.set k v m)).
Proof.
  intros H. destruct (JSMap.has k m) eqn:E.
  - rewrite keys_set_present; auto.
  - rewrite keys_set_fresh by auto.
    apply NoDup_app; [exact H|repeat constructor; simpl; tauto|].
    intros x Hx [Hk|[]]. subst x. apply get_In in Hx.
    unfold JSMap.has in E. destruct (JSMap.get k m); congruence.
Qed.
End JSMapFacts.

(** ** Untriggering *)

Lemma _deleteTimer_spec (c : string) (w : World) :
  _deleteTimer c w =
    with_triggeredCameraTimers (JSMap.delete c (_triggeredCameraTimers (manager w)))
      (with_timeouts (without_timer_of c w) w).
Proof.
  unfold _deleteTimer, without_timer_of, stop_timer_of, Timer_stop.
  destruct (JSMap.get c (_triggeredCameraTimers (manager w))) as [[[h|]]|];
    destruct w; reflexivity.
Qed.

Lemma _setConditionStateIfNecessary_log (w : World) :
  log (_setConditionStateIfNecessary w) =
    (if isEqual (triggeredState w) (conditionState_triggered (api w)) then []
     else [(now w, setState (triggeredState w))]) ++ log w.
Proof.
  unfold _setConditionStateIfNecessary.
  destruct (isEqual _ _); reflexivity.
Qed.

Lemma _setConditionStateIfNecessary_manager (w : World) :
  manager (_setConditionStateIfNecessary w) = manager w.
Proof. unfold _setConditionStateIfNecessary. destruct (negb _); reflexivity. Qed.

Lemma _setConditionStateIfNecessary_timeouts (w : World) :
  timeouts (_setConditionStateIfNecessary w) = timeouts w /\
  nextHandle (_setConditionStateIfNecessary w) = nextHandle w /\
  now (_setConditionStateIfNecessary w) = now w.
Proof. unfold _setConditionStateIfNecessary. destruct (negb _); repeat split. Qed.

(** After [_setConditionStateIfNecessary] the store holds a value equal
    (as a set) to the current triggered state. *)
Lemma _setConditionStateIfNecessary_store (w : World) :
  isEqual (triggeredState w)
    (conditionState_triggered (api (_setConditionStateIfNecessary w))) = true.
Proof.
  unfold _setConditionStateIfNecessary.
  destruct (isEqual (triggeredState w) (conditionState_triggered (api w))) eqn:E;
    simpl; [exact E|].
  destruct (triggeredState w) as [ids|]; simpl; [|reflexivity].
  rewrite Nat.eqb_refl. simpl. apply forallb_forall. intros k Hk.
  apply existsb_exists. exists k. split; [exact Hk|apply String.eqb_refl].
Qed.

Lemma untrigger_navigates_iff (w : World) :
  untrigger_navigates w = true <->
  (exists tc, triggersConfig w = Some tc /\
              untrigger (actions tc) = untrigger_default) /\
  _hasAllowableInteractionStateForAction w = true.
Proof.
  unfold untrigger_navigates.
  destruct (triggersConfig w) as [tc|]; simpl.
  - destruct (untrigger (actions tc)) eqn:E.
    + split; [intros H; split; [exists tc; auto|exact H]|tauto].
    + split; [discriminate|]. intros [(tc' & Htc & Hu) _].
      inversion Htc; subst. congruence.
  - split; [discriminate|]. intros [(tc' & Htc & _) _]. discriminate.
Qed.

Lemma _untriggerAction_spec (c : string) (w : World) :
  _untriggerAction c w =
    emit update
      (_setConditionStateIfNecessary
         (untriggered c
            (if untrigger_navigates w then emit (setViewDefault None) w else w))).
Proof.
  unfold _untriggerAction, untrigger_navigates. rewrite _deleteTimer_spec.
  destruct (option_map _ (triggersConfig w)) as [[]|]; reflexivity.
Qed.

Lemma _untriggerAction_cameras (c : string) (w : World) :
  _triggeredCameras (manager (_untriggerAction c w))
    = JSMap.delete c (_triggeredCameras (manager w)).
Proof.
  rewrite _untriggerAction_spec. simpl.
  rewrite _setConditionStateIfNecessary_manager. simpl.
  destruct (untrigger_navigates w); reflexivity.
Qed.

Lemma _untriggerAction_timeouts (c : string) (w : World) :
  timeouts (_untriggerAction c w) = without_timer_of c w.
Proof.
  rewrite _untriggerAction_spec. simpl.
  rewrite (proj1 (_setConditionStateIfNecessary_timeouts _)). simpl.
  destruct (untrigger_navigates w); reflexivity.
Qed.

Lemma _untriggerAction_store (c : string) (w : World) :
  isEqual (triggeredState (_untriggerAction c w))
          (conditionState_triggered (api (_untriggerAction c w))) = true.
Proof.
  rewrite _untriggerAction_spec.
  set (v := untriggered c (if untrigger_navigates w
                           then emit (setViewDefault None) w else w)).
  assert (Hts : triggeredState (emit update (_setConditionStateIfNecessary v))
                = triggeredState v).
  { unfold triggeredState. simpl. rewrite _setConditionStateIfNecessary_manager.
    reflexivity. }
  rewrite Hts. simpl api. apply _setConditionStateIfNecessary_store.
Qed.

(** On sets, [isEqual] holds exactly of values with the same cameras. *)
Lemma isEqual_same_set (a b : option (list string)) :
  is_set a -> is_set b -> (isEqual a b = true <-> same_set a b).
Proof.
  destruct a as [x|], b as [y|]; simpl; intros Hx Hy;
    try (split; [discriminate|contradiction]); [|tauto].
  rewrite andb_true_iff, Nat.eqb_eq, forallb_forall. split.
  - intros [Hlen Hall].
    assert (Hincl : incl x y).
    { intros k Hk. apply Hall in Hk. apply existsb_exists in Hk.
      destruct Hk as (z & Hz & Heq). apply String.eqb_eq in Heq. subst z. exact Hz. }
    intros k. split; [apply Hincl|].
    apply (NoDup_length_incl Hx); [lia|exact Hincl].
  - intros H. split.
    + apply Nat.le_antisymm; apply NoDup_incl_length; auto;
        intros k Hk; apply H; exact Hk.
    + intros k Hk. apply existsb_exists.
      exists k. split; [apply H; exact Hk|apply String.eqb_refl].
Qed.

(** C6: when the untrigger timer of a camera elapses, the default view is
    commanded (with no camera argument) exactly when [actions.untrigger]
    is 'default' and the interaction-mode gate permits; and in every case
    the camera leaves the triggered set, its timer entry is removed and its
    pending timeout cancelled, and a UI refresh is requested last.  The
    cameras that remain triggered ([undefined] when none remains) are
    published, and stored, exactly when the store does not already hold
    the same cameras; otherwise nothing is published and the store is left
    as it is. *)
Theorem untrigger_timer_elapsed (c : string) (w : World) :
  let w' := _untriggerAction c w in
  let remaining := JSMap.keys (JSMap.delete c (_triggeredCameras (manager w))) in
  let value := match remaining with [] => None | _ :: _ => Some remaining end in
  let old := conditionState_triggered (api w) in
  (* navigation, publication, refresh *)
  (exists published,
     log w' = (now w, update) :: published
                ++ (if untrigger_navigates w then [(now w, setViewDefault None)] else [])
                ++ log w /\
     ((published = [] /\ conditionState_triggered (api w') = old) \/
      (published = [(now w, setState value)] /\
       conditionState_triggered (api w') = value)) /\
     (NoDup (JSMap.keys (_triggeredCameras (manager w))) -> is_set old ->
      (published = [] <-> same_set value old))) /\
  (untrigger_navigates w = true <->
     (exists tc, triggersConfig w = Some tc /\
                 untrigger (actions tc) = untrigger_default) /\
     _hasAllowableInteractionStateForAction w = true) /\
  (* the triggered set *)
  _triggeredCameras (manager w') = JSMap.delete c (_triggeredCameras (manager w)) /\
  JSMap.has c (_triggeredCameras (manager w')) = false /\
  (* the timer *)
  _triggeredCameraTimers (manager w')
    = JSMap.delete c (_triggeredCameraTimers (manager w)) /\
  JSMap.has c (_triggeredCameraTimers (manager w')) = false /\
  timeouts w' = without_timer_of c w /\
  (* the condition state *)
  (NoDup (JSMap.keys (_triggeredCameras (manager w))) -> is_set old ->
   same_set value (conditionState_triggered (api w'))).
Proof.
  intros w' remaining value old. subst w'. rewrite _untriggerAction_spec.
  set (w1 := if untrigger_navigates w then emit (setViewDefault None) w else w).
  assert (Hm : manager w1 = manager w) by (subst w1; destruct (untrigger_navigates w); reflexivity).
  assert (Ha : api w1 = api w) by (subst w1; destruct (untrigger_navigates w); reflexivity).
  assert (Hn : now w1 = now w) by (subst w1; destruct (untrigger_navigates w); reflexivity).
  assert (Hq : timeouts w1 = timeouts w) by (subst w1; destruct (untrigger_navigates w); reflexivity).
  assert (Hl : log w1 = (if untrigger_navigates w then [(now w, setViewDefault None)] else [])
                          ++ log w)
    by (subst w1; destruct (untrigger_navigates w); reflexivity).
  assert (Hval : triggeredState (untriggered c w1) = value).
  { unfold triggeredState, value, remaining. simpl. rewrite Hm.
    destruct (JSMap.keys _); reflexivity. }
  assert (Hold : conditionState_triggered (api (untriggered c w1)) = old).
  { unfold old. rewrite <- Ha. reflexivity. }
  assert (Hset : NoDup (JSMap.keys (_triggeredCameras (manager w))) -> is_set value).
  { intros Hnd. unfold value, remaining.
    pose proof (NoDup_keys_delete c _ Hnd) as Hnd'.
    destruct (JSMap.keys _); [exact I|exact Hnd']. }
  assert (Hstore : conditionState_triggered
                     (api (emit update (_setConditionStateIfNecessary (untriggered c w1))))
                   = if isEqual value old then old else value).
  { simpl api. unfold _setConditionStateIfNecessary. rewrite Hval, Hold.
    destruct (isEqual value old); [exact Hold|reflexivity]. }
  repeat apply conj.
  - exists (if isEqual value old then [] else [(now w, setState value)]).
    split; [|split].
    + rewrite emit_log, _setConditionStateIfNecessary_log. simpl log at 2.
      destruct (_setConditionStateIfNecessary_timeouts (untriggered c w1)) as (_ & _ & Hnow).
      rewrite Hnow, Hval, Hold.
      change (now (untriggered c w1)) with (now w1).
      change (log (untriggered c w1)) with (log w1).
      rewrite Hn, Hl. reflexivity.
    + rewrite Hstore. destruct (isEqual value old); [left|right]; split; reflexivity.
    + intros Hnd Ho. rewrite <- (isEqual_same_set value old (Hset Hnd) Ho).
      destruct (isEqual value old); split; try reflexivity; discriminate.
  - apply untrigger_navigates_iff.
  - apply untrigger_navigates_iff.
  - simpl. rewrite _setConditionStateIfNecessary_manager. simpl. rewrite Hm. reflexivity.
  - simpl. rewrite _setConditionStateIfNecessary_manager. simpl. apply has_delete_same.
  - simpl. rewrite _setConditionStateIfNecessary_manager. simpl. rewrite Hm. reflexivity.
  - simpl. rewrite _setConditionStateIfNecessary_manager. simpl. apply has_delete_same.
  - simpl.
    destruct (_setConditionStateIfNecessary_timeouts (untriggered c w1)) as (Hq' & _).
    rewrite Hq'. simpl. unfold without_timer_of. simpl. rewrite Hm, Hq. reflexivity.
  - intros Hnd Ho. rewrite Hstore.
    destruct (isEqual value old) eqn:E.
    + apply (isEqual_same_set value old (Hset Hnd) Ho). exact E.
    + destruct value; simpl; [intros k|]; tauto.
Qed.


(** ** What the throttled action leaves alone *)

Lemma published_app (l1 l2 : list (Z * Effect)) :
  published (l1 ++ l2) = published l1 ++ published l2.
Proof.
  induction l1 as [|[t []] l1 IH]; simpl; rewrite ?IH; reflexivity.
Qed.

Lemma executions_app (l1 l2 : list (Z * Effect)) :
  executions (l1 ++ l2) = executions l1 ++ executions l2.
Proof.
  induction l1 as [|[t []] l1 IH]; simpl; rewrite ?IH; reflexivity.
Qed.

(** [_triggerAction] changes nothing but the log. *)
Lemma _triggerAction_frame (ev : CameraEvent) (w : World) :
  _triggerAction ev w = with_log (log (_triggerAction ev w)) w.
Proof.
  unfold _triggerAction.
  destruct (suppressed ev _); [destruct w; reflexivity|].
  destruct (_hasAllowableInteractionStateForAction _); [|destruct w; reflexivity].
  destruct (is_trigger _ trigger_live); [destruct w; reflexivity|].
  destruct (is_trigger _ trigger_default); [destruct w; reflexivity|].
  destruct (_ && _); destruct w; reflexivity.
Qed.

Lemma _triggerAction_published (ev : CameraEvent) (w : World) :
  published (log (_triggerAction ev w)) = published (log w).
Proof.
  rewrite _triggerAction_log.
  destruct (suppressed ev w); [reflexivity|].
  destruct (_hasAllowableInteractionStateForAction w);
    [destruct (option_map _ (triggersConfig w)) as [[]|];
     try destruct (is_high (fidelity ev))|]; reflexivity.
Qed.

Lemma same_tracking_refl (w : World) : same_tracking w w.
Proof. constructor; reflexivity. Qed.

Lemma same_tracking_trans (w1 w2 w3 : World) :
  same_tracking w1 w2 -> same_tracking w2 w3 -> same_tracking w1 w3.
Proof.
  intros [] []. constructor; congruence.
Qed.

Lemma same_tracking_with_throttle (d : Debounced) (w : World) :
  same_tracking w (with_throttle d w).
Proof. constructor; reflexivity. Qed.

Lemma same_tracking_clearTimeout (h : nat) (w : World) :
  same_tracking w (clearTimeout h w).
Proof. constructor; reflexivity. Qed.

Lemma same_tracking_startTimer (ms : Z) (w : World) :
  same_tracking w (startTimer ms w).
Proof. constructor; reflexivity. Qed.

Lemma same_tracking__triggerAction (ev : CameraEvent) (w : World) :
  same_tracking w (_triggerAction ev w).
Proof.
  constructor; try (rewrite _triggerAction_frame; reflexivity).
  apply _triggerAction_published.
Qed.

Lemma same_tracking_invokeFunc (time : Z) (w : World) :
  same_tracking w (invokeFunc time w).
Proof.
  unfold invokeFunc. destruct (lastArgs (throttled w)).
  - eapply same_tracking_trans; [|apply same_tracking__triggerAction].
    apply same_tracking_with_throttle.
  - apply same_tracking_with_throttle.
Qed.

Lemma same_tracking_leadingEdge (time : Z) (w : World) :
  same_tracking w (leadingEdge time w).
Proof.
  unfold leadingEdge.
  match goal with |- context [if ?b then _ else _] => destruct b end.
  - eapply same_tracking_trans; [|apply same_tracking_invokeFunc].
    eapply same_tracking_trans; [|apply same_tracking_startTimer].
    apply same_tracking_with_throttle.
  - eapply same_tracking_trans; [|apply same_tracking_startTimer].
    apply same_tracking_with_throttle.
Qed.

Lemma same_tracking_trailingEdge (time : Z) (w : World) :
  same_tracking w (trailingEdge time w).
Proof.
  unfold trailingEdge.
  destruct (lastArgs _); [destruct (trailing _)|].
  - eapply same_tracking_trans; [|apply same_tracking_invokeFunc].
    apply same_tracking_with_throttle.
  - constructor; reflexivity.
  - constructor; reflexivity.
Qed.

Lemma same_tracking_timerExpired (w : World) : same_tracking w (timerExpired w).
Proof.
  unfold timerExpired. destruct (shouldInvoke _ _).
  - apply same_tracking_trailingEdge.
  - apply same_tracking_startTimer.
Qed.

Lemma same_tracking_debounced (ev : CameraEvent) (w : World) :
  same_tracking w (debounced ev w).
Proof.
  unfold debounced.
  destruct (shouldInvoke _ _); destruct (timerId _).
  - destruct (maxing _); [|constructor; reflexivity].
    eapply same_tracking_trans; [|apply same_tracking_invokeFunc].
    constructor; reflexivity.
  - eapply same_tracking_trans; [|apply same_tracking_leadingEdge].
    constructor; reflexivity.
  - constructor; reflexivity.
  - constructor; reflexivity.
Qed.

(** ** The three paths of [handleCameraEvent] *)

Lemma handleCameraEvent_discard (ev : CameraEvent) (w : World) :
  passes_guards ev w = false -> handleCameraEvent ev w = w.
Proof.
  unfold passes_guards, handleCameraEvent.
  destruct (triggersConfig w) as [tc|]; [|reflexivity].
  destruct (selectedCameraID w) as [selected|]; [|reflexivity].
  intros H. apply negb_false_iff in H. rewrite H. reflexivity.
Qed.

Lemma handleCameraEvent_end (ev : CameraEvent) (w : World) :
  passes_guards ev w = true -> is_end (type ev) = true ->
  handleCameraEvent ev w = _startUntriggerTimer (cameraID ev) w.
Proof.
  unfold passes_guards, handleCameraEvent.
  destruct (triggersConfig w) as [tc|]; [|discriminate].
  destruct (selectedCameraID w) as [selected|]; [|discriminate].
  intros H He. apply negb_true_iff in H. rewrite H, He. reflexivity.
Qed.

Lemma handleCameraEvent_start (ev : CameraEvent) (w : World) :
  passes_guards ev w = true -> is_end (type ev) = false ->
  handleCameraEvent ev w
    = debounced ev (_setConditionStateIfNecessary (triggered_at_now ev w)).
Proof.
  unfold passes_guards, handleCameraEvent.
  destruct (triggersConfig w) as [tc|]; [|discriminate].
  destruct (selectedCameraID w) as [selected|]; [|discriminate].
  intros H He. apply negb_true_iff in H. rewrite H, He. reflexivity.
Qed.

Lemma _startUntriggerTimer_spec (c : string) (w : World) :
  _startUntriggerTimer c w =
    {| manager :=
         {| _triggeredCameras := _triggeredCameras (manager w);
            _triggeredCameraTimers :=
              JSMap.set c {| _timer := Some (nextHandle w) |}
                        (JSMap.delete c (_triggeredCameraTimers (manager w)));
            _throttledTriggerAction := _throttledTriggerAction (manager w) |};
       api := api w; now := now w;
       timeouts := without_timer_of c w ++ [untrigger_timeout c (untrigger_delay w) w];
       nextHandle := S (nextHandle w); log := log w |}.
Proof.
  unfold _startUntriggerTimer. rewrite _deleteTimer_spec. reflexivity.
Qed.

Lemma _startUntriggerTimer_frame (c : string) (w : World) :
  log (_startUntriggerTimer c w) = log w /\
  api (_startUntriggerTimer c w) = api w /\
  now (_startUntriggerTimer c w) = now w /\
  _triggeredCameras (manager (_startUntriggerTimer c w)) = _triggeredCameras (manager w) /\
  _throttledTriggerAction (manager (_startUntriggerTimer c w))
    = _throttledTriggerAction (manager w).
Proof. rewrite _startUntriggerTimer_spec. repeat split. Qed.

(** ** Publication of the condition state *)

Lemma isEqual_refl (s : option (list string)) : isEqual s s = true.
Proof.
  destruct s as [x|]; simpl; [|reflexivity].
  rewrite Nat.eqb_refl. simpl. apply forallb_forall. intros k Hk.
  apply existsb_exists. exists k. split; [exact Hk|apply String.eqb_refl].
Qed.

(** [isEqual] decides equality of sets. *)
Lemma isEqual_sets (x y : list string) :
  NoDup x -> NoDup y -> (forall k, In k x <-> In k y) ->
  isEqual (Some x) (Some y) = true.
Proof.
  intros Hx Hy H. simpl. apply andb_true_iff. split.
  - apply Nat.eqb_eq. apply Nat.le_antisymm; apply NoDup_incl_length; auto;
      intros k Hk; apply H; exact Hk.
  - apply forallb_forall. intros k Hk. apply existsb_exists.
    exists k. split; [apply H; exact Hk|apply String.eqb_refl].
Qed.

Lemma set_not_empty {V : Type} (k : string) (v : V) (m : list (string * V)) :
  JSMap.keys (JSMap.set k v m) <> [].
Proof.
  destruct m as [|[k' v'] m]; simpl; [discriminate|].
  destruct (String.eqb k' k); discriminate.
Qed.

Lemma triggeredState_triggered_at_now (ev : CameraEvent) (w : World) :
  triggeredState (triggered_at_now ev w)
    = Some (JSMap.keys (JSMap.set (cameraID ev) (now w) (_triggeredCameras (manager w)))).
Proof.
  unfold triggeredState, triggered_at_now. simpl.
  pose proof (set_not_empty (cameraID ev) (now w) (_triggeredCameras (manager w))) as H.
  destruct (JSMap.keys _); [congruence|reflexivity].
Qed.

(** What a call of [handleCameraEvent] writes to the store. *)
Lemma handleCameraEvent_published (ev : CameraEvent) (w : World) :
  published (log (handleCameraEvent ev w)) =
    (if passes_guards ev w && negb (is_end (type ev))
        && negb (isEqual (triggeredState (triggered_at_now ev w))
                         (conditionState_triggered (api w)))
     then [triggeredState (triggered_at_now ev w)] else [])
    ++ published (log w).
Proof.
  destruct (passes_guards ev w) eqn:Hg.
  - destruct (is_end (type ev)) eqn:He.
    + rewrite handleCameraEvent_end by assumption.
      destruct (_startUntriggerTimer_frame (cameraID ev) w) as (Hl & _).
      rewrite Hl. reflexivity.
    + rewrite handleCameraEvent_start by assumption.
      rewrite (same_published _ _ (same_tracking_debounced ev _)).
      rewrite _setConditionStateIfNecessary_log, published_app.
      change (api (triggered_at_now ev w)) with (api w).
      simpl. destruct (isEqual _ _); reflexivity.
  - rewrite handleCameraEvent_discard by assumption. reflexivity.
Qed.

(** A start event that passes the guards leaves the camera triggered and
    the store equal to the triggered state. *)
Lemma handleCameraEvent_start_state (ev : CameraEvent) (w : World) :
  passes_guards ev w = true -> is_end (type ev) = false ->
  JSMap.has (cameraID ev) (_triggeredCameras (manager (handleCameraEvent ev w))) = true /\
  isEqual (triggeredState (handleCameraEvent ev w))
          (conditionState_triggered (api (handleCameraEvent ev w))) = true.
Proof.
  intros Hg He. rewrite handleCameraEvent_start by assumption.
  pose proof (same_tracking_debounced ev
                (_setConditionStateIfNecessary (triggered_at_now ev w))) as [Hc _ Ha _ _].
  unfold triggeredState. rewrite Hc, Ha, _setConditionStateIfNecessary_manager.
  split.
  - simpl. apply has_set_same.
  - apply _setConditionStateIfNecessary_store.
Qed.

(** C7: a call of [handleCameraEvent] writes to the condition-state store
    at most once; it writes nothing when the new triggered set is equal,
    as a set, to the published one; and a start event for a camera that is
    already triggered, arriving while the store holds the triggered state,
    writes nothing: the second of two start events for one camera never
    writes. *)
Theorem condition_state_written_at_most_once (ev : CameraEvent) (w : World) :
  (writes (log (handleCameraEvent ev w)) <= S (writes (log w)))%nat /\
  (forall s,
      conditionState_triggered (api w) = Some s ->
      NoDup s -> NoDup (JSMap.keys (_triggeredCameras (manager w))) ->
      (forall k, In k s <->
                 In k (JSMap.keys (JSMap.set (cameraID ev) (now w)
                                             (_triggeredCameras (manager w))))) ->
      published (log (handleCameraEvent ev w)) = published (log w)) /\
  (JSMap.has (cameraID ev) (_triggeredCameras (manager w)) = true ->
   isEqual (triggeredState w) (conditionState_triggered (api w)) = true ->
   published (log (handleCameraEvent ev w)) = published (log w)) /\
  (forall ev' w',
      passes_guards ev w = true -> is_end (type ev) = false ->
      cameraID ev' = cameraID ev ->
      manager w' = manager (handleCameraEvent ev w) ->
      conditionState_triggered (api w')
        = conditionState_triggered (api (handleCameraEvent ev w)) ->
      published (log (handleCameraEvent ev' w')) = published (log w')).
Proof.
  assert (Hrepeat : forall e v,
             JSMap.has (cameraID e) (_triggeredCameras (manager v)) = true ->
             isEqual (triggeredState v) (conditionState_triggered (api v)) = true ->
             published (log (handleCameraEvent e v)) = published (log v)).
  { intros e v Hhas Heq. rewrite handleCameraEvent_published.
    assert (Hts : triggeredState (triggered_at_now e v) = triggeredState v).
    { unfold triggeredState, triggered_at_now. simpl.
      rewrite keys_set_present by assumption. reflexivity. }
    rewrite Hts, Heq, andb_false_r. reflexivity. }
  repeat apply conj.
  - unfold writes. rewrite handleCameraEvent_published, length_app.
    destruct (_ && _); simpl; lia.
  - intros s Hs Hnd Hndk Hset. rewrite handleCameraEvent_published.
    rewrite triggeredState_triggered_at_now, Hs.
    rewrite isEqual_sets, andb_false_r; auto.
    + apply NoDup_keys_set. exact Hndk.
    + intros k. symmetry. apply Hset.
  - apply Hrepeat.
  - intros ev' w' Hg He Hc Hm Hst.
    destruct (handleCameraEvent_start_state ev w Hg He) as [Hhas Heq].
    apply Hrepeat.
    + rewrite Hc, Hm. exact Hhas.
    + unfold triggeredState. rewrite Hm, Hst. exact Heq.
Qed.

(** ** The most recently triggered camera *)

Lemma sorts_before_iff (x y : Decorated) :
  sorts_before x y <->
  criteria y < criteria x \/ (criteria y = criteria x /\ (index x <= index y)%nat).
Proof.
  unfold sorts_before, compareMultiple_desc, compareAscending.
  destruct (criteria x >? criteria y) eqn:E1; simpl.
  - apply Z.gtb_lt in E1. split; [left; lia|lia].
  - destruct (criteria x <? criteria y) eqn:E2; simpl.
    + apply Z.ltb_lt in E2. split; lia.
    + apply Z.ltb_ge in E2. rewrite Z.gtb_ltb in E1. apply Z.ltb_ge in E1.
      split; [intros H; right; lia|intros [H|[H1 H2]]; lia].
Qed.

Lemma sorts_before_refl (x : Decorated) : sorts_before x x.
Proof. apply sorts_before_iff. right. split; [reflexivity|apply Nat.le_refl]. Qed.

Lemma sorts_before_trans (x y z : Decorated) :
  sorts_before x y -> sorts_before y z -> sorts_before x z.
Proof. rewrite !sorts_before_iff. lia. Qed.

Lemma sorts_before_total (x y : Decorated) : sorts_before x y \/ sorts_before y x.
Proof. rewrite !sorts_before_iff. lia. Qed.

Lemma insert_sorted_In (x y : Decorated) (l : list Decorated) :
  In y (insert_sorted x l) <-> y = x \/ In y l.
Proof.
  induction l as [|h l IH]; simpl.
  - split; [intros [H|[]]; auto|intros [H|[]]; auto].
  - destruct (compareMultiple_desc x h <=? 0); simpl; [split; intuition auto|].
    rewrite IH. split; intuition auto.
Qed.

Lemma insert_sorted_head_first (x : Decorated) (l : list Decorated) :
  head_first l -> head_first (insert_sorted x l).
Proof.
  destruct l as [|h l]; simpl.
  - intros _ y [H|[]]. subst. apply sorts_before_refl.
  - intros Hh. destruct (compareMultiple_desc x h <=? 0) eqn:E.
    + apply Z.leb_le in E. intros y [H|H].
      * subst. apply sorts_before_refl.
      * apply (sorts_before_trans x h y); [exact E|apply Hh; exact H].
    + apply Z.leb_gt in E. intros y [H|H].
      * subst. apply sorts_before_refl.
      * apply insert_sorted_In in H. destruct H as [H|H].
        -- subst. destruct (sorts_before_total h x) as [H|H]; [exact H|].
           unfold sorts_before in H. lia.
        -- apply Hh. right. exact H.
Qed.

Lemma baseSortBy_In (y : Decorated) (l : list Decorated) :
  In y (baseSortBy l) <-> In y l.
Proof.
  induction l as [|x l IH]; simpl; [tauto|].
  rewrite insert_sorted_In, IH. split; intuition auto.
Qed.

Lemma baseSortBy_head_first (l : list Decorated) : head_first (baseSortBy l).
Proof.
  induction l as [|x l IH]; simpl; [exact I|].
  apply insert_sorted_head_first. exact IH.
Qed.

Lemma decorate_In (d : Decorated) (i : nat) (entries : list (string * Z)) :
  In d (decorate i entries) <->
  exists j e, nth_error entries j = Some e /\
              d = {| criteria := snd e; index := i + j; value := e |}.
Proof.
  revert i. induction entries as [|e0 entries IH]; intros i; simpl.
  - split; [tauto|]. intros (j & e & H & _). destruct j; discriminate.
  - rewrite IH. split.
    + intros [H|(j & e & Hj & Hd)].
      * exists 0%nat, e0. rewrite Nat.add_0_r. auto.
      * exists (S j), e. rewrite Nat.add_succ_r. auto.
    + intros ([|j] & e & Hj & Hd); simpl in Hj.
      * inversion Hj; subst. rewrite Nat.add_0_r. auto.
      * right. exists j, e. rewrite Nat.add_succ_r in Hd. auto.
Qed.

(** C9: [getMostRecentlyTriggeredCameraID] is a function of the triggered
    map alone.  It returns null exactly when the map is empty; otherwise
    it returns the camera of an entry whose timestamp is maximal, and among
    the entries with that timestamp the one that comes first in the map. *)
Theorem most_recently_triggered (w : World) :
  (getMostRecentlyTriggeredCameraID w = None <-> _triggeredCameras (manager w) = []) /\
  (forall c, getMostRecentlyTriggeredCameraID w = Some c ->
     exists i ts,
       nth_error (_triggeredCameras (manager w)) i = Some (c, ts) /\
       forall j c' ts',
         nth_error (_triggeredCameras (manager w)) j = Some (c', ts') ->
         ts' < ts \/ (ts' = ts /\ (i <= j)%nat)).
Proof.
  unfold getMostRecentlyTriggeredCameraID, orderBy_desc.
  set (cams := _triggeredCameras (manager w)).
  pose proof (baseSortBy_head_first (decorate 0 cams)) as Hhead.
  pose proof (fun y => baseSortBy_In y (decorate 0 cams)) as Hin.
  destruct (baseSortBy (decorate 0 cams)) as [|h sorted]; simpl.
  - split.
    + split; [intros _|reflexivity]. destruct cams as [|e cams']; [reflexivity|].
      exfalso. apply (proj2 (Hin {| criteria := snd e; index := 0; value := e |})).
      simpl. left. reflexivity.
    + intros c H. discriminate H.
  - assert (Hh : In h (decorate 0 cams)) by (apply Hin; left; reflexivity).
    apply decorate_In in Hh. destruct Hh as (i & [c0 ts] & Hi & Hd).
    split.
    + split; [discriminate|]. intros H. rewrite H in Hi. destruct i; discriminate.
    + intros c Hc. inversion Hc; subst c. exists i, ts. subst h. simpl. split; [exact Hi|].
      intros j c' ts' Hj.
      assert (Hy : In {| criteria := ts'; index := j; value := (c', ts') |}
                      (decorate 0 cams)).
      { apply decorate_In. exists j, (c', ts'). auto. }
      apply Hin in Hy. apply Hhead in Hy. apply sorts_before_iff in Hy.
      simpl in Hy. exact Hy.
Qed.

(** ** What is published *)

Lemma triggeredState_nonempty_or_absent (w : World) :
  nonempty_or_absent (triggeredState w).
Proof.
  unfold triggeredState.
  destruct (JSMap.keys (_triggeredCameras (manager w))); exact I.
Qed.

Lemma _untriggerAction_published (c : string) (w : World) :
  exists new,
    published (log (_untriggerAction c w)) = new ++ published (log w) /\
    Forall nonempty_or_absent new.
Proof.
  rewrite _untriggerAction_spec, emit_log. simpl published.
  rewrite _setConditionStateIfNecessary_log, published_app.
  set (w1 := if untrigger_navigates w then emit (setViewDefault None) w else w).
  assert (Hl : published (log (untriggered c w1)) = published (log w)).
  { change (log (untriggered c w1)) with (log w1). subst w1.
    destruct (untrigger_navigates w); reflexivity. }
  rewrite Hl. eexists. split; [reflexivity|].
  destruct (isEqual _ _); simpl; repeat constructor.
  apply triggeredState_nonempty_or_absent.
Qed.

Lemma fire_published (t : Timeout) (w : World) :
  exists new,
    published (log (fire t w)) = new ++ published (log w) /\
    Forall nonempty_or_absent new.
Proof.
  unfold fire, run_callback.
  set (w1 := clearTimeout (handle t) (with_now (Z.max (now w) (due t)) w)).
  change (log w) with (log w1).
  destruct (callback t) as [c|].
  - apply _untriggerAction_published.
  - exists []. split; [|constructor].
    apply (same_published _ _ (same_tracking_timerExpired w1)).
Qed.

Lemma step_published (w w' : World) :
  step w w' ->
  exists new,
    published (log w') = new ++ published (log w) /\
    Forall nonempty_or_absent new.
Proof.
  intros [ev v|t v Hin|t v Ht|a v].
  - rewrite handleCameraEvent_published. eexists. split; [reflexivity|].
    destruct (_ && _); repeat constructor. apply triggeredState_nonempty_or_absent.
  - apply fire_published.
  - exists []. split; [reflexivity|constructor].
  - exists []. split; [reflexivity|constructor].
Qed.

Lemma isEqual_absent (s : option (list string)) : isEqual None s = true -> s = None.
Proof. destruct s; [discriminate|reflexivity]. Qed.

(** C10: every value the manager writes to the condition-state store is a
    non-empty set or [undefined]; and when [_untriggerAction] removes the
    last triggered camera, the store holds [undefined] afterwards. *)
Theorem no_empty_set_published (w : World) :
  reachable w ->
  Forall nonempty_or_absent (published (log w)) /\
  (forall c,
      JSMap.delete c (_triggeredCameras (manager w)) = [] ->
      conditionState_triggered (api (_untriggerAction c w)) = None).
Proof.
  intros Hr. split.
  - induction Hr as [w (_ & _ & Hl)|w w' Hr IH Hs].
    + rewrite Hl. constructor.
    + destruct (step_published w w' Hs) as (new & Heq & Hnew).
      rewrite Heq. apply Forall_app. split; assumption.
  - intros c Hc.
    pose proof (_untriggerAction_cameras c w) as Hcams.
    pose proof (_untriggerAction_store c w) as Heq.
    apply isEqual_absent. rewrite <- Heq. f_equal.
    unfold triggeredState. rewrite Hcams, Hc. reflexivity.
Qed.

(** ** One untrigger timer per camera *)

Lemma handles_distinct_filter (keep : Timeout -> bool) (q : list Timeout) :
  NoDup (map handle q) -> NoDup (map handle (filter keep q)).
Proof.
  induction q as [|t q IH]; simpl; intros Hnd; [exact Hnd|].
  apply NoDup_cons_iff in Hnd. destruct Hnd as [Hfresh Hnd].
  destruct (keep t); simpl; [|exact (IH Hnd)].
  apply NoDup_cons; [|exact (IH Hnd)].
  rewrite in_map_iff. intros (t' & Heq & Hin).
  apply filter_In in Hin. apply Hfresh.
  rewrite in_map_iff. exists t'. tauto.
Qed.

Lemma consistent_filter (p : Timeout -> bool) timers q next :
  consistent timers q next -> consistent timers (filter p q) next.
Proof.
  intros (Hnd & Hlt & Hmap & Hent). repeat apply conj.
  - apply handles_distinct_filter. exact Hnd.
  - intros t Ht. apply filter_In in Ht. apply Hlt. tauto.
  - intros t c Ht. apply filter_In in Ht. apply Hmap. tauto.
  - intros c h Hg. destruct (Hent c h Hg) as [Hh Hcb]. split; [exact Hh|].
    intros t Ht. apply filter_In in Ht. apply Hcb. tauto.
Qed.

(** The timeouts of the throttle never stand in the way. *)
Lemma consistent_throttle_timeout timers q next (d : Z) :
  consistent timers q next ->
  consistent timers
    (q ++ [{| handle := next; due := d; callback := cb_timerExpired |}]) (S next).
Proof.
  intros (Hnd & Hlt & Hmap & Hent). repeat apply conj.
  - rewrite map_app. apply NoDup_app; [exact Hnd|repeat constructor; simpl; tauto|].
    intros h Hh [Heq|[]]. simpl in Heq. subst h.
    apply in_map_iff in Hh. destruct Hh as (t & Ht & Hin).
    apply Hlt in Hin. lia.
  - intros t Ht. apply in_app_iff in Ht. destruct Ht as [Ht|[Ht|[]]].
    + apply Hlt in Ht. lia.
    + subst t. simpl. lia.
  - intros t c Ht Hcb. apply in_app_iff in Ht. destruct Ht as [Ht|[Ht|[]]].
    + apply Hmap; assumption.
    + subst t. discriminate Hcb.
  - intros c h Hg. destruct (Hent c h Hg) as [Hh Hcb]. split; [lia|].
    intros t Ht Heq. apply in_app_iff in Ht. destruct Ht as [Ht|[Ht|[]]].
    + apply Hcb; assumption.
    + subst t. simpl in Heq. lia.
Qed.

Lemma without_timer_of_eq (c : string) (w : World) :
  without_timer_of c w = stop_timer_of c (_triggeredCameraTimers (manager w)) (timeouts w).
Proof. reflexivity. Qed.

(** Stopping the stored timer leaves no untrigger timeout of the camera. *)
Lemma stop_timer_of_none (c : string) timers q next :
  consistent timers q next ->
  forall t, In t (stop_timer_of c timers q) -> callback t <> cb_untrigger c.
Proof.
  intros (_ & _ & Hmap & _) t Ht Hcb. unfold stop_timer_of in Ht.
  destruct (JSMap.get c timers) as [[[h|]]|] eqn:E.
  - apply filter_In in Ht. destruct Ht as [Ht Hne].
    rewrite (Hmap t c Ht Hcb) in E. inversion E; subst h.
    rewrite Nat.eqb_refl in Hne. discriminate.
  - rewrite (Hmap t c Ht Hcb) in E. discriminate.
  - rewrite (Hmap t c Ht Hcb) in E. discriminate.
Qed.

Lemma stop_timer_of_incl (c : string) timers q :
  forall t, In t (stop_timer_of c timers q) -> In t q.
Proof.
  intros t. unfold stop_timer_of.
  destruct (JSMap.get c timers) as [[[h|]]|]; auto.
  intros H. apply filter_In in H. tauto.
Qed.

(** Stopping the timer of one camera leaves the untrigger timeouts of the
    other cameras pending. *)
Lemma stop_timer_of_others (c c' : string) timers q next :
  consistent timers q next -> c' <> c ->
  filter (is_untrigger_of c') (stop_timer_of c timers q)
    = filter (is_untrigger_of c') q.
Proof.
  intros (_ & _ & _ & Hent) Hne. unfold stop_timer_of.
  destruct (JSMap.get c timers) as [[[h|]]|] eqn:E; try reflexivity.
  destruct (Hent c h E) as [_ Hcb]. clear E Hent.
  induction q as [|t q IH]; simpl; [reflexivity|].
  assert (IH' : filter (is_untrigger_of c')
                  (filter (fun t => negb (Nat.eqb (handle t) h)) q)
                = filter (is_untrigger_of c') q).
  { apply IH. intros t' Ht'. apply Hcb. right. exact Ht'. }
  destruct (Nat.eqb (handle t) h) eqn:Eh; simpl.
  - apply Nat.eqb_eq in Eh. pose proof (Hcb t (or_introl eq_refl) Eh) as Ht.
    unfold is_untrigger_of at 2. rewrite Ht.
    destruct (String.eqb c c') eqn:Ec; [apply String.eqb_eq in Ec; congruence|].
    exact IH'.
  - rewrite IH'. reflexivity.
Qed.

Lemma consistent_stop_timer_of (c : string) timers q next :
  consistent timers q next -> consistent timers (stop_timer_of c timers q) next.
Proof.
  intros H. unfold stop_timer_of.
  destruct (JSMap.get c timers) as [[[h|]]|]; auto.
  apply consistent_filter. exact H.
Qed.

Lemma consistent_delete (c : string) timers q next :
  consistent timers q next ->
  consistent (JSMap.delete c timers) (stop_timer_of c timers q) next.
Proof.
  intros H. pose proof (stop_timer_of_none c timers q next H) as Hnone.
  destruct (consistent_stop_timer_of c timers q next H) as (Hnd & Hlt & Hmap & Hent).
  repeat apply conj; [exact Hnd|exact Hlt| |].
  - intros t c' Ht Hcb.
    assert (Hne : c' <> c) by (intros ->; exact (Hnone t Ht Hcb)).
    rewrite get_delete_other by exact Hne. apply Hmap; assumption.
  - intros c' h Hg.
    assert (Hne : c' <> c).
    { intros ->. rewrite get_delete_same in Hg. discriminate. }
    rewrite get_delete_other in Hg by exact Hne. apply Hent. exact Hg.
Qed.

Lemma consistent_untrigger_timeout (c : string) timers q next (d : Z) :
  consistent timers q next ->
  (forall t, In t q -> callback t <> cb_untrigger c) ->
  consistent (JSMap.set c {| _timer := Some next |} timers)
    (q ++ [{| handle := next; due := d; callback := cb_untrigger c |}]) (S next).
Proof.
  intros (Hnd & Hlt & Hmap & Hent) Hnone. repeat apply conj.
  - rewrite map_app. apply NoDup_app; [exact Hnd|repeat constructor; simpl; tauto|].
    intros h Hh [Heq|[]]. simpl in Heq. subst h.
    apply in_map_iff in Hh. destruct Hh as (t & Ht & Hin).
    apply Hlt in Hin. lia.
  - intros t Ht. apply in_app_iff in Ht. destruct Ht as [Ht|[Ht|[]]].
    + apply Hlt in Ht. lia.
    + subst t. simpl. lia.
  - intros t c' Ht Hcb. apply in_app_iff in Ht. destruct Ht as [Ht|[Ht|[]]].
    + assert (Hne : c' <> c) by (intros ->; exact (Hnone t Ht Hcb)).
      rewrite get_set_other by exact Hne. apply Hmap; assumption.
    + subst t. simpl in Hcb. inversion Hcb; subst c'. simpl.
      apply get_set_same.
  - intros c' h Hg. destruct (String.eqb c' c) eqn:E.
    + apply String.eqb_eq in E. subst c'. rewrite get_set_same in Hg.
      inversion Hg; subst h. split; [lia|].
      intros t Ht Heq. apply in_app_iff in Ht. destruct Ht as [Ht|[Ht|[]]].
      * apply Hlt in Ht. lia.
      * subst t. reflexivity.
    + apply String.eqb_neq in E. rewrite get_set_other in Hg by exact E.
      destruct (Hent c' h Hg) as [Hh Hcb]. split; [lia|].
      intros t Ht Heq. apply in_app_iff in Ht. destruct Ht as [Ht|[Ht|[]]].
      * apply Hcb; assumption.
      * subst t. simpl in Heq. lia.
Qed.

Lemma timers_consistent_same (w w' : World) :
  _triggeredCameraTimers (manager w') = _triggeredCameraTimers (manager w) ->
  timeouts w' = timeouts w -> nextHandle w' = nextHandle w ->
  timers_consistent w -> timers_consistent w'.
Proof. unfold timers_consistent. intros -> -> ->. auto. Qed.

Lemma timers_consistent_clearTimeout (h : nat) (w : World) :
  timers_consistent w -> timers_consistent (clearTimeout h w).
Proof. apply consistent_filter. Qed.

Lemma timers_consistent_startTimer (ms : Z) (w : World) :
  timers_consistent w -> timers_consistent (startTimer ms w).
Proof. apply consistent_throttle_timeout. Qed.

Lemma timers_consistent__triggerAction (ev : CameraEvent) (w : World) :
  timers_consistent w -> timers_consistent (_triggerAction ev w).
Proof. rewrite _triggerAction_frame. auto. Qed.

Lemma timers_consistent_invokeFunc (time : Z) (w : World) :
  timers_consistent w -> timers_consistent (invokeFunc time w).
Proof.
  unfold invokeFunc. intros H.
  destruct (lastArgs (throttled w)); [apply timers_consistent__triggerAction|]; exact H.
Qed.

Lemma timers_consistent_leadingEdge (time : Z) (w : World) :
  timers_consistent w -> timers_consistent (leadingEdge time w).
Proof.
  unfold leadingEdge. intros H.
  match goal with |- context [if ?b then _ else _] => destruct b end;
    [apply timers_consistent_invokeFunc|]; apply timers_consistent_startTimer; exact H.
Qed.

Lemma timers_consistent_trailingEdge (time : Z) (w : World) :
  timers_consistent w -> timers_consistent (trailingEdge time w).
Proof.
  unfold trailingEdge. intros H.
  destruct (lastArgs _); [destruct (trailing _)|];
    [apply timers_consistent_invokeFunc| |]; exact H.
Qed.

Lemma timers_consistent_timerExpired (w : World) :
  timers_consistent w -> timers_consistent (timerExpired w).
Proof.
  unfold timerExpired. intros H. destruct (shouldInvoke _ _).
  - apply timers_consistent_trailingEdge. exact H.
  - apply timers_consistent_startTimer. exact H.
Qed.

Lemma timers_consistent_debounced (ev : CameraEvent) (w : World) :
  timers_consistent w -> timers_consistent (debounced ev w).
Proof.
  unfold debounced. intros H.
  destruct (shouldInvoke _ _); destruct (timerId _) as [h|].
  - destruct (maxing _); [|exact H].
    apply timers_consistent_invokeFunc, timers_consistent_startTimer,
      timers_consistent_clearTimeout. exact H.
  - apply timers_consistent_leadingEdge. exact H.
  - exact H.
  - apply timers_consistent_startTimer. exact H.
Qed.

Lemma timers_consistent__setConditionStateIfNecessary (w : World) :
  timers_consistent w -> timers_consistent (_setConditionStateIfNecessary w).
Proof.
  unfold _setConditionStateIfNecessary. destruct (negb _); auto.
Qed.

Lemma timers_consistent__startUntriggerTimer (c : string) (w : World) :
  timers_consistent w -> timers_consistent (_startUntriggerTimer c w).
Proof.
  intros H. rewrite _startUntriggerTimer_spec. unfold timers_consistent. simpl.
  rewrite without_timer_of_eq. apply consistent_untrigger_timeout.
  - apply consistent_delete. exact H.
  - apply (stop_timer_of_none c _ _ _ H).
Qed.

Lemma timers_consistent__untriggerAction (c : string) (w : World) :
  timers_consistent w -> timers_consistent (_untriggerAction c w).
Proof.
  intros H. rewrite _untriggerAction_spec.
  apply (timers_consistent_same
           (_setConditionStateIfNecessary
              (untriggered c (if untrigger_navigates w
                              then emit (setViewDefault None) w else w))));
    try reflexivity.
  apply timers_consistent__setConditionStateIfNecessary.
  assert (E : forall v, _triggeredCameraTimers (manager v) = _triggeredCameraTimers (manager w) ->
                        timeouts v = timeouts w -> nextHandle v = nextHandle w ->
                        timers_consistent (untriggered c v)).
  { intros v Hm Hq Hn. unfold timers_consistent, untriggered. simpl.
    rewrite without_timer_of_eq, Hm, Hq, Hn. apply consistent_delete. exact H. }
  destruct (untrigger_navigates w); apply E; reflexivity.
Qed.

Lemma timers_consistent_handleCameraEvent (ev : CameraEvent) (w : World) :
  timers_consistent w -> timers_consistent (handleCameraEvent ev w).
Proof.
  intros H. destruct (passes_guards ev w) eqn:Hg.
  - destruct (is_end (type ev)) eqn:He.
    + rewrite handleCameraEvent_end by assumption.
      apply timers_consistent__startUntriggerTimer. exact H.
    + rewrite handleCameraEvent_start by assumption.
      apply timers_consistent_debounced,
        timers_consistent__setConditionStateIfNecessary. exact H.
  - rewrite handleCameraEvent_discard by assumption. exact H.
Qed.

Lemma timers_consistent_fire (t : Timeout) (w : World) :
  timers_consistent w -> timers_consistent (fire t w).
Proof.
  intros H. unfold fire, run_callback.
  assert (H1 : timers_consistent
                 (clearTimeout (handle t) (with_now (Z.max (now w) (due t)) w))).
  { apply timers_consistent_clearTimeout. exact H. }
  destruct (callback t).
  - apply timers_consistent__untriggerAction. exact H1.
  - apply timers_consistent_timerExpired. exact H1.
Qed.

Lemma reachable_timers_consistent (w : World) :
  reachable w -> timers_consistent w.
Proof.
  induction 1 as [w (Hm & Hq & _)|w w' _ IH Hs].
  - unfold timers_consistent, consistent. rewrite Hm, Hq. simpl.
    repeat apply conj; [constructor|intros t []|intros t c []|intros c h Hg; discriminate Hg].
  - destruct Hs.
    + apply timers_consistent_handleCameraEvent. exact IH.
    + apply timers_consistent_fire. exact IH.
    + exact IH.
    + exact IH.
Qed.

(** The keys of both maps stay distinct, as in a JavaScript [Map]. *)
Lemma reachable_keys_distinct (w : World) :
  reachable w ->
  NoDup (JSMap.keys (_triggeredCameras (manager w))) /\
  NoDup (JSMap.keys (_triggeredCameraTimers (manager w))).
Proof.
  induction 1 as [w (Hm & _)|w w' _ [IH1 IH2] Hs].
  - rewrite Hm. simpl. split; constructor.
  - destruct Hs as [ev w|t w _|t w _|a w]; try (split; assumption).
    + destruct (passes_guards ev w) eqn:Hg.
      * destruct (is_end (type ev)) eqn:He.
        -- rewrite handleCameraEvent_end, _startUntriggerTimer_spec by assumption.
           simpl. split; [exact IH1|].
           apply NoDup_keys_set, NoDup_keys_delete. exact IH2.
        -- rewrite handleCameraEvent_start by assumption.
           destruct (same_tracking_debounced ev
                       (_setConditionStateIfNecessary (triggered_at_now ev w)))
             as [Hc Ht _ _ _].
           rewrite Hc, Ht, _setConditionStateIfNecessary_manager. simpl.
           split; [apply NoDup_keys_set; exact IH1|exact IH2].
      * rewrite handleCameraEvent_discard by assumption. split; assumption.
    + unfold fire, run_callback. destruct (callback t) as [c|].
      * rewrite _untriggerAction_spec. simpl.
        rewrite _setConditionStateIfNecessary_manager. simpl.
        assert (E : manager (if untrigger_navigates
                                  (clearTimeout (handle t)
                                     (with_now (Z.max (now w) (due t)) w))
                             then emit (setViewDefault None)
                                    (clearTimeout (handle t)
                                       (with_now (Z.max (now w) (due t)) w))
                             else clearTimeout (handle t)
                                    (with_now (Z.max (now w) (due t)) w))
                    = manager w)
          by (destruct (untrigger_navigates _); reflexivity).
        rewrite E. split; apply NoDup_keys_delete; assumption.
      * destruct (same_tracking_timerExpired
                    (clearTimeout (handle t) (with_now (Z.max (now w) (due t)) w)))
          as [Hc Ht _ _ _].
        rewrite Hc, Ht. split; assumption.
Qed.

Lemma is_untrigger_of_iff (c : string) (t : Timeout) :
  is_untrigger_of c t = true <-> callback t = cb_untrigger c.
Proof.
  unfold is_untrigger_of. destruct (callback t) as [c'|].
  - rewrite String.eqb_eq. split; [intros ->; reflexivity|congruence].
  - split; discriminate.
Qed.

Lemma consistent_at_most_one (c : string) timers q next :
  consistent timers q next ->
  (length (filter (is_untrigger_of c) q) <= 1)%nat.
Proof.
  intros (Hnd & _ & Hmap & _).
  pose proof (handles_distinct_filter (is_untrigger_of c) q Hnd) as Hnd'.
  assert (Hall : forall t, In t (filter (is_untrigger_of c) q) ->
                           JSMap.get c timers = Some {| _timer := Some (handle t) |}).
  { intros t Ht. apply filter_In in Ht. destruct Ht as [Ht Hc].
    apply is_untrigger_of_iff in Hc. apply Hmap; assumption. }
  destruct (filter (is_untrigger_of c) q) as [|a [|b l]]; simpl; try lia.
  exfalso.
  pose proof (Hall a (or_introl eq_refl)) as Ha.
  pose proof (Hall b (or_intror (or_introl eq_refl))) as Hb.
  rewrite Ha in Hb. inversion Hb as [Hab].
  simpl in Hnd'. inversion Hnd' as [|? ? Hnin _]; subst.
  apply Hnin. left. symmetry. exact Hab.
Qed.

Lemma filter_none {A : Type} (p : A -> bool) (l : list A) :
  (forall x, In x l -> p x = false) -> filter p l = [].
Proof.
  induction l as [|x l IH]; simpl; [reflexivity|].
  intros H. rewrite (H x (or_introl eq_refl)). apply IH.
  intros y Hy. apply H. right. exact Hy.
Qed.

(** C8: in every reachable state a camera has at most one pending
    untrigger timeout.  An end event that passes the guards removes the
    camera's timer entry and its pending timeout and installs a new entry
    (last in the map) with a fresh timeout, which is not due before now
    and, when [untrigger_seconds] is a whole number of milliseconds within
    the range of the platform's timers, is due exactly that long after
    now; the triggered cameras, the condition state and the log are
    untouched. *)
Theorem one_timer_per_camera (w : World) :
  reachable w ->
  (forall c, (length (active_timers c w) <= 1)%nat) /\
  (forall ev,
      passes_guards ev w = true -> is_end (type ev) = true ->
      let c := cameraID ev in
      let w' := handleCameraEvent ev w in
      exists fresh,
        handle fresh = nextHandle w /\
        callback fresh = cb_untrigger c /\
        now w <= due fresh /\
        (forall tc ms,
            triggersConfig w = Some tc ->
            seconds_are_ms (untrigger_seconds tc) ms ->
            0 <= ms <= longest_delay ->
            due fresh = now w + ms) /\
        _triggeredCameraTimers (manager w')
          = JSMap.delete c (_triggeredCameraTimers (manager w))
              ++ [(c, {| _timer := Some (nextHandle w) |})] /\
        timeouts w' = without_timer_of c w ++ [fresh] /\
        active_timers c w' = [fresh] /\
        ~ In fresh (timeouts w) /\
        (forall c', c' <> c -> active_timers c' w' = active_timers c' w) /\
        _triggeredCameras (manager w') = _triggeredCameras (manager w) /\
        api w' = api w /\
        log w' = log w).
Proof.
  intros Hr. pose proof (reachable_timers_consistent w Hr) as Hc. split.
  - intros c. apply (consistent_at_most_one c _ _ _ Hc).
  - intros ev Hg He c w'. subst w'.
    exists (untrigger_timeout c (untrigger_delay w) w).
    rewrite handleCameraEvent_end, _startUntriggerTimer_spec by assumption.
    fold c. simpl. repeat apply conj; try reflexivity.
    + pose proof (untrigger_delay_nonneg w). lia.
    + intros tc ms Htc Hs Hms.
      rewrite (untrigger_delay_in_range w tc ms Htc Hs Hms). reflexivity.
    + apply set_fresh. apply get_delete_same.
    + unfold active_timers. simpl. rewrite filter_app. simpl.
      unfold is_untrigger_of at 2. simpl. rewrite String.eqb_refl.
      rewrite filter_none; [reflexivity|].
      intros t Ht. apply not_true_is_false. intros Hu.
      apply is_untrigger_of_iff in Hu.
      exact (stop_timer_of_none c _ _ _ Hc t Ht Hu).
    + intros Hin. destruct Hc as (_ & Hlt & _).
      apply Hlt in Hin. simpl in Hin. lia.
    + intros c' Hne. unfold active_timers. simpl. rewrite filter_app. simpl.
      unfold is_untrigger_of at 2. simpl.
      destruct (String.eqb c c') eqn:E;
        [apply String.eqb_eq in E; congruence|].
      rewrite app_nil_r, without_timer_of_eq.
      apply (stop_timer_of_others c c' _ _ _ Hc Hne).
Qed.

(** ** The timeout of the throttle *)

Lemma throttle_ok_filter (p : Timeout -> bool) d q next :
  throttle_ok d q next -> throttle_ok d (filter p q) next.
Proof.
  intros (Hs & Hq & Hid). split; [exact Hs|split].
  - intros t Ht. apply filter_In in Ht. apply Hq. tauto.
  - intros h H. split; [apply (Hid h H)|].
    intros t Ht. apply filter_In in Ht. apply (Hid h H). tauto.
Qed.

Lemma throttle_ok_stop_timer_of (c : string) timers d q next :
  throttle_ok d q next -> throttle_ok d (stop_timer_of c timers q) next.
Proof.
  intros H. unfold stop_timer_of.
  destruct (JSMap.get c timers) as [[[h|]]|]; auto.
  apply throttle_ok_filter. exact H.
Qed.

Lemma throttle_ok_untrigger_timeout (c : string) d q next (due_at : Z) :
  throttle_ok d q next ->
  throttle_ok d (q ++ [{| handle := next; due := due_at; callback := cb_untrigger c |}])
              (S next).
Proof.
  intros (Hs & Hq & Hid). split; [exact Hs|split].
  - intros t Ht Hcb. apply in_app_iff in Ht. destruct Ht as [Ht|[Ht|[]]].
    + apply Hq; assumption.
    + subst t. discriminate Hcb.
  - intros h H. destruct (Hid h H) as [Hlt Hcb]. split; [lia|].
    intros t Ht Heq.
    apply in_app_iff in Ht. destruct Ht as [Ht|[Ht|[]]].
    + apply Hcb; assumption.
    + subst t. simpl in Heq. lia.
Qed.

(** Once the timeout named by [timerId] is cleared, none is pending. *)
Lemma throttle_ok_cleared d q next (h : nat) :
  throttle_ok d q next -> timerId d = Some h ->
  quiet (filter (fun t => negb (Nat.eqb (handle t) h)) q).
Proof.
  intros (_ & Hq & _) Hid t Ht Hcb. apply filter_In in Ht. destruct Ht as [Ht Hne].
  rewrite (Hq t Ht Hcb) in Hid. inversion Hid; subst h.
  rewrite Nat.eqb_refl in Hne. discriminate.
Qed.

Lemma throttle_ok_idle d q next :
  throttle_ok d q next -> timerId d = None -> quiet q.
Proof.
  intros (_ & Hq & _) Hid t Ht Hcb. rewrite (Hq t Ht Hcb) in Hid. discriminate.
Qed.

(** Starting the timeout of the throttle when none is pending. *)
Lemma throttle_consistent_startTimer (ms : Z) (w : World) :
  throttle_settings (throttled w) -> quiet (timeouts w) ->
  (forall t, In t (timeouts w) -> (handle t < nextHandle w)%nat) ->
  throttle_consistent (startTimer ms w).
Proof.
  intros Hs Hq Hlt. unfold throttle_consistent, throttle_ok. simpl.
  split; [exact Hs|split].
  - intros t Ht Hcb. apply in_app_iff in Ht. destruct Ht as [Ht|[Ht|[]]].
    + exfalso. exact (Hq t Ht Hcb).
    + subst t. reflexivity.
  - intros h H. inversion H; subst h. split; [lia|].
    intros t Ht Heq.
    apply in_app_iff in Ht. destruct Ht as [Ht|[Ht|[]]].
    + apply Hlt in Ht. lia.
    + subst t. reflexivity.
Qed.

Lemma throttle_consistent_invokeFunc (time : Z) (w : World) :
  throttle_consistent w -> throttle_consistent (invokeFunc time w).
Proof.
  intros H. unfold invokeFunc.
  destruct (lastArgs (throttled w)); [rewrite _triggerAction_frame|]; exact H.
Qed.

Lemma throttle_consistent_trailingEdge (time : Z) (w : World) :
  throttle_settings (throttled w) -> quiet (timeouts w) ->
  throttle_consistent (trailingEdge time w).
Proof.
  intros Hs Hq.
  assert (H : forall v, throttle_settings (throttled v) -> timerId (throttled v) = None ->
                        timeouts v = timeouts w -> throttle_consistent v).
  { intros v Hv Hid Hqv. unfold throttle_consistent, throttle_ok. rewrite Hid, Hqv.
    split; [exact Hv|split; [|discriminate]].
    intros t Ht Hcb. exfalso. exact (Hq t Ht Hcb). }
  unfold trailingEdge.
  destruct (lastArgs _); [destruct (trailing _)|];
    [apply throttle_consistent_invokeFunc| |]; apply H; auto.
Qed.

Lemma throttle_consistent_timerExpired (w : World) :
  throttle_settings (throttled w) -> quiet (timeouts w) ->
  (forall t, In t (timeouts w) -> (handle t < nextHandle w)%nat) ->
  throttle_consistent (timerExpired w).
Proof.
  intros Hs Hq Hlt. unfold timerExpired. destruct (shouldInvoke _ _).
  - apply throttle_consistent_trailingEdge; assumption.
  - apply throttle_consistent_startTimer; assumption.
Qed.

Lemma throttle_consistent_leadingEdge (time : Z) (w : World) :
  throttle_settings (throttled w) -> quiet (timeouts w) ->
  (forall t, In t (timeouts w) -> (handle t < nextHandle w)%nat) ->
  throttle_consistent (leadingEdge time w).
Proof.
  intros Hs Hq Hlt. unfold leadingEdge.
  match goal with |- context [if ?b then _ else _] => destruct b end;
    [apply throttle_consistent_invokeFunc|];
    apply throttle_consistent_startTimer; assumption.
Qed.

Lemma throttle_consistent_debounced (ev : CameraEvent) (w : World) :
  timers_consistent w -> throttle_consistent w ->
  throttle_consistent (debounced ev w).
Proof.
  intros (_ & Hlt & _) H. pose proof H as (Hs & Hq & Hid).
  unfold debounced.
  destruct (shouldInvoke _ _); destruct (timerId (throttled _)) as [h|] eqn:E;
    simpl in E.
  - destruct (maxing _); [|exact H].
    apply throttle_consistent_invokeFunc, throttle_consistent_startTimer.
    + exact Hs.
    + apply (throttle_ok_cleared _ _ _ h H E).
    + intros t Ht. apply filter_In in Ht. apply Hlt. tauto.
  - apply throttle_consistent_leadingEdge; [exact Hs| |exact Hlt].
    apply (throttle_ok_idle _ _ _ H E).
  - exact H.
  - apply throttle_consistent_startTimer; [exact Hs| |exact Hlt].
    apply (throttle_ok_idle _ _ _ H E).
Qed.

Lemma throttle_consistent__setConditionStateIfNecessary (w : World) :
  throttle_consistent w -> throttle_consistent (_setConditionStateIfNecessary w).
Proof.
  unfold _setConditionStateIfNecessary. destruct (negb _); auto.
Qed.

Lemma throttle_consistent__startUntriggerTimer (c : string) (w : World) :
  throttle_consistent w -> throttle_consistent (_startUntriggerTimer c w).
Proof.
  intros H. rewrite _startUntriggerTimer_spec.
  unfold throttle_consistent, throttled. simpl.
  rewrite without_timer_of_eq.
  apply throttle_ok_untrigger_timeout, throttle_ok_stop_timer_of. exact H.
Qed.

Lemma throttle_consistent__untriggerAction (c : string) (w : World) :
  throttle_consistent w -> throttle_consistent (_untriggerAction c w).
Proof.
  intros H. rewrite _untriggerAction_spec.
  unfold throttle_consistent, throttled. simpl.
  rewrite _setConditionStateIfNecessary_manager.
  destruct (_setConditionStateIfNecessary_timeouts
              (untriggered c (if untrigger_navigates w
                              then emit (setViewDefault None) w else w)))
    as (Hq & Hn & _).
  rewrite Hq, Hn. unfold untriggered. simpl. rewrite without_timer_of_eq.
  assert (E : forall v : World,
             manager v = manager w -> timeouts v = timeouts w ->
             nextHandle v = nextHandle w ->
             throttle_ok (_throttledTriggerAction (manager v))
               (stop_timer_of c
                  (_triggeredCameraTimers
                     (manager (with_triggeredCameras
                                 (JSMap.delete c (_triggeredCameras (manager v))) v)))
                  (timeouts (with_triggeredCameras
                               (JSMap.delete c (_triggeredCameras (manager v))) v)))
               (nextHandle v)).
  { intros v Hm Hqv Hnv. simpl. rewrite Hm, Hqv, Hnv.
    apply throttle_ok_stop_timer_of. exact H. }
  destruct (untrigger_navigates w); apply E; reflexivity.
Qed.

Lemma throttle_consistent_handleCameraEvent (ev : CameraEvent) (w : World) :
  timers_consistent w -> throttle_consistent w ->
  throttle_consistent (handleCameraEvent ev w).
Proof.
  intros Hc H. destruct (passes_guards ev w) eqn:Hg.
  - destruct (is_end (type ev)) eqn:He.
    + rewrite handleCameraEvent_end by assumption.
      apply throttle_consistent__startUntriggerTimer. exact H.
    + rewrite handleCameraEvent_start by assumption.
      apply throttle_consistent_debounced.
      * apply timers_consistent__setConditionStateIfNecessary. exact Hc.
      * apply throttle_consistent__setConditionStateIfNecessary. exact H.
  - rewrite handleCameraEvent_discard by assumption. exact H.
Qed.

Lemma throttle_consistent_fire (t : Timeout) (w : World) :
  In t (timeouts w) -> timers_consistent w -> throttle_consistent w ->
  throttle_consistent (fire t w).
Proof.
  intros Hin Hc H. unfold fire, run_callback.
  set (w1 := clearTimeout (handle t) (with_now (Z.max (now w) (due t)) w)).
  assert (H1 : throttle_consistent w1) by (apply throttle_ok_filter; exact H).
  destruct (callback t) as [c|] eqn:Hcb.
  - apply throttle_consistent__untriggerAction. exact H1.
  - destruct H as (Hs & Hq & Hid). destruct Hc as (_ & Hlt & _).
    apply throttle_consistent_timerExpired.
    + exact Hs.
    + apply (throttle_ok_cleared (throttled w) (timeouts w) (nextHandle w) (handle t)).
      * repeat split; try apply Hs; try apply Hq; apply Hid; assumption.
      * apply Hq; assumption.
    + intros t' Ht'. apply filter_In in Ht'. apply Hlt. tauto.
Qed.

Lemma reachable_throttle_consistent (w : World) :
  reachable w -> throttle_consistent w.
Proof.
  induction 1 as [w (Hm & Hq & _)|w w' Hr IH Hs].
  - unfold throttle_consistent, throttle_ok, throttled. rewrite Hm, Hq. simpl.
    split; [repeat split|split; [intros t []|discriminate]].
  - pose proof (reachable_timers_consistent w Hr) as Hc.
    destruct Hs.
    + apply throttle_consistent_handleCameraEvent; assumption.
    + apply throttle_consistent_fire; assumption.
    + exact IH.
    + exact IH.
Qed.

(** ** A start event and the pending untrigger timers *)

Lemma invokeFunc_timeouts (time : Z) (w : World) :
  timeouts (invokeFunc time w) = timeouts w /\
  nextHandle (invokeFunc time w) = nextHandle w.
Proof.
  unfold invokeFunc. destruct (lastArgs (throttled w));
    [rewrite _triggerAction_frame|]; split; reflexivity.
Qed.

Lemma filter_filter_handle (p : Timeout -> bool) (h : nat) (q : list Timeout) :
  (forall t, In t q -> handle t = h -> p t = false) ->
  filter p (filter (fun t => negb (Nat.eqb (handle t) h)) q) = filter p q.
Proof.
  induction q as [|t q IH]; simpl; [reflexivity|].
  intros H.
  assert (IH' : filter p (filter (fun t => negb (Nat.eqb (handle t) h)) q) = filter p q)
    by (apply IH; intros t' Ht'; apply H; right; exact Ht').
  destruct (Nat.eqb (handle t) h) eqn:E; simpl.
  - apply Nat.eqb_eq in E. rewrite (H t (or_introl eq_refl) E). exact IH'.
  - rewrite IH'. reflexivity.
Qed.

(** The throttled call adds and removes timeouts of the throttle only. *)
Lemma debounced_keeps (p : Timeout -> bool) (ev : CameraEvent) (w : World) :
  (forall t, callback t = cb_timerExpired -> p t = false) ->
  throttle_consistent w ->
  filter p (timeouts (debounced ev w)) = filter p (timeouts w).
Proof.
  intros Hp (Hs & Hq & Hid). unfold debounced.
  destruct (shouldInvoke _ _); destruct (timerId (throttled _)) as [h|] eqn:E;
    simpl in E.
  - destruct (maxing _); [|reflexivity].
    rewrite (proj1 (invokeFunc_timeouts _ _)). simpl.
    rewrite filter_app. simpl. rewrite Hp by reflexivity. rewrite app_nil_r.
    apply filter_filter_handle. intros t Ht Hh. apply Hp.
    apply (Hid h eq_refl); assumption.
  - unfold leadingEdge.
    match goal with |- context [if ?b then _ else _] => destruct b end;
      [rewrite (proj1 (invokeFunc_timeouts _ _))|]; simpl;
      rewrite filter_app; simpl; rewrite Hp by reflexivity; apply app_nil_r.
  - reflexivity.
  - simpl. rewrite filter_app. simpl. rewrite Hp by reflexivity. apply app_nil_r.
Qed.

Lemma handleCameraEvent_start_timers (ev : CameraEvent) (w : World) :
  passes_guards ev w = true -> is_end (type ev) = false ->
  _triggeredCameraTimers (manager (handleCameraEvent ev w))
    = _triggeredCameraTimers (manager w) /\
  _triggeredCameras (manager (handleCameraEvent ev w))
    = JSMap.set (cameraID ev) (now w) (_triggeredCameras (manager w)).
Proof.
  intros Hg He. rewrite handleCameraEvent_start by assumption.
  destruct (same_tracking_debounced ev
              (_setConditionStateIfNecessary (triggered_at_now ev w)))
    as [Hc Ht _ _ _].
  rewrite Hc, Ht, _setConditionStateIfNecessary_manager. split; reflexivity.
Qed.

Lemma fire_untrigger_removes (t : Timeout) (c : string) (w : World) :
  callback t = cb_untrigger c ->
  JSMap.has c (_triggeredCameras (manager (fire t w))) = false.
Proof.
  intros Hcb. unfold fire, run_callback. rewrite Hcb.
  rewrite _untriggerAction_cameras. apply has_delete_same.
Qed.

(** C1, as stated, fails: camera "A" is triggered at 0 s and ends at 1 s
    with [untrigger_seconds = 10]; a start event at 5 s leaves the timer
    armed, and at 11 s the timer fires and removes "A". *)
Lemma retrigger_keeps_stale_timer_counterexample :
  option_map (fun w => (JSMap.get "A"%string (_triggeredCameraTimers (manager w)),
                        active_timers "A" w,
                        JSMap.get "A"%string (_triggeredCameras (manager w))))
             retrigger_scenario
    = Some (Some {| _timer := Some 2%nat |},
            [{| handle := 2; due := 11000; callback := cb_untrigger "A" |}],
            Some 5000) /\
  option_map (fun w => (now w, JSMap.has "A"%string (_triggeredCameras (manager w))))
             retrigger_scenario_later
    = Some (11000, false).
Proof. split; vm_compute; reflexivity. Qed.

(** C1 (amended): a start-type event that passes the guards refreshes the
    camera's timestamp and leaves the timer map and every pending untrigger
    timeout as they were: the timer armed by an earlier end event is
    neither cancelled nor restarted.  When that timer elapses the camera is
    removed from the triggered set, whether or not a start event was
    handled in between; only another end event for the camera replaces the
    timer. *)
Theorem start_event_keeps_timer (ev : CameraEvent) (w : World) :
  reachable w -> passes_guards ev w = true -> is_end (type ev) = false ->
  let c := cameraID ev in
  let w' := handleCameraEvent ev w in
  JSMap.get c (_triggeredCameras (manager w')) = Some (now w) /\
  _triggeredCameraTimers (manager w') = _triggeredCameraTimers (manager w) /\
  (forall c', active_timers c' w' = active_timers c' w) /\
  (forall t, In t (active_timers c w') ->
             JSMap.has c (_triggeredCameras (manager (fire t w'))) = false).
Proof.
  intros Hr Hg He c w'. subst w'.
  destruct (handleCameraEvent_start_timers ev w Hg He) as [Ht Hc].
  repeat apply conj.
  - rewrite Hc. apply get_set_same.
  - exact Ht.
  - intros c'. unfold active_timers.
    rewrite handleCameraEvent_start by assumption.
    rewrite debounced_keeps.
    + rewrite (proj1 (_setConditionStateIfNecessary_timeouts _)). reflexivity.
    + intros t Hcb. unfold is_untrigger_of. rewrite Hcb. reflexivity.
    + apply throttle_consistent__setConditionStateIfNecessary.
      apply (reachable_throttle_consistent w Hr).
  - intros t Ht'. apply filter_In in Ht'. destruct Ht' as [_ Hu].
    apply is_untrigger_of_iff in Hu. apply fire_untrigger_removes. exact Hu.
Qed.

(** ** A burst of events within one window of the throttle *)

Lemma _triggerAction_executions (ev : CameraEvent) (w : World) :
  executions (log (_triggerAction ev w)) = (now w, ev) :: executions (log w).
Proof.
  rewrite _triggerAction_log.
  destruct (suppressed ev w); [reflexivity|].
  destruct (_hasAllowableInteractionStateForAction w);
    [destruct (option_map _ (triggersConfig w)) as [[]|];
     try destruct (is_high (fidelity ev))|]; reflexivity.
Qed.

Lemma _setConditionStateIfNecessary_executions (w : World) :
  executions (log (_setConditionStateIfNecessary w)) = executions (log w).
Proof.
  rewrite _setConditionStateIfNecessary_log.
  destruct (isEqual _ _); reflexivity.
Qed.

Lemma _untriggerAction_executions (c : string) (w : World) :
  executions (log (_untriggerAction c w)) = executions (log w).
Proof.
  rewrite _untriggerAction_spec, emit_log. simpl executions.
  rewrite _setConditionStateIfNecessary_executions.
  change (log (untriggered c ?v)) with (log v).
  destruct (untrigger_navigates w); reflexivity.
Qed.

Lemma same_policy_passes_guards (v w : World) (ev : CameraEvent) :
  same_policy v w -> passes_guards ev v = passes_guards ev w.
Proof.
  intros (Hc & Hv & Hd).
  unfold passes_guards, triggersConfig, selectedCameraID. rewrite Hc, Hv, Hd.
  reflexivity.
Qed.

Lemma same_policy_trans (u v w : World) :
  same_policy u v -> same_policy v w -> same_policy u w.
Proof. intros (? & ? & ?) (? & ? & ?). repeat split; congruence. Qed.

Lemma same_policy__setConditionStateIfNecessary (w : World) :
  same_policy (_setConditionStateIfNecessary w) w.
Proof.
  unfold _setConditionStateIfNecessary. destruct (negb _); repeat split.
Qed.

Lemma same_policy__untriggerAction (c : string) (w : World) :
  same_policy (_untriggerAction c w) w.
Proof.
  rewrite _untriggerAction_spec.
  apply (same_policy_trans _
           (untriggered c (if untrigger_navigates w
                           then emit (setViewDefault None) w else w))).
  - apply (same_policy__setConditionStateIfNecessary
             (untriggered c (if untrigger_navigates w
                             then emit (setViewDefault None) w else w))).
  - destruct (untrigger_navigates w); repeat split.
Qed.

Lemma NoDup_map_eq {A B : Type} (f : A -> B) (l : list A) (x y : A) :
  NoDup (map f l) -> In x l -> In y l -> f x = f y -> x = y.
Proof.
  induction l as [|a l IH]; simpl; [tauto|].
  intros H Hx Hy Hf. inversion H as [|? ? Hnin Hnd]; subst.
  destruct Hx as [Hx|Hx]; destruct Hy as [Hy|Hy]; subst.
  - reflexivity.
  - exfalso. apply Hnin. rewrite Hf. apply in_map. exact Hy.
  - exfalso. apply Hnin. rewrite <- Hf. apply in_map. exact Hx.
  - apply IH; assumption.
Qed.

Lemma filter_length_le {A : Type} (p : A -> bool) (l : list A) :
  (length (filter p l) <= length l)%nat.
Proof.
  induction l as [|a l IH]; simpl; [lia|]. destruct (p a); simpl; lia.
Qed.

Lemma filter_length_lt {A : Type} (p : A -> bool) (l : list A) (x : A) :
  In x l -> p x = false -> (length (filter p l) < length l)%nat.
Proof.
  induction l as [|a l IH]; simpl; [tauto|].
  intros [Hx|Hx] Hp.
  - subst a. rewrite Hp. pose proof (filter_length_le p l). lia.
  - specialize (IH Hx Hp). destruct (p a); simpl; lia.
Qed.

Lemma stop_timer_of_length (c : string) timers (q : list Timeout) :
  (length (stop_timer_of c timers q) <= length q)%nat.
Proof.
  unfold stop_timer_of. destruct (JSMap.get c timers) as [[[h|]]|]; try lia.
  apply filter_length_le.
Qed.

Lemma earliest_In (q : list Timeout) (t : Timeout) :
  earliest q = Some t -> In t q.
Proof.
  revert t. induction q as [|a q IH]; simpl; [discriminate|].
  intros t. destruct (earliest q) as [t'|].
  - destruct (due t' <? due a); intros H; inversion H; subst; auto.
  - intros H; inversion H; subst; auto.
Qed.

Lemma earliest_least (q : list Timeout) (t : Timeout) :
  earliest q = Some t -> forall t', In t' q -> due t <= due t'.
Proof.
  revert t. induction q as [|a q IH]; simpl; [discriminate|].
  intros t. destruct (earliest q) as [m|] eqn:E.
  - destruct (due m <? due a) eqn:Hlt;
      [apply Z.ltb_lt in Hlt|apply Z.ltb_ge in Hlt];
      intros H; inversion H; subst;
      intros t' [Ht'|Ht']; subst; try lia.
    + apply (IH t eq_refl). exact Ht'.
    + specialize (IH m eq_refl t' Ht'). lia.
  - intros H; inversion H; subst. intros t' [Ht'|Ht']; subst; [lia|].
    destruct q; [contradiction|]. simpl in E.
    destruct (earliest q); [destruct (_ <? _)|]; discriminate.
Qed.

Lemma earliest_None (q : list Timeout) : earliest q = None -> q = [].
Proof.
  destruct q as [|a q]; [reflexivity|]. simpl.
  destruct (earliest q); [destruct (_ <? _)|]; discriminate.
Qed.

(** The three ways the throttle is entered in a burst. *)
Lemma debounced_leading (ev : CameraEvent) (v : World) :
  shouldInvoke (throttled v) (now v) = true ->
  timerId (throttled v) = None -> leading (throttled v) = true ->
  debounced ev v =
    _triggerAction ev
      (with_throttle
         (set_lastArgs None
            (set_timerId (Some (nextHandle v))
               (set_lastInvokeTime (now v)
                  (set_lastCallTime (Some (now v)) (throttled v)))))
         {| manager := manager v; api := api v; now := now v;
            timeouts := timeouts v ++
                        [{| handle := nextHandle v;
                            due := now v + Z.max 0 (ToInt32 (wait (throttled v)));
                            callback := cb_timerExpired |}];
            nextHandle := S (nextHandle v); log := log v |}).
Proof.
  intros Hsi Hid Hl. unfold debounced. rewrite Hsi.
  change (timerId (throttled (with_throttle ?d v))) with (timerId d).
  simpl timerId. rewrite Hid.
  unfold leadingEdge.
  change (leading (throttled (startTimer ?ms (with_throttle ?d ?u)))) with (leading d).
  simpl leading. rewrite Hl. reflexivity.
Qed.

Lemma debounced_within (ev : CameraEvent) (n : nat) (v : World) :
  shouldInvoke (throttled v) (now v) = false ->
  timerId (throttled v) = Some n ->
  debounced ev v =
    with_throttle (set_lastCallTime (Some (now v))
                     (set_lastArgs (Some ev) (throttled v))) v.
Proof.
  intros Hsi Hid. unfold debounced. rewrite Hsi.
  change (timerId (throttled (with_throttle ?d v))) with (timerId d).
  simpl timerId. rewrite Hid. reflexivity.
Qed.

Lemma timerExpired_trailing (v : World) :
  shouldInvoke (throttled v) (now v) = true -> trailing (throttled v) = true ->
  timerExpired v =
    match lastArgs (throttled v) with
    | Some ev =>
        _triggerAction ev
          (with_throttle
             (set_lastInvokeTime (now v)
                (set_lastArgs None (set_timerId None (throttled v)))) v)
    | None => with_throttle (set_lastArgs None (set_timerId None (throttled v))) v
    end.
Proof.
  intros Hsi Htr. unfold timerExpired. rewrite Hsi. unfold trailingEdge.
  change (lastArgs (throttled (with_throttle ?d v))) with (lastArgs d).
  change (trailing (throttled (with_throttle ?d v))) with (trailing d).
  simpl lastArgs. simpl trailing. rewrite Htr.
  destruct (lastArgs (throttled v)) eqn:E; [|reflexivity].
  unfold invokeFunc.
  change (lastArgs (throttled (with_throttle ?d v))) with (lastArgs d).
  simpl lastArgs. rewrite E. reflexivity.
Qed.

Lemma first_event_opens_window (e1 : CameraEvent) (w : World) :
  timers_consistent w -> throttle_consistent w ->
  timerId (throttled w) = None -> shouldInvoke (throttled w) (now w) = true ->
  passes_guards e1 w = true -> is_end (type e1) = false ->
  in_window (now w) (nextHandle w) None ((now w, e1) :: executions (log w)) w
            (handleCameraEvent e1 w) /\
  now (handleCameraEvent e1 w) = now w /\
  length (timeouts (handleCameraEvent e1 w)) = S (length (timeouts w)).
Proof.
  intros Hc Ht Hid Hsi Hg He.
  pose proof Ht as (Hs & Hq & _). pose proof Hs as (Hw & Hl & Hm & Hmw & Htr).
  rewrite handleCameraEvent_start by assumption.
  set (v0 := _setConditionStateIfNecessary (triggered_at_now e1 w)).
  assert (Hm0 : throttled v0 = throttled w).
  { unfold throttled, v0. rewrite _setConditionStateIfNecessary_manager. reflexivity. }
  destruct (_setConditionStateIfNecessary_timeouts (triggered_at_now e1 w))
    as (Hq0 & Hn0 & Hnow0).
  fold v0 in Hq0, Hn0, Hnow0. simpl in Hq0, Hn0, Hnow0.
  assert (Hc0 : timers_consistent v0).
  { apply timers_consistent__setConditionStateIfNecessary. exact Hc. }
  rewrite debounced_leading by (rewrite ?Hm0, ?Hnow0; assumption).
  rewrite _triggerAction_frame.
  rewrite Hm0, Hq0, Hn0, Hnow0, Hw.
  repeat apply conj.
  - unfold timers_consistent in Hc0. rewrite Hq0, Hn0 in Hc0.
    constructor; simpl.
    + unfold timers_consistent. simpl.
      apply (consistent_throttle_timeout _ _ _ (now w + Z.max 0 1000) Hc0).
    + exact Hs.
    + reflexivity.
    + reflexivity.
    + exists (now w). split; [reflexivity|lia].
    + reflexivity.
    + apply in_or_app. right. left. reflexivity.
    + intros t Hin Hcb. apply in_app_iff in Hin. destruct Hin as [Hin|[Hin|[]]].
      * exfalso. apply (throttle_ok_idle _ _ _ Ht Hid t Hin Hcb).
      * subst t. reflexivity.
    + lia.
    + rewrite _triggerAction_executions. simpl.
      unfold v0. rewrite _setConditionStateIfNecessary_executions. reflexivity.
    + apply (same_policy__setConditionStateIfNecessary (triggered_at_now e1 w)).
  - reflexivity.
  - simpl. rewrite length_app. simpl. lia.
Qed.

Lemma in_window_shouldInvoke t1 n last E w0 (v : World) :
  in_window t1 n last E w0 v -> now v < t1 + 1000 ->
  shouldInvoke (throttled v) (now v) = false.
Proof.
  intros [_ (Hw & _ & _ & Hmw & _) _ Hinv (tc & Hcall & Htc) _ _ _ _ _ _] Hnow.
  unfold shouldInvoke. rewrite Hcall, Hinv, Hw, Hmw.
  apply orb_false_iff. split; [apply orb_false_iff; split|].
  - rewrite Z.geb_leb. apply Z.leb_gt. lia.
  - apply Z.ltb_ge. lia.
  - apply andb_false_iff. right. rewrite Z.geb_leb. apply Z.leb_gt. lia.
Qed.

Lemma in_window_shouldInvoke_end t1 n last E w0 (v : World) :
  in_window t1 n last E w0 v ->
  shouldInvoke (throttled v) (t1 + 1000) = true.
Proof.
  intros [_ (Hw & _ & Hm & Hmw & _) _ Hinv (tc & Hcall & Htc) _ _ _ _ _ _].
  unfold shouldInvoke. rewrite Hcall, Hinv, Hm, Hmw.
  apply orb_true_iff. right. simpl. rewrite Z.geb_leb. apply Z.leb_le. lia.
Qed.

(** A further qualifying event in the window only replaces the waiting
    call. *)
Lemma in_window_handleCameraEvent t1 n last E w0 (v : World) (ev : CameraEvent) :
  in_window t1 n last E w0 v -> now v < t1 + 1000 ->
  passes_guards ev w0 = true -> is_end (type ev) = false ->
  in_window t1 n (Some ev) E w0 (handleCameraEvent ev v) /\
  now (handleCameraEvent ev v) = now v /\
  timeouts (handleCameraEvent ev v) = timeouts v.
Proof.
  intros Hwin Hnow Hg He.
  assert (Hg' : passes_guards ev v = true).
  { rewrite (same_policy_passes_guards v w0); [exact Hg|apply (ws_policy _ _ _ _ _ _ Hwin)]. }
  rewrite handleCameraEvent_start by assumption.
  set (v0 := _setConditionStateIfNecessary (triggered_at_now ev v)).
  assert (Hm0 : throttled v0 = throttled v).
  { unfold throttled, v0. rewrite _setConditionStateIfNecessary_manager. reflexivity. }
  destruct (_setConditionStateIfNecessary_timeouts (triggered_at_now ev v))
    as (Hq0 & Hn0 & Hnow0).
  fold v0 in Hq0, Hn0, Hnow0. simpl in Hq0, Hn0, Hnow0.
  assert (Hc0 : timers_consistent v0).
  { apply timers_consistent__setConditionStateIfNecessary.
    apply (ws_timers _ _ _ _ _ _ Hwin). }
  pose proof (in_window_shouldInvoke _ _ _ _ _ _ Hwin Hnow) as Hsi.
  destruct Hwin as [_ Hs Hid Hinv (tc & Hcall & Htc) _ Hpend Honly Hle Hex Hpol].
  rewrite (debounced_within ev n) by (rewrite ?Hm0, ?Hnow0; assumption).
  rewrite Hm0, Hnow0.
  repeat apply conj; [|exact Hnow0|exact Hq0].
  constructor; simpl; try assumption.
  - exists (now v). split; [reflexivity|lia].
  - reflexivity.
  - rewrite Hq0. exact Hpend.
  - rewrite Hq0. exact Honly.
  - lia.
  - unfold v0. rewrite _setConditionStateIfNecessary_executions. exact Hex.
  - apply (same_policy_trans _ (triggered_at_now ev v)); [|exact Hpol].
    apply (same_policy__setConditionStateIfNecessary (triggered_at_now ev v)).
Qed.

(** What running an untrigger timeout changes. *)
Lemma fire_untrigger_frame (t : Timeout) (c : string) (v : World) :
  callback t = cb_untrigger c ->
  throttled (fire t v) = throttled v /\
  now (fire t v) = Z.max (now v) (due t) /\
  timeouts (fire t v)
    = stop_timer_of c (_triggeredCameraTimers (manager v))
        (filter (fun x => negb (Nat.eqb (handle x) (handle t))) (timeouts v)) /\
  executions (log (fire t v)) = executions (log v) /\
  same_policy (fire t v) v.
Proof.
  intros Hcb. unfold fire, run_callback. rewrite Hcb.
  set (v1 := clearTimeout (handle t) (with_now (Z.max (now v) (due t)) v)).
  split; [|split; [|split; [|split]]].
  - rewrite _untriggerAction_spec. unfold throttled. simpl.
    rewrite _setConditionStateIfNecessary_manager. simpl.
    destruct (untrigger_navigates v1); reflexivity.
  - rewrite _untriggerAction_spec. simpl.
    rewrite (proj2 (proj2 (_setConditionStateIfNecessary_timeouts _))). simpl.
    destruct (untrigger_navigates v1); reflexivity.
  - rewrite _untriggerAction_timeouts. reflexivity.
  - rewrite _untriggerAction_executions. reflexivity.
  - apply (same_policy_trans _ v1); [apply same_policy__untriggerAction|].
    repeat split.
Qed.

Lemma fire_untrigger_length (t : Timeout) (c : string) (v : World) :
  callback t = cb_untrigger c -> In t (timeouts v) ->
  (length (timeouts (fire t v)) < length (timeouts v))%nat.
Proof.
  intros Hcb Hin.
  destruct (fire_untrigger_frame t c v Hcb) as (_ & _ & Hq & _). rewrite Hq.
  eapply Nat.le_lt_trans; [apply stop_timer_of_length|].
  apply (filter_length_lt _ _ t Hin). rewrite Nat.eqb_refl. reflexivity.
Qed.

Lemma in_window_fire_untrigger t1 n last E w0 (v : World) (t : Timeout) (c : string) :
  in_window t1 n last E w0 v ->
  In t (timeouts v) -> callback t = cb_untrigger c -> due t <= t1 + 1000 ->
  in_window t1 n last E w0 (fire t v).
Proof.
  intros Hwin Hin Hcb Hdue.
  destruct (fire_untrigger_frame t c v Hcb) as (Hth & Hnow & Hq & Hex & Hpol).
  pose proof (timers_consistent_fire t v (ws_timers _ _ _ _ _ _ Hwin)) as Hc'.
  destruct Hwin as [Hc Hs Hid Hinv (tc & Hcall & Htc) Hargs Hpend Honly Hle Hexec Hp].
  constructor; rewrite ?Hth, ?Hnow, ?Hex; try assumption.
  - exists tc. split; [exact Hcall|lia].
  - rewrite Hq.
    assert (Hf : In (throttle_timeout n t1)
                    (filter (fun x => negb (Nat.eqb (handle x) (handle t))) (timeouts v))).
    { apply filter_In. split; [exact Hpend|]. apply negb_true_iff, Nat.eqb_neq.
      intros Heq. destruct Hc as (Hnd & _).
      pose proof (NoDup_map_eq handle _ _ _ Hnd Hpend Hin Heq) as Habs.
      subst t. discriminate Hcb. }
    unfold stop_timer_of.
    destruct (JSMap.get c (_triggeredCameraTimers (manager v))) as [[[h|]]|] eqn:Eg;
      try exact Hf.
    apply filter_In. split; [exact Hf|]. apply negb_true_iff, Nat.eqb_neq.
    intros Heq. destruct Hc as (_ & _ & _ & Hent).
    destruct (Hent c h Eg) as [_ Hown].
    specialize (Hown _ Hpend Heq). discriminate Hown.
  - rewrite Hq. intros t' Ht'. apply stop_timer_of_incl in Ht'.
    apply filter_In in Ht'. apply Honly. tauto.
  - lia.
  - apply (same_policy_trans _ v); assumption.
Qed.

Lemma window_closed_fire E (v : World) (t : Timeout) :
  window_closed E v -> In t (timeouts v) ->
  window_closed E (fire t v) /\
  (length (timeouts (fire t v)) < length (timeouts v))%nat.
Proof.
  intros [Hc Hq Hex] Hin.
  destruct (callback t) as [c|] eqn:Hcb; [|exfalso; exact (Hq t Hin Hcb)].
  destruct (fire_untrigger_frame t c v Hcb) as (_ & _ & Hq' & Hex' & _).
  split; [|apply (fire_untrigger_length t c v Hcb Hin)].
  constructor.
  - apply timers_consistent_fire. exact Hc.
  - rewrite Hq'. intros t' Ht'. apply stop_timer_of_incl in Ht'.
    apply filter_In in Ht'. apply Hq. tauto.
  - rewrite Hex'. exact Hex.
Qed.

Lemma in_window_fire_throttle t1 n last E w0 (v : World) :
  in_window t1 n last E w0 v ->
  window_closed (trailing_execution t1 last ++ E) (fire (throttle_timeout n t1) v) /\
  (length (timeouts (fire (throttle_timeout n t1) v)) < length (timeouts v))%nat.
Proof.
  intros Hwin.
  pose proof (timers_consistent_fire (throttle_timeout n t1) v
                (ws_timers _ _ _ _ _ _ Hwin)) as Hc'.
  pose proof (in_window_shouldInvoke_end _ _ _ _ _ _ Hwin) as Hsi.
  destruct Hwin as [Hc Hs Hid Hinv Hcall Hargs Hpend Honly Hle Hexec Hp].
  unfold fire, run_callback in *. simpl callback in *. simpl handle in *. simpl due in *.
  set (v1 := clearTimeout n (with_now (Z.max (now v) (t1 + 1000)) v)) in *.
  assert (Hnow1 : now v1 = t1 + 1000) by (simpl; lia).
  assert (Hq1 : quiet (timeouts v1)).
  { intros t Ht Hcb. simpl in Ht. apply filter_In in Ht. destruct Ht as [Ht Hne].
    rewrite (Honly t Ht Hcb), Nat.eqb_refl in Hne. discriminate. }
  assert (Hlen : (length (timeouts v1) < length (timeouts v))%nat).
  { simpl. apply (filter_length_lt _ _ _ Hpend). simpl. rewrite Nat.eqb_refl. reflexivity. }
  rewrite timerExpired_trailing in *;
    try (rewrite Hnow1; exact Hsi); try apply Hs.
  change (lastArgs (throttled v1)) with (lastArgs (throttled v)) in *.
  rewrite Hargs in *. destruct last as [ev|]; simpl trailing_execution.
  - rewrite _triggerAction_frame in *. split; [|exact Hlen].
    constructor; [exact Hc'|exact Hq1|].
    simpl log. rewrite _triggerAction_executions. simpl. rewrite Hexec.
    replace (Z.max (now v) (t1 + 1000)) with (t1 + 1000) by lia. reflexivity.
  - split; [|exact Hlen]. constructor; [exact Hc'|exact Hq1|exact Hexec].
Qed.

Lemma advance_eq (fuel : nat) (t : Z) (w : World) :
  advance fuel t w =
    match earliest (timeouts w) with
    | Some next =>
        if due next <=? t then
          match fuel with
          | O => None
          | S fuel' => advance fuel' t (fire next w)
          end
        else Some (with_now (Z.max (now w) t) w)
    | None => Some (with_now (Z.max (now w) t) w)
    end.
Proof. destruct fuel; reflexivity. Qed.

Lemma in_window_with_now t1 n last E w0 (v : World) (t : Z) :
  in_window t1 n last E w0 v -> now v <= t <= t1 + 1000 ->
  in_window t1 n last E w0 (with_now t v).
Proof.
  intros [Hc Hs Hid Hinv (tc & Hcall & Htc) Hargs Hpend Honly Hle Hexec Hp] Ht.
  constructor; simpl; try assumption.
  - exists tc. split; [exact Hcall|lia].
  - lia.
Qed.

(** Inside the window, letting time pass runs untrigger timeouts only. *)
Lemma advance_in_window t1 n last E w0 (fuel : nat) :
  forall (v : World) (t : Z),
    in_window t1 n last E w0 v -> t < t1 + 1000 ->
    (length (timeouts v) <= fuel)%nat ->
    exists v',
      advance fuel t v = Some v' /\
      in_window t1 n last E w0 v' /\
      now v' = Z.max (now v) t /\
      (length (timeouts v') <= length (timeouts v))%nat.
Proof.
  induction fuel as [|fuel IH]; intros v t Hwin Ht Hlen; rewrite advance_eq.
  - destruct (timeouts v) eqn:Eq; [|simpl in Hlen; lia]. simpl.
    exists (with_now (Z.max (now v) t) v). repeat apply conj; try reflexivity.
    + apply in_window_with_now; [exact Hwin|]. pose proof (ws_now _ _ _ _ _ _ Hwin). lia.
    + simpl. rewrite Eq. simpl. lia.
  - destruct (earliest (timeouts v)) as [next|] eqn:En.
    + destruct (due next <=? t) eqn:Ed.
      * apply Z.leb_le in Ed. pose proof (earliest_In _ _ En) as Hin.
        destruct (callback next) as [c|] eqn:Hcb.
        -- pose proof (in_window_fire_untrigger _ _ _ _ _ _ next c Hwin Hin Hcb
                         ltac:(lia)) as Hwin'.
           pose proof (fire_untrigger_length next c v Hcb Hin) as Hlt.
           destruct (fire_untrigger_frame next c v Hcb) as (_ & Hnow & _).
           destruct (IH (fire next v) t Hwin' Ht ltac:(lia)) as (v' & Ha & Hw' & Hn' & Hl').
           exists v'. repeat apply conj; [exact Ha|exact Hw'|lia|lia].
        -- exfalso.
           pose proof (ws_only _ _ _ _ _ _ Hwin next Hin Hcb) as Hh.
           pose proof (ws_pending _ _ _ _ _ _ Hwin) as Hpend.
           destruct (ws_timers _ _ _ _ _ _ Hwin) as (Hnd & _).
           pose proof (NoDup_map_eq handle _ _ _ Hnd Hin Hpend Hh) as Heq.
           subst next. simpl in Ed. lia.
      * exists (with_now (Z.max (now v) t) v). repeat apply conj; try reflexivity.
        apply in_window_with_now; [exact Hwin|].
        pose proof (ws_now _ _ _ _ _ _ Hwin). lia.
    + exists (with_now (Z.max (now v) t) v). repeat apply conj; try reflexivity.
      apply in_window_with_now; [exact Hwin|].
      pose proof (ws_now _ _ _ _ _ _ Hwin). lia.
Qed.

Lemma advance_window_closed E (fuel : nat) :
  forall (v : World) (t : Z),
    window_closed E v -> (length (timeouts v) <= fuel)%nat ->
    exists v', advance fuel t v = Some v' /\ window_closed E v' /\
               (length (timeouts v') <= length (timeouts v))%nat.
Proof.
  induction fuel as [|fuel IH]; intros v t Hwc Hlen; rewrite advance_eq.
  - destruct (timeouts v) eqn:Eq; [|simpl in Hlen; lia]. simpl.
    exists (with_now (Z.max (now v) t) v). repeat apply conj; try reflexivity.
    + destruct Hwc. constructor; assumption.
    + simpl. rewrite Eq. simpl. lia.
  - assert (Hstay : exists v', Some (with_now (Z.max (now v) t) v) = Some v' /\
                               window_closed E v' /\
                               (length (timeouts v') <= length (timeouts v))%nat).
    { exists (with_now (Z.max (now v) t) v). repeat apply conj; try reflexivity.
      destruct Hwc. constructor; assumption. }
    destruct (earliest (timeouts v)) as [next|] eqn:En; [|exact Hstay].
    destruct (due next <=? t); [|exact Hstay].
    pose proof (earliest_In _ _ En) as Hin.
    destruct (window_closed_fire E v next Hwc Hin) as [Hwc' Hlt].
    destruct (IH (fire next v) t Hwc' ltac:(lia)) as (v' & Ha & Hw' & Hl').
    exists v'. repeat apply conj; [exact Ha|exact Hw'|lia].
Qed.

(** At the end of the window the timeout of the throttle runs. *)
Lemma advance_to_trailing_edge t1 n last E w0 (fuel : nat) :
  forall v : World,
    in_window t1 n last E w0 v -> (length (timeouts v) <= fuel)%nat ->
    exists v',
      advance fuel (t1 + 1000) v = Some v' /\
      window_closed (trailing_execution t1 last ++ E) v'.
Proof.
  induction fuel as [|fuel IH]; intros v Hwin Hlen; rewrite advance_eq;
    pose proof (ws_pending _ _ _ _ _ _ Hwin) as Hpend.
  - destruct (timeouts v); [contradiction|simpl in Hlen; lia].
  - destruct (earliest (timeouts v)) as [next|] eqn:En.
    + pose proof (earliest_In _ _ En) as Hin.
      pose proof (earliest_least _ _ En _ Hpend) as Hmin. simpl in Hmin.
      destruct (due next <=? t1 + 1000) eqn:Ed; [|apply Z.leb_gt in Ed; lia].
      destruct (callback next) as [c|] eqn:Hcb.
      * pose proof (in_window_fire_untrigger _ _ _ _ _ _ next c Hwin Hin Hcb Hmin)
          as Hwin'.
        pose proof (fire_untrigger_length next c v Hcb Hin) as Hlt.
        apply (IH (fire next v) Hwin'). lia.
      * pose proof (ws_only _ _ _ _ _ _ Hwin next Hin Hcb) as Hh.
        destruct (ws_timers _ _ _ _ _ _ Hwin) as (Hnd & _).
        pose proof (NoDup_map_eq handle _ _ _ Hnd Hin Hpend Hh) as Heq.
        subst next.
        destruct (in_window_fire_throttle _ _ _ _ _ _ Hwin) as [Hwc Hlt].
        destruct (advance_window_closed _ fuel _ (t1 + 1000) Hwc ltac:(lia))
          as (v' & Ha & Hw' & _).
        exists v'. split; assumption.
    + apply earliest_None in En. rewrite En in Hpend. contradiction.
Qed.

Lemma run_in_window t1 n E w0 (fuel : nat) (feed : list (Z * CameraEvent)) :
  forall (v : World) (last : option CameraEvent),
    in_window t1 n last E w0 v ->
    nondecreasing_from (now v) feed ->
    (forall x, In x feed ->
       fst x < t1 + 1000 /\ passes_guards (snd x) w0 = true /\
       is_end (type (snd x)) = false) ->
    (length (timeouts v) <= fuel)%nat ->
    exists v',
      run fuel feed v = Some v' /\
      in_window t1 n (last_call last feed) E w0 v' /\
      (length (timeouts v') <= length (timeouts v))%nat.
Proof.
  induction feed as [|[t ev] feed IH]; intros v last Hwin Hnd Hq Hlen.
  - exists v. repeat apply conj; [reflexivity|exact Hwin|lia].
  - destruct Hnd as [Ht Hnd].
    destruct (Hq (t, ev) (or_introl eq_refl)) as (Hlt & Hg & He). simpl in Hlt, Hg, He.
    destruct (advance_in_window _ _ _ _ _ fuel v t Hwin Hlt Hlen)
      as (v1 & Ha & Hw1 & Hn1 & Hl1).
    assert (Hnow1 : now v1 = t) by lia.
    destruct (in_window_handleCameraEvent _ _ _ _ _ v1 ev Hw1 ltac:(lia) Hg He)
      as (Hw2 & Hn2 & Hq2).
    destruct (IH (handleCameraEvent ev v1) (Some ev) Hw2) as (v' & Hr & Hw' & Hl').
    + rewrite Hn2, Hnow1. exact Hnd.
    + intros x Hx. apply Hq. right. exact Hx.
    + rewrite Hq2. lia.
    + exists v'. simpl. unfold deliver. rewrite Ha. simpl.
      repeat apply conj; [exact Hr|exact Hw'|]. rewrite Hq2 in Hl'. lia.
Qed.

(** C2, as stated, fails: two events for different cameras 0.3 s apart
    cause two executions; the first runs at once, at the leading edge of
    the window, with the parameters of the first event. *)
Lemma leading_edge_execution_counterexample :
  option_map (fun w => executions (log w)) burst_scenario
    = Some [(1000, start_B); (0, start_A)] /\
  option_map (fun w => filter (fun x => is_navigation (snd x)) (log w)) burst_scenario
    = Some [(1000, setViewByParameters "live" "B");
            (0, setViewByParameters "live" "A")].
Proof. split; vm_compute; reflexivity. Qed.

(** C2 (amended): when a qualifying event reaches an idle throttle, its
    action executes at once (leading edge) and a 1-second window opens.
    Of the qualifying events that follow within the window, only the last
    one's action executes, once, when the window ends (trailing edge); the
    actions of the events in between never execute.  So a window sees at
    most two executions: the first event's at its start and the last
    event's at its end. *)
Theorem throttled_burst (w : World) (e1 : CameraEvent)
    (rest : list (Z * CameraEvent)) (fuel : nat) :
  reachable w ->
  timerId (throttled w) = None -> shouldInvoke (throttled w) (now w) = true ->
  passes_guards e1 w = true -> is_end (type e1) = false ->
  (forall x, In x rest ->
     fst x < now w + 1000 /\ passes_guards (snd x) w = true /\
     is_end (type (snd x)) = false) ->
  nondecreasing_from (now w) rest ->
  (length (timeouts w) < fuel)%nat ->
  exists w1 w2,
    run fuel rest (handleCameraEvent e1 w) = Some w1 /\
    advance fuel (now w + 1000) w1 = Some w2 /\
    executions (log w2)
      = trailing_execution (now w) (last_call None rest)
          ++ (now w, e1) :: executions (log w).
Proof.
  intros Hr Hid Hsi Hg He Hq Hnd Hfuel.
  pose proof (reachable_timers_consistent w Hr) as Hc.
  pose proof (reachable_throttle_consistent w Hr) as Ht.
  destruct (first_event_opens_window e1 w Hc Ht Hid Hsi Hg He) as (Hwin & Hnow & Hlen).
  destruct (run_in_window _ _ _ _ fuel rest _ None Hwin) as (w1 & Hrun & Hw1 & Hl1).
  - rewrite Hnow. exact Hnd.
  - exact Hq.
  - lia.
  - destruct (advance_to_trailing_edge _ _ _ _ _ fuel w1 Hw1 ltac:(lia))
      as (w2 & Hadv & [_ _ Hex]).
    exists w1, w2. repeat apply conj; assumption.
Qed.

Lemma throttled_burst_witness :
  exists w1 w2,
    run 4 [(300, start_B); (600, start_A)] (handleCameraEvent start_A card_live) = Some w1 /\
    advance 4 (now card_live + 1000) w1 = Some w2 /\
    executions (log w2)
      = trailing_execution (now card_live)
          (last_call None [(300, start_B); (600, start_A)])
          ++ (now card_live, start_A) :: executions (log card_live).
Proof.
  apply (throttled_burst card_live start_A [(300, start_B); (600, start_A)] 4).
  - apply reachable_initial. repeat split.
  - reflexivity.
  - reflexivity.
  - reflexivity.
  - reflexivity.
  - intros x [<-|[<-|[]]]; simpl; repeat split; lia.
  - simpl. lia.
  - simpl. lia.
Defined.

(** ** Examples *)

Lemma untrigger_timer_elapsed_witness :
  same_set (Some ["B"%string])
    (conditionState_triggered
       (api (_untriggerAction "A" (handleCameraEvent start_B armed_world)))).
Proof.
  refine (proj2 (proj2 (proj2 (proj2 (proj2 (proj2 (proj2
            (untrigger_timer_elapsed "A" (handleCameraEvent start_B armed_world))))))))
            _ _).
  - repeat constructor; simpl; intuition discriminate.
  - repeat constructor; simpl; intuition discriminate.
Defined.

Lemma start_event_keeps_timer_witness :
  JSMap.get "A"%string (_triggeredCameras (manager (handleCameraEvent start_A armed_world)))
    = Some (now armed_world) /\
  _triggeredCameraTimers (manager (handleCameraEvent start_A armed_world))
    = _triggeredCameraTimers (manager armed_world) /\
  (forall c', active_timers c' (handleCameraEvent start_A armed_world)
              = active_timers c' armed_world) /\
  (forall t, In t (active_timers "A" (handleCameraEvent start_A armed_world)) ->
             JSMap.has "A"%string
               (_triggeredCameras (manager (fire t (handleCameraEvent start_A armed_world))))
             = false).
Proof.
  apply (start_event_keeps_timer start_A armed_world).
  - apply reachable_step with (w := handleCameraEvent start_A card_live).
    + apply reachable_step with (w := card_live).
      * apply reachable_initial. repeat split.
      * apply step_event.
    + apply step_event.
  - reflexivity.
  - reflexivity.
Defined.

Lemma one_timer_per_camera_witness :
  (forall c, (length (active_timers c armed_world) <= 1)%nat) /\
  exists fresh,
    due fresh = now armed_world + 10000 /\
    active_timers "A" (handleCameraEvent end_A armed_world) = [fresh].
Proof.
  assert (Hr : reachable armed_world).
  { apply reachable_step with (w := handleCameraEvent start_A card_live).
    - apply reachable_step with (w := card_live).
      + apply reachable_initial. repeat split.
      + apply step_event.
    - apply step_event. }
  split.
  - apply (proj1 (one_timer_per_camera armed_world Hr)).
  - destruct (proj2 (one_timer_per_camera armed_world Hr) end_A eq_refl eq_refl)
      as (fresh & _ & _ & _ & Hdue & _ & _ & Hact & _).
    exists fresh. split; [|exact Hact].
    eapply Hdue; [reflexivity|vm_compute; reflexivity|unfold longest_delay; lia].
Defined.

Lemma no_empty_set_published_witness :
  Forall nonempty_or_absent (published (log armed_world)) /\
  (forall c,
      JSMap.delete c (_triggeredCameras (manager armed_world)) = [] ->
      conditionState_triggered (api (_untriggerAction c armed_world)) = None).
Proof.
  apply (no_empty_set_published armed_world).
  apply reachable_step with (w := handleCameraEvent start_A card_live).
  - apply reachable_step with (w := card_live).
    + apply reachable_initial. repeat split.
    + apply step_event.
  - apply step_event.
Defined.

Lemma condition_state_written_at_most_once_witness :
  published (log (handleCameraEvent start_A (handleCameraEvent start_A card_live)))
    = published (log (handleCameraEvent start_A card_live)).
Proof.
  apply (proj2 (proj2 (proj2
           (condition_state_written_at_most_once start_A card_live)))
           start_A (handleCameraEvent start_A card_live));
    reflexivity.
Defined.

(** * Further properties of the manager *)

(** ** The queries *)

(** The first entry of [orderBy(entries, timestamp, 'desc')]. *)
Lemma orderBy_desc_first (entries : list (string * Z)) :
  match orderBy_desc entries with
  | [] => entries = []
  | (c, ts) :: _ =>
      exists i,
        nth_error entries i = Some (c, ts) /\
        forall j c' ts',
          nth_error entries j = Some (c', ts') ->
          ts' < ts \/ (ts' = ts /\ (i <= j)%nat)
  end.
Proof.
  unfold orderBy_desc.
  pose proof (baseSortBy_head_first (decorate 0 entries)) as Hhead.
  pose proof (fun y => baseSortBy_In y (decorate 0 entries)) as Hin.
  destruct (baseSortBy (decorate 0 entries)) as [|h sorted]; simpl.
  - destruct entries as [|e entries]; [reflexivity|].
    exfalso. apply (proj2 (Hin {| criteria := snd e; index := 0; value := e |})).
    left. reflexivity.
  - assert (Hh : In h (decorate 0 entries)) by (apply Hin; left; reflexivity).
    apply decorate_In in Hh. destruct Hh as (i & [c ts] & Hi & Hd). subst h. simpl.
    exists i. split; [exact Hi|]. intros j c' ts' Hj.
    assert (Hy : In {| criteria := ts'; index := j; value := (c', ts') |}
                    (decorate 0 entries)).
    { apply decorate_In. exists j, (c', ts'). auto. }
    apply Hin in Hy. apply Hhead in Hy. apply sorts_before_iff in Hy. exact Hy.
Qed.

Lemma nth_error_keys {V : Type} (m : list (string * V)) (i : nat) (k : string) (v : V) :
  nth_error m i = Some (k, v) -> In k (JSMap.keys m).
Proof.
  intros H. apply nth_error_In in H. unfold JSMap.keys.
  apply in_map_iff. exists (k, v). auto.
Qed.

(** In a map with distinct keys, an entry is what [get] finds. *)
Lemma get_nth_error {V : Type} (m : list (string * V)) (i : nat) (k : string) (v : V) :
  NoDup (JSMap.keys m) -> nth_error m i = Some (k, v) -> JSMap.get k m = Some v.
Proof.
  revert i. induction m as [|[k0 v0] m IH]; intros i Hnd Hi.
  - destruct i; discriminate.
  - simpl in Hnd. inversion Hnd as [|? ? Hnin Hnd']; subst. simpl.
    destruct i as [|i]; simpl in Hi.
    + inversion Hi; subst. rewrite String.eqb_refl. reflexivity.
    + destruct (String.eqb k0 k) eqn:E.
      * apply String.eqb_eq in E. subst k0. exfalso. apply Hnin.
        apply (nth_error_keys m i k v Hi).
      * apply (IH i Hnd' Hi).
Qed.

(** X1: the three queries agree: [isTriggered] holds exactly when
    [getTriggeredCameraIDs] is not empty and exactly when
    [getMostRecentlyTriggeredCameraID] returns a camera, and that camera
    is one of the triggered camera IDs. *)
Theorem queries_agree (w : World) :
  (isTriggered w = true <-> getTriggeredCameraIDs w <> []) /\
  (isTriggered w = true <-> exists c, getMostRecentlyTriggeredCameraID w = Some c) /\
  (forall c, getMostRecentlyTriggeredCameraID w = Some c ->
             In c (getTriggeredCameraIDs w)).
Proof.
  unfold isTriggered, getTriggeredCameraIDs, getMostRecentlyTriggeredCameraID, JSMap.size.
  pose proof (orderBy_desc_first (_triggeredCameras (manager w))) as H.
  destruct (orderBy_desc (_triggeredCameras (manager w))) as [|[c ts] rest].
  - rewrite H. simpl. split; [|split].
    + split; [discriminate|congruence].
    + split; [discriminate|]. intros (c & Hc). discriminate Hc.
    + intros c Hc. discriminate Hc.
  - destruct H as (i & Hi & _).
    pose proof (nth_error_keys _ _ _ _ Hi) as Hin.
    destruct (_triggeredCameras (manager w)) as [|e cams] eqn:E; [destruct i; discriminate|].
    simpl length. simpl negb. split; [|split].
    + split; [intros _; discriminate|reflexivity].
    + split; [intros _; exists c; reflexivity|reflexivity].
    + intros c' Hc'. inversion Hc'; subst. exact Hin.
Qed.

(** ** Start events and the triggered map *)

Lemma get_has {V : Type} (k : string) (m : list (string * V)) :
  JSMap.has k m = true <-> In k (JSMap.keys m).
Proof.
  unfold JSMap.has. rewrite <- get_In. destruct (JSMap.get k m); split; congruence.
Qed.

(** X2: a start-type event that passes the guards records the camera with
    the current time.  A camera that is already triggered keeps its place
    among the triggered camera IDs, a new one is appended; the entries of
    the other cameras are untouched. *)
Theorem start_event_membership (ev : CameraEvent) (w : World) :
  passes_guards ev w = true -> is_end (type ev) = false ->
  let c := cameraID ev in
  let w' := handleCameraEvent ev w in
  getTriggeredCameraIDs w'
    = (if JSMap.has c (_triggeredCameras (manager w))
       then getTriggeredCameraIDs w
       else getTriggeredCameraIDs w ++ [c]) /\
  JSMap.get c (_triggeredCameras (manager w')) = Some (now w) /\
  (forall c', c' <> c ->
     JSMap.get c' (_triggeredCameras (manager w'))
       = JSMap.get c' (_triggeredCameras (manager w))).
Proof.
  intros Hg He c w'. subst w'.
  destruct (handleCameraEvent_start_timers ev w Hg He) as [_ Hc].
  unfold getTriggeredCameraIDs. rewrite Hc. fold c. repeat apply conj.
  - destruct (JSMap.has c (_triggeredCameras (manager w))) eqn:E.
    + apply keys_set_present. exact E.
    + apply keys_set_fresh. exact E.
  - apply get_set_same.
  - intros c' Hne. apply get_set_other. exact Hne.
Qed.

Lemma start_event_membership_witness :
  getTriggeredCameraIDs (handleCameraEvent start_B armed_world) = ["A"; "B"]%string /\
  getTriggeredCameraIDs (handleCameraEvent start_A armed_world) = ["A"]%string.
Proof.
  split.
  - apply (proj1 (start_event_membership start_B armed_world eq_refl eq_refl)).
  - apply (proj1 (start_event_membership start_A armed_world eq_refl eq_refl)).
Defined.

(** ** Timestamps *)

Lemma Forall_set {V : Type} (P : string * V -> Prop) (k : string) (v : V)
    (m : list (string * V)) :
  (forall k', P (k', v)) -> Forall P m -> Forall P (JSMap.set k v m).
Proof.
  intros Hv. induction m as [|[k0 v0] m IH]; simpl; intros H.
  - constructor; [apply Hv|constructor].
  - inversion H; subst. destruct (String.eqb k0 k); constructor; auto.
Qed.

Lemma Forall_delete {V : Type} (P : string * V -> Prop) (k : string)
    (m : list (string * V)) :
  Forall P m -> Forall P (JSMap.delete k m).
Proof.
  induction m as [|[k0 v0] m IH]; simpl; intros H; [constructor|].
  inversion H; subst. destruct (String.eqb k0 k); [|constructor]; auto.
Qed.

Lemma get_In_entry {V : Type} (k : string) (v : V) (m : list (string * V)) :
  JSMap.get k m = Some v -> In (k, v) m.
Proof.
  induction m as [|[k0 v0] m IH]; simpl; [discriminate|].
  destruct (String.eqb k0 k) eqn:E.
  - apply String.eqb_eq in E. intros H. inversion H; subst. left. reflexivity.
  - intros H. right. apply IH. exact H.
Qed.

Lemma handleCameraEvent_now (ev : CameraEvent) (w : World) :
  now (handleCameraEvent ev w) = now w.
Proof.
  destruct (passes_guards ev w) eqn:Hg.
  - destruct (is_end (type ev)) eqn:He.
    + rewrite handleCameraEvent_end by assumption.
      apply (_startUntriggerTimer_frame (cameraID ev) w).
    + rewrite handleCameraEvent_start by assumption.
      rewrite (same_now _ _ (same_tracking_debounced ev _)).
      apply (_setConditionStateIfNecessary_timeouts (triggered_at_now ev w)).
  - rewrite handleCameraEvent_discard by assumption. reflexivity.
Qed.

Lemma fire_now (t : Timeout) (w : World) :
  now (fire t w) = Z.max (now w) (due t).
Proof.
  destruct (callback t) as [c|] eqn:Hcb.
  - apply (fire_untrigger_frame t c w Hcb).
  - unfold fire, run_callback. rewrite Hcb.
    rewrite (same_now _ _ (same_tracking_timerExpired _)). reflexivity.
Qed.

(** The triggered map after a timeout has run. *)
Lemma fire_cameras (t : Timeout) (w : World) :
  _triggeredCameras (manager (fire t w)) =
    match callback t with
    | cb_untrigger c => JSMap.delete c (_triggeredCameras (manager w))
    | cb_timerExpired => _triggeredCameras (manager w)
    end.
Proof.
  unfold fire, run_callback. destruct (callback t) as [c|].
  - rewrite _untriggerAction_cameras. reflexivity.
  - rewrite (same_cameras _ _ (same_tracking_timerExpired _)). reflexivity.
Qed.

Lemma handleCameraEvent_cameras (ev : CameraEvent) (w : World) :
  _triggeredCameras (manager (handleCameraEvent ev w)) =
    if passes_guards ev w && negb (is_end (type ev))
    then JSMap.set (cameraID ev) (now w) (_triggeredCameras (manager w))
    else _triggeredCameras (manager w).
Proof.
  destruct (passes_guards ev w) eqn:Hg; simpl.
  - destruct (is_end (type ev)) eqn:He; simpl.
    + rewrite handleCameraEvent_end by assumption.
      apply (_startUntriggerTimer_frame (cameraID ev) w).
    + apply (handleCameraEvent_start_timers ev w Hg He).
  - rewrite handleCameraEvent_discard by assumption. reflexivity.
Qed.

Lemma reachable_timestamps (w : World) :
  reachable w -> Forall (fun e => snd e <= now w) (_triggeredCameras (manager w)).
Proof.
  induction 1 as [w (Hm & _)|w w' _ IH Hs].
  - rewrite Hm. constructor.
  - destruct Hs as [ev w|t w _|t w Ht|a w].
    + rewrite handleCameraEvent_now, handleCameraEvent_cameras.
      destruct (_ && _); [|exact IH].
      apply Forall_set; [intros k'; simpl; lia|exact IH].
    + rewrite fire_now, fire_cameras.
      assert (IH' : Forall (fun e => snd e <= Z.max (now w) (due t))
                           (_triggeredCameras (manager w))).
      { eapply Forall_impl; [|exact IH]. simpl. intros e He. lia. }
      destruct (callback t); [apply Forall_delete|]; exact IH'.
    + simpl. eapply Forall_impl; [|exact IH]. simpl. intros e He. lia.
    + exact IH.
Qed.

(** X3: no recorded trigger timestamp lies in the future; hence right
    after a start-type event that passes the guards, the most recently
    triggered camera is one that was triggered at the current time. *)
Theorem most_recent_is_current (w : World) :
  reachable w ->
  (forall c ts, JSMap.get c (_triggeredCameras (manager w)) = Some ts -> ts <= now w) /\
  (forall ev,
      passes_guards ev w = true -> is_end (type ev) = false ->
      exists r,
        getMostRecentlyTriggeredCameraID (handleCameraEvent ev w) = Some r /\
        JSMap.get r (_triggeredCameras (manager (handleCameraEvent ev w)))
          = Some (now w)).
Proof.
  intros Hr. split.
  - intros c ts Hget. apply get_In_entry in Hget.
    pose proof (reachable_timestamps w Hr) as Hall.
    rewrite Forall_forall in Hall. apply (Hall (c, ts) Hget).
  - intros ev Hg He.
    assert (Hr' : reachable (handleCameraEvent ev w)).
    { apply (reachable_step w); [exact Hr|apply step_event]. }
    pose proof (reachable_timestamps _ Hr') as Hall.
    destruct (reachable_keys_distinct _ Hr') as [Hnd _].
    rewrite handleCameraEvent_now in Hall.
    destruct (handleCameraEvent_start_timers ev w Hg He) as [_ Hc].
    unfold getMostRecentlyTriggeredCameraID.
    pose proof (orderBy_desc_first
                  (_triggeredCameras (manager (handleCameraEvent ev w)))) as Hfirst.
    destruct (orderBy_desc _) as [|[r ts] rest].
    + exfalso. rewrite Hc in Hfirst.
      apply (set_not_empty (cameraID ev) (now w) (_triggeredCameras (manager w))).
      rewrite Hfirst. reflexivity.
    + destruct Hfirst as (i & Hi & Hmax). exists r. split; [reflexivity|].
      rewrite (get_nth_error _ i r ts Hnd Hi). f_equal.
      assert (Hle : ts <= now w).
      { rewrite Forall_forall in Hall. apply (Hall (r, ts)).
        apply (nth_error_In _ _ Hi). }
      assert (Hev : In (cameraID ev, now w)
                       (_triggeredCameras (manager (handleCameraEvent ev w)))).
      { apply get_In_entry. rewrite Hc. apply get_set_same. }
      apply In_nth_error in Hev. destruct Hev as (j & Hj).
      destruct (Hmax j _ _ Hj) as [Hlt|[Heq _]]; lia.
Qed.

Lemma most_recent_is_current_witness :
  exists r,
    getMostRecentlyTriggeredCameraID (handleCameraEvent start_B armed_world) = Some r /\
    JSMap.get r (_triggeredCameras (manager (handleCameraEvent start_B armed_world)))
      = Some (now armed_world).
Proof.
  refine (proj2 (most_recent_is_current armed_world _) start_B eq_refl eq_refl).
  apply reachable_step with (w := handleCameraEvent start_A card_live).
  - apply reachable_step with (w := card_live).
    + apply reachable_initial. repeat split.
    + apply step_event.
  - apply step_event.
Defined.

(** ** The interaction-mode gate *)

Lemma gate_same_api (v w : World) :
  api v = api w ->
  _hasAllowableInteractionStateForAction v = _hasAllowableInteractionStateForAction w.
Proof.
  intros H. unfold _hasAllowableInteractionStateForAction, triggersConfig.
  rewrite H. reflexivity.
Qed.

Lemma gate__setConditionStateIfNecessary (w : World) :
  _hasAllowableInteractionStateForAction (_setConditionStateIfNecessary w)
    = _hasAllowableInteractionStateForAction w.
Proof.
  unfold _setConditionStateIfNecessary. destruct (negb _); reflexivity.
Qed.

Lemma _triggerAction_navigations (ev : CameraEvent) (w : World) :
  _hasAllowableInteractionStateForAction w = false ->
  navigations (log (_triggerAction ev w)) = navigations (log w).
Proof.
  intros Hgate. rewrite _triggerAction_log, Hgate.
  destruct (suppressed ev w); reflexivity.
Qed.

Lemma invokeFunc_navigations (time : Z) (w : World) :
  _hasAllowableInteractionStateForAction w = false ->
  navigations (log (invokeFunc time w)) = navigations (log w).
Proof.
  intros Hgate. unfold invokeFunc.
  destruct (lastArgs (throttled w)); [|reflexivity].
  rewrite _triggerAction_navigations; [reflexivity|exact Hgate].
Qed.

Lemma timerExpired_navigations (w : World) :
  _hasAllowableInteractionStateForAction w = false ->
  navigations (log (timerExpired w)) = navigations (log w).
Proof.
  intros Hgate. unfold timerExpired. destruct (shouldInvoke _ _); [|reflexivity].
  unfold trailingEdge.
  destruct (lastArgs _); [destruct (trailing _)|]; try reflexivity.
  rewrite invokeFunc_navigations; [reflexivity|exact Hgate].
Qed.

Lemma debounced_navigations (ev : CameraEvent) (w : World) :
  _hasAllowableInteractionStateForAction w = false ->
  navigations (log (debounced ev w)) = navigations (log w).
Proof.
  intros Hgate. unfold debounced.
  destruct (shouldInvoke _ _); destruct (timerId _) as [h|]; try reflexivity.
  - destruct (maxing _); [|reflexivity].
    rewrite invokeFunc_navigations; [reflexivity|exact Hgate].
  - unfold leadingEdge.
    match goal with |- context [if ?b then _ else _] => destruct b end;
      [|reflexivity].
    rewrite invokeFunc_navigations; [reflexivity|exact Hgate].
Qed.

Lemma untrigger_navigates_gate (w : World) :
  _hasAllowableInteractionStateForAction w = false -> untrigger_navigates w = false.
Proof.
  intros Hgate. unfold untrigger_navigates. rewrite Hgate.
  destruct (option_map _ _) as [[]|]; reflexivity.
Qed.

Lemma _untriggerAction_navigations (c : string) (w : World) :
  navigations (log (_untriggerAction c w))
    = (if untrigger_navigates w then [(now w, setViewDefault None)] else [])
      ++ navigations (log w).
Proof.
  rewrite _untriggerAction_spec, emit_log. unfold navigations. simpl filter.
  rewrite _setConditionStateIfNecessary_log, filter_app.
  change (log (untriggered c ?v)) with (log v).
  assert (E : forall (s : option (list string)) (b : bool) (t : Z),
             filter (fun x : Z * Effect => is_navigation (snd x))
                    (if b then [] else [(t, setState s)]) = []).
  { intros s [] t; reflexivity. }
  rewrite E. destruct (untrigger_navigates w); reflexivity.
Qed.

(** X4: while the interaction-mode gate denies actions (or there is no
    configuration), no event and no timeout makes the manager issue a
    navigation command; the tracking goes on all the same: a start-type
    event that passes the guards still records the camera and leaves the
    condition-state store equal to the triggered state. *)
Theorem gate_denied_no_navigation (w : World) :
  _hasAllowableInteractionStateForAction w = false ->
  (forall ev, navigations (log (handleCameraEvent ev w)) = navigations (log w)) /\
  (forall t, navigations (log (fire t w)) = navigations (log w)) /\
  (forall ev,
      passes_guards ev w = true -> is_end (type ev) = false ->
      JSMap.has (cameraID ev) (_triggeredCameras (manager (handleCameraEvent ev w))) = true /\
      in_sync (handleCameraEvent ev w)).
Proof.
  intros Hgate. split; [|split].
  - intros ev. destruct (passes_guards ev w) eqn:Hg.
    + destruct (is_end (type ev)) eqn:He.
      * rewrite handleCameraEvent_end by assumption.
        rewrite (proj1 (_startUntriggerTimer_frame (cameraID ev) w)). reflexivity.
      * rewrite handleCameraEvent_start by assumption.
        rewrite debounced_navigations.
        -- rewrite _setConditionStateIfNecessary_log. unfold navigations.
           rewrite filter_app. destruct (isEqual _ _); reflexivity.
        -- rewrite gate__setConditionStateIfNecessary. exact Hgate.
    + rewrite handleCameraEvent_discard by assumption. reflexivity.
  - intros t. unfold fire, run_callback. destruct (callback t) as [c|].
    + rewrite _untriggerAction_navigations, untrigger_navigates_gate; [reflexivity|].
      exact Hgate.
    + rewrite timerExpired_navigations; [reflexivity|exact Hgate].
  - intros ev Hg He. apply (handleCameraEvent_start_state ev w Hg He).
Qed.

Lemma gate_denied_no_navigation_witness :
  navigations (log (handleCameraEvent start_A card_active_mode))
    = navigations (log card_active_mode) /\
  JSMap.has "A"%string
    (_triggeredCameras (manager (handleCameraEvent start_A card_active_mode))) = true.
Proof.
  pose proof (gate_denied_no_navigation card_active_mode eq_refl) as (H1 & _ & H3).
  split; [apply H1|apply (H3 start_A eq_refl eq_refl)].
Defined.

(** X5: every navigation command of [_triggerAction] is for the event's
    camera, and a clip or snapshot view is commanded only for a
    high-fidelity event that carries that medium: a clip view needs a
    clip, a snapshot view needs a snapshot and no clip. *)
Theorem navigation_matches_media (ev : CameraEvent) (w : World) :
  exists cmds,
    log (_triggerAction ev w) = cmds ++ log w /\
    (forall t viewName c,
        In (t, setViewByParameters viewName c) cmds ->
        c = cameraID ev /\
        (viewName = "live"%string \/
         (viewName = "clip"%string /\ fidelity ev = high /\ clip ev = Some true) \/
         (viewName = "snapshot"%string /\ fidelity ev = high /\
          snapshot ev = Some true /\ truthy (clip ev) = false))) /\
    (forall t c, In (t, setViewDefault c) cmds -> c = Some (cameraID ev)).
Proof.
  rewrite _triggerAction_log.
  destruct (suppressed ev w) eqn:Hs.
  - exists [(now w, triggerAction_called ev)]. split; [reflexivity|].
    split; intros; simpl in *; intuition discriminate.
  - match goal with
    | |- exists cmds, ?a :: ?b ++ ?c :: ?l = _ /\ _ => exists (a :: b ++ [c])
    end.
    split; [simpl; rewrite <- app_assoc; reflexivity|].
    destruct (_hasAllowableInteractionStateForAction w);
      [|split; intros; simpl in *; intuition discriminate].
    unfold suppressed in Hs.
    destruct (option_map (fun tc => trigger (actions tc)) (triggersConfig w)) as [[]|];
      try (split; intros; simpl in *; intuition discriminate).
    + split; [intros; simpl in *; intuition discriminate|].
      intros t c [H|[H|[H|[]]]]; inversion H; reflexivity.
    + split; [|intros; simpl in *; intuition discriminate].
      intros t v c [H|[H|[H|[]]]]; inversion H; subst. auto.
    + simpl in Hs. rewrite andb_true_r in Hs.
      destruct (fidelity ev) eqn:Hf; simpl in *;
        [|split; intros; simpl in *; intuition discriminate].
      split; [|intros; simpl in *; intuition discriminate].
      intros t v c [H|[H|[H|[]]]]; inversion H; subst. split; [reflexivity|].
      right. destruct (clip ev) as [[]|] eqn:Hc; simpl in *.
      * left. auto.
      * right. destruct (snapshot ev) as [[]|]; simpl in *; try discriminate. auto.
      * right. destruct (snapshot ev) as [[]|]; simpl in *; try discriminate. auto.
Qed.

(** ** The store follows the triggered set *)

(** X7: the manager keeps the condition-state store equal, as a set, to
    the set of triggered cameras: if it is before an event is handled or a
    timeout runs, it is afterwards. *)
Theorem store_stays_in_sync (w : World) :
  in_sync w ->
  (forall ev, in_sync (handleCameraEvent ev w)) /\
  (forall t, in_sync (fire t w)).
Proof.
  intros Hsync. split.
  - intros ev. destruct (passes_guards ev w) eqn:Hg.
    + destruct (is_end (type ev)) eqn:He.
      * rewrite handleCameraEvent_end by assumption.
        destruct (_startUntriggerTimer_frame (cameraID ev) w) as (_ & Ha & _ & Hc & _).
        unfold in_sync, triggeredState. rewrite Ha, Hc. exact Hsync.
      * apply (handleCameraEvent_start_state ev w Hg He).
    + rewrite handleCameraEvent_discard by assumption. exact Hsync.
  - intros t. unfold fire, run_callback. destruct (callback t) as [c|].
    + apply _untriggerAction_store.
    + destruct (same_tracking_timerExpired
                  (clearTimeout (handle t) (with_now (Z.max (now w) (due t)) w)))
        as [Hc _ Ha _ _].
      unfold in_sync, triggeredState. rewrite Hc, Ha. exact Hsync.
Qed.

Lemma store_stays_in_sync_witness :
  in_sync (handleCameraEvent end_A (handleCameraEvent start_A card_live)).
Proof.
  apply (proj1 (store_stays_in_sync (handleCameraEvent start_A card_live) eq_refl)).
Defined.

(** ** Untriggering a camera that is not triggered *)

Lemma delete_absent {V : Type} (k : string) (m : list (string * V)) :
  JSMap.has k m = false -> JSMap.delete k m = m.
Proof.
  unfold JSMap.has. induction m as [|[k0 v0] m IH]; simpl; [reflexivity|].
  destruct (String.eqb k0 k); [discriminate|].
  intros H. rewrite IH; auto.
Qed.

(** X8: when the untrigger timer of a camera that is not triggered
    elapses (an 'end' event arrived for a camera that never started), the
    triggered map stays as it is and, the store being in sync, nothing is
    written to it; the default view is still commanded when the policy and
    the gate say so, and the UI refresh is still requested. *)
Theorem untrigger_of_untriggered_camera (c : string) (w : World) :
  JSMap.has c (_triggeredCameras (manager w)) = false -> in_sync w ->
  _triggeredCameras (manager (_untriggerAction c w)) = _triggeredCameras (manager w) /\
  conditionState_triggered (api (_untriggerAction c w))
    = conditionState_triggered (api w) /\
  log (_untriggerAction c w)
    = (now w, update)
      :: (if untrigger_navigates w then [(now w, setViewDefault None)] else [])
      ++ log w.
Proof.
  intros Hhas Hsync.
  pose proof (delete_absent c _ Hhas) as Hdel.
  rewrite _untriggerAction_cameras, Hdel. split; [reflexivity|].
  rewrite _untriggerAction_spec.
  set (w1 := if untrigger_navigates w then emit (setViewDefault None) w else w).
  assert (Hts : triggeredState (untriggered c w1) = triggeredState w).
  { unfold triggeredState, untriggered. simpl.
    replace (_triggeredCameras (manager w1)) with (_triggeredCameras (manager w))
      by (subst w1; destruct (untrigger_navigates w); reflexivity).
    rewrite Hdel. reflexivity. }
  assert (Ha : api (untriggered c w1) = api w)
    by (subst w1; destruct (untrigger_navigates w); reflexivity).
  assert (Heq : _setConditionStateIfNecessary (untriggered c w1) = untriggered c w1).
  { unfold _setConditionStateIfNecessary. rewrite Hts, Ha. unfold in_sync in Hsync.
    rewrite Hsync. reflexivity. }
  rewrite Heq. split.
  - change (api (emit update (untriggered c w1))) with (api (untriggered c w1)).
    rewrite Ha. reflexivity.
  - rewrite emit_log. change (log (untriggered c w1)) with (log w1).
    change (now (untriggered c w1)) with (now w1).
    subst w1. destruct (untrigger_navigates w); reflexivity.
Qed.

Lemma untrigger_of_untriggered_camera_witness :
  log (_untriggerAction "B" armed_world)
    = (now armed_world, update)
      :: (if untrigger_navigates armed_world
          then [(now armed_world, setViewDefault None)] else [])
      ++ log armed_world.
Proof.
  apply (untrigger_of_untriggered_camera "B" armed_world); reflexivity.
Defined.

(** ** What gets executed *)

Lemma start_only_same (v w : World) :
  lastArgs (throttled w) = lastArgs (throttled v) ->
  executions (log w) = executions (log v) ->
  start_only v -> start_only w.
Proof. unfold start_only. intros -> ->. auto. Qed.

Lemma start_only_invokeFunc (time : Z) (w : World) :
  start_only w -> start_only (invokeFunc time w).
Proof.
  intros [Hargs Hex]. unfold invokeFunc.
  destruct (lastArgs (throttled w)) as [ev|] eqn:E.
  - split.
    + rewrite _triggerAction_frame. simpl. discriminate.
    + rewrite _triggerAction_executions. intros t e [H|H].
      * inversion H; subst. apply Hargs. reflexivity.
      * apply (Hex t e H).
  - split; [simpl; discriminate|exact Hex].
Qed.

Lemma start_only_timerExpired (w : World) :
  start_only w -> start_only (timerExpired w).
Proof.
  intros H. unfold timerExpired. destruct (shouldInvoke _ _).
  - unfold trailingEdge.
    destruct (lastArgs (throttled (with_throttle _ w))) eqn:E; [destruct (trailing _)|].
    + apply start_only_invokeFunc. exact H.
    + destruct H as [_ Hex]. split; [simpl; discriminate|exact Hex].
    + destruct H as [_ Hex]. split; [simpl; discriminate|exact Hex].
  - exact H.
Qed.

Lemma start_only_debounced (ev : CameraEvent) (w : World) :
  is_end (type ev) = false -> start_only w -> start_only (debounced ev w).
Proof.
  intros He [_ Hex].
  assert (H1 : start_only
                 (with_throttle
                    (set_lastCallTime (Some (now w))
                       (set_lastArgs (Some ev) (throttled w))) w)).
  { split; [|exact Hex]. simpl. intros e H. inversion H; subst. exact He. }
  unfold debounced.
  destruct (shouldInvoke _ _); destruct (timerId _) as [h|].
  - destruct (maxing _); [|exact H1].
    apply start_only_invokeFunc. exact H1.
  - unfold leadingEdge.
    match goal with |- context [if ?b then _ else _] => destruct b end;
      [apply start_only_invokeFunc|]; exact H1.
  - exact H1.
  - exact H1.
Qed.

Lemma start_only_handleCameraEvent (ev : CameraEvent) (w : World) :
  start_only w -> start_only (handleCameraEvent ev w).
Proof.
  intros H. destruct (passes_guards ev w) eqn:Hg.
  - destruct (is_end (type ev)) eqn:He.
    + rewrite handleCameraEvent_end by assumption.
      destruct (_startUntriggerTimer_frame (cameraID ev) w) as (Hl & _ & _ & _ & Hth).
      apply (start_only_same w); [unfold throttled; rewrite Hth|rewrite Hl|];
        auto.
    + rewrite handleCameraEvent_start by assumption.
      apply start_only_debounced; [exact He|].
      apply (start_only_same (triggered_at_now ev w));
        [unfold throttled; rewrite _setConditionStateIfNecessary_manager
        |rewrite _setConditionStateIfNecessary_executions|];
        auto.
  - rewrite handleCameraEvent_discard by assumption. exact H.
Qed.

Lemma start_only_fire (t : Timeout) (w : World) :
  start_only w -> start_only (fire t w).
Proof.
  intros H. destruct (callback t) as [c|] eqn:Hcb.
  - destruct (fire_untrigger_frame t c w Hcb) as (Hth & _ & _ & Hex & _).
    apply (start_only_same w); [rewrite Hth|rewrite Hex|]; auto.
  - unfold fire, run_callback. rewrite Hcb. apply start_only_timerExpired. exact H.
Qed.

(** X6: the trigger action is executed for start-type events only: no
    execution recorded in the log of a reachable world is for an 'end'
    event, and the call waiting in the throttle never is either. *)
Theorem end_events_never_executed (w : World) :
  reachable w ->
  (forall t ev, In (t, ev) (executions (log w)) -> type ev <> ev_end) /\
  (forall ev, lastArgs (throttled w) = Some ev -> type ev <> ev_end).
Proof.
  intros Hr.
  assert (H : start_only w).
  { induction Hr as [w (Hm & _ & Hl)|w w' _ IH Hs].
    - split; [unfold throttled; rewrite Hm; discriminate|rewrite Hl; intros t ev []].
    - destruct Hs.
      + apply start_only_handleCameraEvent. exact IH.
      + apply start_only_fire. exact IH.
      + exact IH.
      + exact IH. }
  destruct H as [Hargs Hex]. split.
  - intros t ev Hin Heq. specialize (Hex t ev Hin). rewrite Heq in Hex. discriminate.
  - intros ev Ha Heq. specialize (Hargs ev Ha). rewrite Heq in Hargs. discriminate.
Qed.

Lemma end_events_never_executed_witness :
  reachable armed_world /\
  Forall (fun e => type (snd e) <> ev_end) (executions (log armed_world)).
Proof.
  assert (Hr : reachable armed_world).
  { apply reachable_step with (w := handleCameraEvent start_A card_live).
    - apply reachable_step with (w := card_live).
      + apply reachable_initial. repeat split.
      + apply step_event.
    - apply step_event. }
  split; [exact Hr|].
  apply Forall_forall. intros [t ev] Hin.
  exact (proj1 (end_events_never_executed armed_world Hr) t ev Hin).
Defined.

(** ** One timeout of the throttle *)

Lemma is_throttle_iff (t : Timeout) :
  is_throttle t = true <-> callback t = cb_timerExpired.
Proof.
  unfold is_throttle. destruct (callback t); split; congruence.
Qed.

(** X9: in every reachable state at most one timeout of the throttle is
    pending, it is the one the throttle's [timerId] names, and none is
    pending while [timerId] is undefined. *)
Theorem one_throttle_timeout (w : World) :
  reachable w ->
  (length (filter is_throttle (timeouts w)) <= 1)%nat /\
  (forall t, In t (timeouts w) -> is_throttle t = true ->
             timerId (throttled w) = Some (handle t)) /\
  (timerId (throttled w) = None -> filter is_throttle (timeouts w) = []).
Proof.
  intros Hr.
  destruct (reachable_timers_consistent w Hr) as (Hnd & _).
  destruct (reachable_throttle_consistent w Hr) as (_ & Hq & _).
  assert (Hall : forall t, In t (timeouts w) -> is_throttle t = true ->
                           timerId (throttled w) = Some (handle t)).
  { intros t Hin Ht. apply Hq; [exact Hin|apply is_throttle_iff; exact Ht]. }
  split; [|split].
  - pose proof (handles_distinct_filter is_throttle (timeouts w) Hnd) as Hnd'.
    assert (Hall' : forall t, In t (filter is_throttle (timeouts w)) ->
                              timerId (throttled w) = Some (handle t)).
    { intros t Ht. apply filter_In in Ht. apply Hall; tauto. }
    destruct (filter is_throttle (timeouts w)) as [|a [|b l]]; simpl; try lia.
    exfalso.
    pose proof (Hall' a (or_introl eq_refl)) as Ha.
    pose proof (Hall' b (or_intror (or_introl eq_refl))) as Hb.
    rewrite Ha in Hb. inversion Hb as [Hab].
    simpl in Hnd'. inversion Hnd' as [|? ? Hnin _]; subst.
    apply Hnin. left. symmetry. exact Hab.
  - exact Hall.
  - intros Hid. apply filter_none. intros t Hin.
    destruct (is_throttle t) eqn:E; [|reflexivity].
    rewrite (Hall t Hin E) in Hid. discriminate.
Qed.

Lemma one_throttle_timeout_witness :
  (length (filter is_throttle (timeouts armed_world)) <= 1)%nat.
Proof.
  refine (proj1 (one_throttle_timeout armed_world _)).
  apply reachable_step with (w := handleCameraEvent start_A card_live).
  - apply reachable_step with (w := card_live).
    + apply reachable_initial. repeat split.
    + apply step_event.
  - apply step_event.
Defined.

(** ** Cameras do not interfere *)

(** X13: an event for one camera leaves the other cameras alone: their
    trigger timestamps, their timer entries and their pending untrigger
    timeouts are what they were. *)
Theorem other_cameras_untouched (ev : CameraEvent) (c : string) (w : World) :
  reachable w -> c <> cameraID ev ->
  JSMap.get c (_triggeredCameras (manager (handleCameraEvent ev w)))
    = JSMap.get c (_triggeredCameras (manager w)) /\
  JSMap.get c (_triggeredCameraTimers (manager (handleCameraEvent ev w)))
    = JSMap.get c (_triggeredCameraTimers (manager w)) /\
  active_timers c (handleCameraEvent ev w) = active_timers c w.
Proof.
  intros Hr Hne.
  pose proof (reachable_timers_consistent w Hr) as Hc.
  pose proof (reachable_throttle_consistent w Hr) as Ht.
  destruct (passes_guards ev w) eqn:Hg.
  - destruct (is_end (type ev)) eqn:He.
    + rewrite handleCameraEvent_end, _startUntriggerTimer_spec by assumption.
      simpl. split; [reflexivity|split].
      * rewrite get_set_other, get_delete_other by exact Hne. reflexivity.
      * unfold active_timers. simpl. rewrite filter_app. simpl.
        unfold is_untrigger_of at 2. simpl.
        destruct (String.eqb (cameraID ev) c) eqn:E;
          [apply String.eqb_eq in E; congruence|].
        rewrite app_nil_r, without_timer_of_eq.
        apply (stop_timer_of_others (cameraID ev) c _ _ _ Hc Hne).
    + destruct (handleCameraEvent_start_timers ev w Hg He) as [Htm Hcam].
      rewrite Htm, Hcam. split; [apply get_set_other; exact Hne|split; [reflexivity|]].
      unfold active_timers. rewrite handleCameraEvent_start by assumption.
      rewrite debounced_keeps.
      * rewrite (proj1 (_setConditionStateIfNecessary_timeouts _)). reflexivity.
      * intros t Hcb. unfold is_untrigger_of. rewrite Hcb. reflexivity.
      * apply throttle_consistent__setConditionStateIfNecessary. exact Ht.
  - rewrite handleCameraEvent_discard by assumption. repeat split.
Qed.

Lemma other_cameras_untouched_witness :
  active_timers "A" (handleCameraEvent start_B armed_world) = active_timers "A" armed_world.
Proof.
  refine (proj2 (proj2 (other_cameras_untouched start_B "A" armed_world _ _))).
  - apply reachable_step with (w := handleCameraEvent start_A card_live).
    + apply reachable_step with (w := card_live).
      * apply reachable_initial. repeat split.
      * apply step_event.
    + apply step_event.
  - discriminate.
Defined.

(** ** The timeout of the throttle never re-arms itself *)

Lemma invokeFunc_throttle (time : Z) (w : World) :
  lastInvokeTime (throttled (invokeFunc time w)) = time /\
  lastCallTime (throttled (invokeFunc time w)) = lastCallTime (throttled w) /\
  now (invokeFunc time w) = now w.
Proof.
  unfold invokeFunc. destruct (lastArgs (throttled w));
    [rewrite _triggerAction_frame|]; repeat split.
Qed.

Lemma throttle_timing_invokeFunc (w : World) :
  (forall t, In t (timeouts w) -> callback t = cb_timerExpired -> now w + 1000 <= due t) ->
  throttle_timing (invokeFunc (now w) w).
Proof.
  intros Hdue. destruct (invokeFunc_throttle (now w) w) as (Hi & _ & Hn).
  destruct (invokeFunc_timeouts (now w) w) as (Hq & _).
  unfold throttle_timing. rewrite Hi, Hn, Hq. split; [lia|exact Hdue].
Qed.

Lemma throttle_timing_debounced (ev : CameraEvent) (w : World) :
  throttle_consistent w -> throttle_timing w ->
  throttle_timing (debounced ev w).
Proof.
  intros Hok [Hpast Hdue]. pose proof Hok as ((Hw & Hl & Hm & Hmw & Htr) & Hq & Hid).
  unfold debounced.
  destruct (shouldInvoke (throttled w) (now w)) eqn:Hsi;
    destruct (timerId (throttled _)) as [h|] eqn:E; simpl in E.
  - change (maxing (throttled (with_throttle ?d w))) with (maxing d). simpl maxing.
    rewrite Hm.
    match goal with |- throttle_timing (invokeFunc ?t ?v) =>
      change t with (now v) end.
    apply throttle_timing_invokeFunc. simpl. rewrite Hw.
    intros t Hin Hcb. apply in_app_iff in Hin. destruct Hin as [Hin|[Hin|[]]].
    + exfalso. apply (throttle_ok_cleared _ _ _ h Hok E t Hin Hcb).
    + subst t. simpl. change (ToInt32 1000) with 1000. lia.
  - unfold leadingEdge.
    change (leading (throttled (startTimer ?ms (with_throttle ?d ?u)))) with (leading d).
    simpl leading. rewrite Hl.
    match goal with |- throttle_timing (invokeFunc ?t ?v) =>
      change t with (now v) end.
    apply throttle_timing_invokeFunc. simpl. rewrite Hw.
    intros t Hin Hcb. apply in_app_iff in Hin. destruct Hin as [Hin|[Hin|[]]].
    + exfalso. apply (throttle_ok_idle _ _ _ Hok E t Hin Hcb).
    + subst t. simpl. change (ToInt32 1000) with 1000. lia.
  - assert (Hcall : lastCallTime (throttled w) <> None).
    { intros Hn. unfold shouldInvoke in Hsi. rewrite Hn in Hsi. discriminate. }
    split; simpl; [intros _; exact (Hpast Hcall)|exact Hdue].
  - assert (Hcall : lastCallTime (throttled w) <> None).
    { intros Hn. unfold shouldInvoke in Hsi. rewrite Hn in Hsi. discriminate. }
    specialize (Hpast Hcall).
    split; simpl; [intros _; exact Hpast|]. rewrite Hw.
    intros t Hin Hcb. apply in_app_iff in Hin. destruct Hin as [Hin|[Hin|[]]].
    + exfalso. apply (throttle_ok_idle _ _ _ Hok E t Hin Hcb).
    + subst t. simpl. change (ToInt32 1000) with 1000. lia.
Qed.

(** With the manager's settings, a timeout of the throttle that runs finds
    that it must invoke: it takes the trailing edge. *)
Lemma fire_throttle_shouldInvoke (t : Timeout) (w : World) :
  throttle_consistent w -> throttle_timing w ->
  In t (timeouts w) -> callback t = cb_timerExpired ->
  shouldInvoke (throttled w) (Z.max (now w) (due t)) = true.
Proof.
  intros ((Hw & _ & Hm & Hmw & _) & _) [_ Hdue] Hin Hcb.
  specialize (Hdue t Hin Hcb). unfold shouldInvoke.
  destruct (lastCallTime (throttled w)); [|reflexivity].
  rewrite Hm, Hmw. apply orb_true_iff. right. simpl.
  rewrite Z.geb_leb. apply Z.leb_le. lia.
Qed.

Lemma fire_throttle_timeouts (t : Timeout) (w : World) :
  throttle_consistent w -> throttle_timing w ->
  In t (timeouts w) -> callback t = cb_timerExpired ->
  timeouts (fire t w)
    = filter (fun x => negb (Nat.eqb (handle x) (handle t))) (timeouts w).
Proof.
  intros Hok Htm Hin Hcb.
  pose proof (fire_throttle_shouldInvoke t w Hok Htm Hin Hcb) as Hsi.
  unfold fire, run_callback. rewrite Hcb. unfold timerExpired.
  change (shouldInvoke (throttled (clearTimeout ?h (with_now ?n w))) (now _))
    with (shouldInvoke (throttled w) n).
  rewrite Hsi. unfold trailingEdge.
  destruct (lastArgs _); [destruct (trailing _)|]; try reflexivity.
  rewrite (proj1 (invokeFunc_timeouts _ _)). reflexivity.
Qed.

Lemma throttle_timing_fire (t : Timeout) (w : World) :
  timers_consistent w -> throttle_consistent w -> throttle_timing w ->
  In t (timeouts w) -> throttle_timing (fire t w).
Proof.
  intros Hc Hok Htm Hin. pose proof Htm as [Hpast Hdue].
  destruct (callback t) as [c|] eqn:Hcb.
  - destruct (fire_untrigger_frame t c w Hcb) as (Hth & Hnow & Hq & _).
    unfold throttle_timing. rewrite Hth, Hnow, Hq. split.
    + intros Hcall. specialize (Hpast Hcall). lia.
    + intros t' Hin' Hcb'. apply stop_timer_of_incl in Hin'.
      apply filter_In in Hin'. apply Hdue; tauto.
  - pose proof (fire_throttle_shouldInvoke t w Hok Htm Hin Hcb) as Hsi.
    pose proof (fire_throttle_timeouts t w Hok Htm Hin Hcb) as Hq.
    assert (Hquiet : quiet (timeouts (fire t w))).
    { rewrite Hq. apply (throttle_ok_cleared _ _ _ (handle t) Hok).
      destruct Hok as (_ & Hq' & _). apply Hq'; assumption. }
    split; [|intros t' Hin' Hcb'; exfalso; exact (Hquiet t' Hin' Hcb')].
    rewrite fire_now. unfold fire, run_callback. rewrite Hcb. unfold timerExpired.
    change (shouldInvoke (throttled (clearTimeout ?h (with_now ?n w))) (now _))
      with (shouldInvoke (throttled w) n).
    rewrite Hsi. unfold trailingEdge.
    destruct (lastArgs _); [destruct (trailing _)|].
    + rewrite (proj1 (invokeFunc_throttle _ _)). simpl. lia.
    + unfold throttled in *. simpl. intros Hcall. specialize (Hpast Hcall). lia.
    + unfold throttled in *. simpl. intros Hcall. specialize (Hpast Hcall). lia.
Qed.

Lemma reachable_throttle_timing (w : World) :
  reachable w -> throttle_timing w.
Proof.
  induction 1 as [w (Hm & Hq & _)|w w' Hr IH Hs].
  - unfold throttle_timing, throttled. rewrite Hm, Hq. simpl.
    split; [congruence|intros t []].
  - pose proof (reachable_timers_consistent w Hr) as Hc.
    pose proof (reachable_throttle_consistent w Hr) as Hok.
    destruct Hs as [ev w|t w Hin|t w Ht|a w].
    + destruct (passes_guards ev w) eqn:Hg.
      * destruct (is_end (type ev)) eqn:He.
        -- rewrite handleCameraEvent_end, _startUntriggerTimer_spec by assumption.
           destruct IH as [Hpast Hdue]. split; [exact Hpast|]. simpl.
           intros t Hin Hcb. apply in_app_iff in Hin. destruct Hin as [Hin|[Hin|[]]].
           ++ rewrite without_timer_of_eq in Hin. apply stop_timer_of_incl in Hin.
              apply Hdue; assumption.
           ++ subst t. discriminate Hcb.
        -- rewrite handleCameraEvent_start by assumption.
           apply throttle_timing_debounced.
           ++ apply throttle_consistent__setConditionStateIfNecessary. exact Hok.
           ++ unfold throttle_timing, throttled.
              rewrite _setConditionStateIfNecessary_manager.
              destruct (_setConditionStateIfNecessary_timeouts (triggered_at_now ev w))
                as (Hq' & _ & Hn'). rewrite Hq', Hn'. exact IH.
      * rewrite handleCameraEvent_discard by assumption. exact IH.
    + apply throttle_timing_fire; assumption.
    + destruct IH as [Hpast Hdue]. split; [|exact Hdue].
      change (throttled (with_now t w)) with (throttled w).
      intros Hcall. specialize (Hpast Hcall). simpl. lia.
    + exact IH.
Qed.

(** ** Letting time pass *)

Lemma fire_shrinks (t : Timeout) (w : World) :
  reachable w -> In t (timeouts w) ->
  (length (timeouts (fire t w)) < length (timeouts w))%nat.
Proof.
  intros Hr Hin. destruct (callback t) as [c|] eqn:Hcb.
  - apply (fire_untrigger_length t c w Hcb Hin).
  - rewrite (fire_throttle_timeouts t w (reachable_throttle_consistent w Hr)
               (reachable_throttle_timing w Hr) Hin Hcb).
    apply (filter_length_lt _ _ t Hin). rewrite Nat.eqb_refl. reflexivity.
Qed.

(** X11: time can always pass.  From a reachable state, with fuel for
    every pending timeout, [advance] reaches any time [t]: it ends in a
    reachable state at that time, no timeout that is left is due by [t],
    and the queue has not grown (running a timeout never arms another). *)
Theorem time_passes (fuel : nat) :
  forall (w : World) (t : Z),
    reachable w -> (length (timeouts w) <= fuel)%nat ->
    exists w',
      advance fuel t w = Some w' /\
      reachable w' /\
      now w' = Z.max (now w) t /\
      (forall next, In next (timeouts w') -> t < due next) /\
      (length (timeouts w') <= length (timeouts w))%nat.
Proof.
  induction fuel as [|fuel IH]; intros w t Hr Hlen; rewrite advance_eq.
  - destruct (timeouts w) eqn:Eq; [|simpl in Hlen; lia]. simpl.
    exists (with_now (Z.max (now w) t) w). repeat apply conj; try reflexivity.
    + apply (reachable_step w); [exact Hr|apply step_clock; lia].
    + simpl. rewrite Eq. intros next [].
    + simpl. rewrite Eq. simpl. lia.
  - assert (Hstay : (forall next, In next (timeouts w) -> t < due next) ->
                    exists w',
                      Some (with_now (Z.max (now w) t) w) = Some w' /\
                      reachable w' /\ now w' = Z.max (now w) t /\
                      (forall next, In next (timeouts w') -> t < due next) /\
                      (length (timeouts w') <= length (timeouts w))%nat).
    { intros Hall. exists (with_now (Z.max (now w) t) w).
      repeat apply conj; try reflexivity; [|exact Hall].
      apply (reachable_step w); [exact Hr|apply step_clock; lia]. }
    destruct (earliest (timeouts w)) as [next|] eqn:En.
    + pose proof (earliest_In _ _ En) as Hin.
      destruct (due next <=? t) eqn:Ed.
      * apply Z.leb_le in Ed.
        pose proof (fire_shrinks next w Hr Hin) as Hlt.
        destruct (IH (fire next w) t) as (w' & Ha & Hr' & Hn' & Hall & Hl').
        -- apply (reachable_step w); [exact Hr|apply step_fire; exact Hin].
        -- lia.
        -- exists w'. rewrite fire_now in Hn'.
           repeat apply conj; [exact Ha|exact Hr'|lia|exact Hall|lia].
      * apply Z.leb_gt in Ed. apply Hstay. intros next' Hin'.
        pose proof (earliest_least _ _ En next' Hin'). lia.
    + apply Hstay. apply earliest_None in En. rewrite En. intros next' [].
Qed.

Lemma time_passes_witness :
  exists w',
    advance 2 20000 armed_world = Some w' /\
    reachable w' /\
    now w' = Z.max (now armed_world) 20000 /\
    (forall next, In next (timeouts w') -> 20000 < due next) /\
    (length (timeouts w') <= length (timeouts armed_world))%nat.
Proof.
  apply (time_passes 2 armed_world 20000).
  - apply reachable_step with (w := handleCameraEvent start_A card_live).
    + apply reachable_step with (w := card_live).
      * apply reachable_initial. repeat split.
      * apply step_event.
    + apply step_event.
  - simpl. lia.
Defined.

(** ** The quiet period *)

(** A timeout that is not an untrigger timeout of [c] leaves [c] alone. *)
Lemma fire_other_camera (next : Timeout) (c : string) (w : World) :
  reachable w -> In next (timeouts w) -> callback next <> cb_untrigger c ->
  active_timers c (fire next w) = active_timers c w /\
  JSMap.get c (_triggeredCameras (manager (fire next w)))
    = JSMap.get c (_triggeredCameras (manager w)).
Proof.
  intros Hr Hin Hne.
  pose proof (reachable_timers_consistent w Hr) as Hc.
  assert (Hfilter : filter (is_untrigger_of c)
                      (filter (fun x => negb (Nat.eqb (handle x) (handle next))) (timeouts w))
                    = filter (is_untrigger_of c) (timeouts w)).
  { apply filter_filter_handle. intros x Hx Hh. destruct Hc as (Hnd & _).
    rewrite (NoDup_map_eq handle _ _ _ Hnd Hx Hin Hh).
    apply not_true_is_false. intros Hu. apply is_untrigger_of_iff in Hu.
    exact (Hne Hu). }
  rewrite fire_cameras. unfold active_timers.
  destruct (callback next) as [c'|] eqn:Hcb.
  - assert (Hcc : c <> c') by congruence.
    destruct (fire_untrigger_frame next c' w Hcb) as (_ & _ & Hq & _).
    rewrite Hq. split; [|apply get_delete_other; exact Hcc].
    rewrite (stop_timer_of_others c' c _ _ (nextHandle w)); [exact Hfilter| |exact Hcc].
    apply consistent_filter. exact Hc.
  - rewrite (fire_throttle_timeouts next w (reachable_throttle_consistent w Hr)
               (reachable_throttle_timing w Hr) Hin Hcb).
    split; [exact Hfilter|reflexivity].
Qed.

(** While no untrigger timeout of [c] falls due, time passes [c] by. *)
Lemma advance_keeps_camera (c : string) (fuel : nat) :
  forall (w : World) (t : Z),
    reachable w -> (length (timeouts w) <= fuel)%nat ->
    (forall next, In next (active_timers c w) -> t < due next) ->
    exists w',
      advance fuel t w = Some w' /\
      reachable w' /\
      active_timers c w' = active_timers c w /\
      JSMap.get c (_triggeredCameras (manager w'))
        = JSMap.get c (_triggeredCameras (manager w)).
Proof.
  induction fuel as [|fuel IH]; intros w t Hr Hlen Hlate; rewrite advance_eq.
  - destruct (timeouts w) eqn:Eq; [|simpl in Hlen; lia]. simpl.
    exists (with_now (Z.max (now w) t) w). repeat apply conj; try reflexivity.
    apply (reachable_step w); [exact Hr|apply step_clock; lia].
  - assert (Hstay : exists w',
                      Some (with_now (Z.max (now w) t) w) = Some w' /\
                      reachable w' /\
                      active_timers c w' = active_timers c w /\
                      JSMap.get c (_triggeredCameras (manager w'))
                        = JSMap.get c (_triggeredCameras (manager w))).
    { exists (with_now (Z.max (now w) t) w). repeat apply conj; try reflexivity.
      apply (reachable_step w); [exact Hr|apply step_clock; lia]. }
    destruct (earliest (timeouts w)) as [next|] eqn:En; [|exact Hstay].
    destruct (due next <=? t) eqn:Ed; [|exact Hstay].
    apply Z.leb_le in Ed. pose proof (earliest_In _ _ En) as Hin.
    assert (Hne : callback next <> cb_untrigger c).
    { intros Hcb. assert (Ha : In next (active_timers c w)).
      { apply filter_In. split; [exact Hin|apply is_untrigger_of_iff; exact Hcb]. }
      specialize (Hlate next Ha). lia. }
    destruct (fire_other_camera next c w Hr Hin Hne) as [Hact Hget].
    pose proof (fire_shrinks next w Hr Hin) as Hlt.
    destruct (IH (fire next w) t) as (w' & Ha & Hr' & Hact' & Hget').
    + apply (reachable_step w); [exact Hr|apply step_fire; exact Hin].
    + lia.
    + rewrite Hact. exact Hlate.
    + exists w'. repeat apply conj; [exact Ha|exact Hr'|congruence|congruence].
Qed.

(** Once the untrigger timeout of [c] is due, [c] is untriggered. *)
Lemma advance_untriggers (c : string) (armed : Timeout) (fuel : nat) :
  forall (w : World) (t : Z),
    reachable w -> (length (timeouts w) <= fuel)%nat ->
    active_timers c w = [armed] -> due armed <= t ->
    exists w',
      advance fuel t w = Some w' /\
      reachable w' /\
      active_timers c w' = [] /\
      JSMap.has c (_triggeredCameras (manager w')) = false.
Proof.
  induction fuel as [|fuel IH]; intros w t Hr Hlen Hact Hdue; rewrite advance_eq;
    assert (Harmed : In armed (timeouts w))
      by (assert (H : In armed (active_timers c w)) by (rewrite Hact; left; reflexivity);
          apply filter_In in H; tauto).
  - destruct (timeouts w); [contradiction|simpl in Hlen; lia].
  - destruct (earliest (timeouts w)) as [next|] eqn:En;
      [|apply earliest_None in En; rewrite En in Harmed; contradiction].
    pose proof (earliest_In _ _ En) as Hin.
    pose proof (earliest_least _ _ En armed Harmed) as Hmin.
    destruct (due next <=? t) eqn:Ed; [|apply Z.leb_gt in Ed; lia].
    pose proof (fire_shrinks next w Hr Hin) as Hlt.
    assert (Hr' : reachable (fire next w))
      by (apply (reachable_step w); [exact Hr|apply step_fire; exact Hin]).
    destruct (callback next) as [c'|] eqn:Hcb;
      [destruct (String.eqb c' c) eqn:Ec|].
    + apply String.eqb_eq in Ec. subst c'.
      assert (Hnone : active_timers c (fire next w) = []).
      { unfold active_timers.
        destruct (fire_untrigger_frame next c w Hcb) as (_ & _ & Hq & _). rewrite Hq.
        apply filter_none. intros x Hx. apply not_true_is_false. intros Hu.
        apply is_untrigger_of_iff in Hu.
        apply (stop_timer_of_none c _ _ (nextHandle w)) in Hx; [exact (Hx Hu)|].
        apply consistent_filter. apply (reachable_timers_consistent w Hr). }
      destruct (advance_keeps_camera c fuel (fire next w) t Hr' ltac:(lia))
        as (w' & Ha & Hrw & Hact' & Hget').
      * rewrite Hnone. intros x [].
      * exists w'. repeat apply conj; [exact Ha|exact Hrw|congruence|].
        unfold JSMap.has. rewrite Hget'.
        pose proof (fire_untrigger_removes next c w Hcb) as Hrem.
        unfold JSMap.has in Hrem. exact Hrem.
    + apply String.eqb_neq in Ec.
      destruct (fire_other_camera next c w Hr Hin) as [Hact' _]; [congruence|].
      apply (IH (fire next w) t Hr'); [lia|congruence|exact Hdue].
    + destruct (fire_other_camera next c w Hr Hin) as [Hact' _]; [congruence|].
      apply (IH (fire next w) t Hr'); [lia|congruence|exact Hdue].
Qed.

(** What an 'end' event that passes the guards leaves behind. *)
Lemma end_event_arms (ev : CameraEvent) (w : World) :
  reachable w -> passes_guards ev w = true -> is_end (type ev) = true ->
  active_timers (cameraID ev) (handleCameraEvent ev w)
    = [untrigger_timeout (cameraID ev) (untrigger_delay w) w] /\
  _triggeredCameras (manager (handleCameraEvent ev w)) = _triggeredCameras (manager w) /\
  (length (timeouts (handleCameraEvent ev w)) <= S (length (timeouts w)))%nat.
Proof.
  intros Hr Hg He. pose proof (reachable_timers_consistent w Hr) as Hc.
  rewrite handleCameraEvent_end, _startUntriggerTimer_spec by assumption.
  simpl. split; [|split; [reflexivity|]].
  - unfold active_timers. simpl. rewrite filter_app. simpl.
    unfold is_untrigger_of at 2. simpl. rewrite String.eqb_refl.
    rewrite filter_none; [reflexivity|].
    intros t Ht. apply not_true_is_false. intros Hu.
    apply is_untrigger_of_iff in Hu.
    exact (stop_timer_of_none (cameraID ev) _ _ _ Hc t Ht Hu).
  - rewrite length_app, without_timer_of_eq. simpl.
    pose proof (stop_timer_of_length (cameraID ev)
                  (_triggeredCameraTimers (manager w)) (timeouts w)). lia.
Qed.

(** X10: after an 'end' event that passes the guards, and with no further
    event, the camera stays as it was (triggered with the same timestamp,
    timer armed) until [untrigger_seconds] have passed, and once they have
    passed the camera is no longer triggered and has no timer pending.
    [untrigger_seconds] is a whole number [ms] of milliseconds within the
    range of the platform's timers. *)
Theorem untriggered_after_quiet_period (ev : CameraEvent) (w : World)
    (tc : TriggersConfig) (ms : Z) (fuel : nat) (t : Z) :
  reachable w -> passes_guards ev w = true -> type ev = ev_end ->
  triggersConfig w = Some tc ->
  seconds_are_ms (untrigger_seconds tc) ms -> 0 <= ms <= longest_delay ->
  (length (timeouts w) < fuel)%nat ->
  let c := cameraID ev in
  let deadline := now w + ms in
  exists w',
    advance fuel t (handleCameraEvent ev w) = Some w' /\
    if t <? deadline
    then JSMap.get c (_triggeredCameras (manager w'))
           = JSMap.get c (_triggeredCameras (manager w)) /\
         (exists armed, active_timers c w' = [armed] /\ due armed = deadline)
    else JSMap.has c (_triggeredCameras (manager w')) = false /\
         active_timers c w' = [].
Proof.
  intros Hr Hg Hty Htc Hs Hms Hfuel c deadline.
  assert (He : is_end (type ev) = true) by (rewrite Hty; reflexivity).
  destruct (end_event_arms ev w Hr Hg He) as (Hact & Hcams & Hlen). fold c in Hact.
  assert (Hr' : reachable (handleCameraEvent ev w))
    by (apply (reachable_step w); [exact Hr|apply step_event]).
  set (armed := untrigger_timeout c (untrigger_delay w) w) in *.
  assert (Hdue : due armed = deadline).
  { unfold armed, untrigger_timeout, deadline. simpl.
    rewrite (untrigger_delay_in_range w tc ms Htc Hs Hms). reflexivity. }
  destruct (t <? deadline) eqn:Et.
  - apply Z.ltb_lt in Et.
    destruct (advance_keeps_camera c fuel (handleCameraEvent ev w) t Hr' ltac:(lia))
      as (w' & Ha & _ & Hact' & Hget').
    + rewrite Hact. intros next [Hn|[]]. subst next. lia.
    + exists w'. split; [exact Ha|]. split; [congruence|].
      exists armed. split; [congruence|exact Hdue].
  - apply Z.ltb_ge in Et.
    destruct (advance_untriggers c armed fuel
                (handleCameraEvent ev w) t Hr' ltac:(lia) Hact ltac:(lia))
      as (w' & Ha & _ & Hact' & Hhas).
    exists w'. split; [exact Ha|]. split; assumption.
Qed.

Lemma untriggered_after_quiet_period_witness :
  exists w',
    advance 3 1500 (handleCameraEvent end_A (handleCameraEvent start_A card_short))
      = Some w' /\
    JSMap.has "A"%string (_triggeredCameras (manager w')) = false /\
    active_timers "A" w' = [].
Proof.
  refine (untriggered_after_quiet_period end_A (handleCameraEvent start_A card_short)
            _ 1500 3 1500 _ eq_refl eq_refl eq_refl _ _ _).
  - apply reachable_step with (w := card_short).
    + apply reachable_initial. repeat split.
    + apply step_event.
  - vm_compute. reflexivity.
  - unfold longest_delay. lia.
  - simpl. lia.
Defined.

(** ** The timer map holds live timers only *)

Lemma fire_timers (t : Timeout) (w : World) :
  _triggeredCameraTimers (manager (fire t w)) =
    match callback t with
    | cb_untrigger c => JSMap.delete c (_triggeredCameraTimers (manager w))
    | cb_timerExpired => _triggeredCameraTimers (manager w)
    end.
Proof.
  unfold fire, run_callback. destruct (callback t) as [c|].
  - rewrite _untriggerAction_spec. simpl.
    rewrite _setConditionStateIfNecessary_manager. simpl.
    destruct (untrigger_navigates _); reflexivity.
  - rewrite (same_timers _ _ (same_tracking_timerExpired _)). reflexivity.
Qed.

Lemma start_event_active_timers (ev : CameraEvent) (c : string) (w : World) :
  reachable w -> passes_guards ev w = true -> is_end (type ev) = false ->
  active_timers c (handleCameraEvent ev w) = active_timers c w.
Proof.
  intros Hr Hg He. unfold active_timers.
  rewrite handleCameraEvent_start by assumption.
  rewrite debounced_keeps.
  - rewrite (proj1 (_setConditionStateIfNecessary_timeouts _)). reflexivity.
  - intros t Hcb. unfold is_untrigger_of. rewrite Hcb. reflexivity.
  - apply throttle_consistent__setConditionStateIfNecessary.
    apply (reachable_throttle_consistent w Hr).
Qed.

Lemma end_event_other_camera (ev : CameraEvent) (c : string) (w : World) :
  reachable w -> passes_guards ev w = true -> is_end (type ev) = true ->
  c <> cameraID ev ->
  active_timers c (handleCameraEvent ev w) = active_timers c w /\
  JSMap.get c (_triggeredCameraTimers (manager (handleCameraEvent ev w)))
    = JSMap.get c (_triggeredCameraTimers (manager w)).
Proof.
  intros Hr Hg He Hne. pose proof (reachable_timers_consistent w Hr) as Hc.
  rewrite handleCameraEvent_end, _startUntriggerTimer_spec by assumption.
  simpl. split.
  - unfold active_timers. simpl. rewrite filter_app. simpl.
    unfold is_untrigger_of at 2. simpl.
    destruct (String.eqb (cameraID ev) c) eqn:E;
      [apply String.eqb_eq in E; congruence|].
    rewrite app_nil_r, without_timer_of_eq.
    apply (stop_timer_of_others (cameraID ev) c _ _ _ Hc Hne).
  - rewrite get_set_other, get_delete_other by exact Hne. reflexivity.
Qed.

Lemma reachable_timers_live (w : World) : reachable w -> timers_live w.
Proof.
  induction 1 as [w (Hm & _)|w w' Hr IH Hs].
  - intros c tm. rewrite Hm. discriminate.
  - destruct Hs as [ev w|next w Hin|t w Ht|a w]; try exact IH.
    + destruct (passes_guards ev w) eqn:Hg.
      * destruct (is_end (type ev)) eqn:He.
        -- intros c tm Hget. destruct (String.eqb c (cameraID ev)) eqn:E.
           ++ apply String.eqb_eq in E. subst c.
              destruct (end_event_arms ev w Hr Hg He) as (Hact & _).
              exists (untrigger_timeout (cameraID ev) (untrigger_delay w) w). split; [exact Hact|].
              rewrite handleCameraEvent_end, _startUntriggerTimer_spec in Hget
                by assumption.
              simpl in Hget. rewrite get_set_same in Hget. inversion Hget. reflexivity.
           ++ apply String.eqb_neq in E.
              destruct (end_event_other_camera ev c w Hr Hg He E) as [Hact Hg'].
              rewrite Hg' in Hget. rewrite Hact. apply (IH c tm Hget).
        -- intros c tm Hget.
           rewrite (proj1 (handleCameraEvent_start_timers ev w Hg He)) in Hget.
           rewrite (start_event_active_timers ev c w Hr Hg He). apply (IH c tm Hget).
      * rewrite handleCameraEvent_discard by assumption. exact IH.
    + intros c tm Hget. rewrite fire_timers in Hget.
      assert (Hne : callback next <> cb_untrigger c).
      { intros Hcb. rewrite Hcb, get_delete_same in Hget. discriminate. }
      destruct (fire_other_camera next c w Hr Hin Hne) as [Hact _].
      rewrite Hact. apply (IH c tm).
      destruct (callback next) as [c'|]; [|exact Hget].
      rewrite get_delete_other in Hget; [exact Hget|congruence].
Qed.

(** X12: the timer map never holds a dead timer: in every reachable state
    each of its entries names the one pending untrigger timeout of its
    camera, so a camera has a timer entry exactly when an untrigger
    timeout is pending for it. *)
Theorem timer_entries_are_live (w : World) (c : string) :
  reachable w ->
  (JSMap.has c (_triggeredCameraTimers (manager w)) = true <-> active_timers c w <> []) /\
  (forall tm,
      JSMap.get c (_triggeredCameraTimers (manager w)) = Some tm ->
      exists t, active_timers c w = [t] /\ _timer tm = Some (handle t)).
Proof.
  intros Hr. pose proof (reachable_timers_live w Hr) as Hlive.
  pose proof (reachable_timers_consistent w Hr) as (_ & _ & Hmap & _).
  split.
  - unfold JSMap.has. split.
    + destruct (JSMap.get c _) as [tm|] eqn:E; [|discriminate].
      intros _. destruct (Hlive c tm E) as (t & Ht & _). rewrite Ht. discriminate.
    + intros Hne. destruct (active_timers c w) as [|t l] eqn:E; [congruence|].
      assert (Hin : In t (active_timers c w)) by (rewrite E; left; reflexivity).
      apply filter_In in Hin. destruct Hin as [Hin Hu].
      apply is_untrigger_of_iff in Hu. rewrite (Hmap t c Hin Hu). reflexivity.
  - intros tm Hget. destruct (Hlive c tm Hget) as (t & Ht & Htm).
    exists t. split; [exact Ht|]. rewrite Htm. reflexivity.
Qed.

Lemma timer_entries_are_live_witness :
  JSMap.has "A"%string (_triggeredCameraTimers (manager armed_world)) = true
  <-> active_timers "A" armed_world <> [].
Proof.
  refine (proj1 (timer_entries_are_live armed_world "A" _)).
  apply reachable_step with (w := handleCameraEvent start_A card_live).
  - apply reachable_step with (w := card_live).
    + apply reachable_initial. repeat split.
    + apply step_event.
  - apply step_event.
Defined.

(** ** No call is lost in the throttle *)

Lemma stop_timer_of_keeps_throttle (c : string) timers q next (t : Timeout) :
  consistent timers q next -> In t q -> callback t = cb_timerExpired ->
  In t (stop_timer_of c timers q).
Proof.
  intros (_ & _ & _ & Hent) Hin Hcb. unfold stop_timer_of.
  destruct (JSMap.get c timers) as [[[h|]]|] eqn:E; try exact Hin.
  apply filter_In. split; [exact Hin|]. apply negb_true_iff, Nat.eqb_neq.
  intros Heq. destruct (Hent c h E) as [_ Hown].
  rewrite (Hown t Hin Heq) in Hcb. discriminate.
Qed.

(** What a timeout of the throttle does when it runs. *)
Lemma fire_throttle_closes (t : Timeout) (w : World) :
  throttle_consistent w -> throttle_timing w ->
  In t (timeouts w) -> callback t = cb_timerExpired ->
  timerId (throttled (fire t w)) = None /\
  lastArgs (throttled (fire t w)) = None /\
  executions (log (fire t w)) =
    match lastArgs (throttled w) with
    | Some ev => (Z.max (now w) (due t), ev) :: executions (log w)
    | None => executions (log w)
    end.
Proof.
  intros Hok Htm Hin Hcb.
  pose proof (fire_throttle_shouldInvoke t w Hok Htm Hin Hcb) as Hsi.
  destruct Hok as ((_ & _ & _ & _ & Htr) & _).
  unfold fire, run_callback. rewrite Hcb.
  rewrite timerExpired_trailing; [|exact Hsi|exact Htr].
  change (lastArgs (throttled (clearTimeout ?h (with_now ?n w))))
    with (lastArgs (throttled w)).
  destruct (lastArgs (throttled w)) as [ev|].
  - rewrite _triggerAction_frame. repeat split.
    simpl log. rewrite _triggerAction_executions. reflexivity.
  - repeat split.
Qed.

Lemma throttle_pending_debounced (ev : CameraEvent) (w : World) :
  timers_consistent w -> throttle_consistent w -> throttle_pending w ->
  throttle_pending (debounced ev w).
Proof.
  intros Hc Hok [Hpend Hwait].
  pose proof Hok as ((Hw & Hl & Hm & Hmw & Htr) & Hq & Hid).
  assert (Hstart : forall (v : World) (ms : Z),
             ms = 1000 -> throttle_pending (startTimer ms v)).
  { intros v ms Hms. split.
    - intros h Hh. simpl in Hh. inversion Hh; subst h.
      eexists. split; [simpl; apply in_or_app; right; left; reflexivity|].
      simpl. rewrite Hms. change (ToInt32 1000) with 1000. repeat split. lia.
    - simpl. discriminate. }
  assert (Hinvoke : forall (v : World) (time : Z),
             throttle_pending v -> throttle_pending (invokeFunc time v)).
  { intros v time [Hp _]. split.
    - intros h Hh. destruct (invokeFunc_timeouts time v) as (Hq' & _).
      destruct (invokeFunc_throttle time v) as (_ & _ & Hn').
      rewrite Hq', Hn'. apply Hp. revert Hh. unfold invokeFunc.
      destruct (lastArgs (throttled v)); [rewrite _triggerAction_frame|]; auto.
    - unfold invokeFunc.
      destruct (lastArgs (throttled v)); [rewrite _triggerAction_frame|];
        simpl; congruence. }
  unfold debounced.
  destruct (shouldInvoke (throttled w) (now w)) eqn:Hsi;
    destruct (timerId (throttled _)) as [h|] eqn:E; simpl in E.
  - change (maxing (throttled (with_throttle ?d w))) with (maxing d). simpl maxing.
    rewrite Hm. apply Hinvoke. apply Hstart; exact Hw.
  - unfold leadingEdge.
    change (leading (throttled (startTimer ?ms (with_throttle ?d ?u)))) with (leading d).
    simpl leading. rewrite Hl. apply Hinvoke. apply Hstart; exact Hw.
  - split.
    + intros h' Hh'. apply Hpend. simpl in Hh'. rewrite E in Hh'. exact Hh'.
    + intros _. simpl. rewrite E. discriminate.
  - apply Hstart; exact Hw.
Qed.

Lemma reachable_throttle_pending (w : World) :
  reachable w -> throttle_pending w.
Proof.
  induction 1 as [w (Hm & Hq & _)|w w' Hr IH Hs].
  - unfold throttle_pending, throttled. rewrite Hm. simpl. split; congruence.
  - pose proof (reachable_timers_consistent w Hr) as Hc.
    pose proof (reachable_throttle_consistent w Hr) as Hok.
    pose proof (reachable_throttle_timing w Hr) as Htm.
    destruct IH as [Hpend Hwait].
    destruct Hs as [ev w|next w Hin|t w Ht|a w].
    + destruct (passes_guards ev w) eqn:Hg.
      * destruct (is_end (type ev)) eqn:He.
        -- rewrite handleCameraEvent_end, _startUntriggerTimer_spec by assumption.
           split; [|exact Hwait]. intros h Hh.
           destruct (Hpend h Hh) as (t & Hin & Hh' & Hcb & Hdue).
           exists t. simpl. repeat split; try assumption.
           apply in_or_app. left. rewrite without_timer_of_eq.
           apply (stop_timer_of_keeps_throttle _ _ _ _ t Hc Hin Hcb).
        -- rewrite handleCameraEvent_start by assumption.
           apply throttle_pending_debounced.
           ++ apply timers_consistent__setConditionStateIfNecessary. exact Hc.
           ++ apply throttle_consistent__setConditionStateIfNecessary. exact Hok.
           ++ unfold throttle_pending, throttled.
              rewrite _setConditionStateIfNecessary_manager.
              destruct (_setConditionStateIfNecessary_timeouts (triggered_at_now ev w))
                as (Hq' & _ & Hn'). rewrite Hq', Hn'. split; assumption.
      * rewrite handleCameraEvent_discard by assumption. split; assumption.
    + destruct (callback next) as [c|] eqn:Hcb.
      * destruct (fire_untrigger_frame next c w Hcb) as (Hth & Hnow & Hq & _).
        unfold throttle_pending. rewrite Hth, Hnow, Hq. split; [|exact Hwait].
        intros h Hh. destruct (Hpend h Hh) as (t & Hint & Hh' & Hcbt & Hdue).
        exists t. repeat split; try assumption; [|lia].
        apply (stop_timer_of_keeps_throttle c _ _ (nextHandle w));
          [apply consistent_filter; exact Hc| |exact Hcbt].
        apply filter_In. split; [exact Hint|]. apply negb_true_iff, Nat.eqb_neq.
        intros Heq. destruct Hc as (Hnd & _).
        rewrite (NoDup_map_eq handle _ _ _ Hnd Hint Hin Heq) in Hcbt. congruence.
      * destruct (fire_throttle_closes next w Hok Htm Hin Hcb) as (Hid & Hargs & _).
        split; [rewrite Hid; discriminate|rewrite Hargs; congruence].
    + split; [|exact Hwait]. intros h Hh.
      destruct (Hpend h Hh) as (t' & Hin & Hh' & Hcb & Hdue).
      exists t'. simpl. repeat split; try assumption. lia.
    + split; assumption.
Qed.

(** The two outcomes of the throttled call. *)
Lemma debounced_outcome (ev : CameraEvent) (w : World) :
  throttle_settings (throttled w) ->
  (executions (log (debounced ev w)) = (now w, ev) :: executions (log w) /\
   lastArgs (throttled (debounced ev w)) = None) \/
  (executions (log (debounced ev w)) = executions (log w) /\
   lastArgs (throttled (debounced ev w)) = Some ev).
Proof.
  intros (Hw & Hl & Hm & Hmw & Htr). unfold debounced.
  destruct (shouldInvoke (throttled w) (now w)) eqn:Hsi;
    destruct (timerId (throttled _)) as [h|] eqn:E; simpl in E.
  - change (maxing (throttled (with_throttle ?d w))) with (maxing d). simpl maxing.
    rewrite Hm. left. unfold invokeFunc. simpl lastArgs.
    rewrite _triggerAction_frame, _triggerAction_executions. split; reflexivity.
  - unfold leadingEdge.
    change (leading (throttled (startTimer ?ms (with_throttle ?d ?u)))) with (leading d).
    simpl leading. rewrite Hl. left. unfold invokeFunc. simpl lastArgs.
    rewrite _triggerAction_frame, _triggerAction_executions. split; reflexivity.
  - right. split; reflexivity.
  - right. split; reflexivity.
Qed.

(** X14: no call is lost in the throttle.  The action of a start-type
    event that passes the guards is either executed at once, or the event
    waits in the throttle; and whenever an event waits, a timeout of the
    throttle is pending, due within a second, whose callback executes the
    action of the waiting event. *)
Theorem no_call_lost (w : World) :
  reachable w ->
  (forall ev,
      passes_guards ev w = true -> is_end (type ev) = false ->
      executions (log (handleCameraEvent ev w)) = (now w, ev) :: executions (log w) \/
      (executions (log (handleCameraEvent ev w)) = executions (log w) /\
       lastArgs (throttled (handleCameraEvent ev w)) = Some ev)) /\
  (forall ev,
      lastArgs (throttled w) = Some ev ->
      exists t,
        In t (timeouts w) /\ callback t = cb_timerExpired /\
        due t <= now w + 1000 /\
        executions (log (fire t w))
          = (Z.max (now w) (due t), ev) :: executions (log w)).
Proof.
  intros Hr.
  pose proof (reachable_throttle_consistent w Hr) as Hok.
  pose proof (reachable_throttle_timing w Hr) as Htm.
  destruct (reachable_throttle_pending w Hr) as [Hpend Hwait].
  split.
  - intros ev Hg He. rewrite handleCameraEvent_start by assumption.
    set (v0 := _setConditionStateIfNecessary (triggered_at_now ev w)).
    assert (Hth : throttled v0 = throttled w).
    { unfold throttled, v0. rewrite _setConditionStateIfNecessary_manager. reflexivity. }
    assert (Hn : now v0 = now w)
      by apply (_setConditionStateIfNecessary_timeouts (triggered_at_now ev w)).
    assert (Hex : executions (log v0) = executions (log w)).
    { unfold v0. rewrite _setConditionStateIfNecessary_executions. reflexivity. }
    destruct (debounced_outcome ev v0) as [[H1 H2]|[H1 H2]].
    + rewrite Hth. apply Hok.
    + left. rewrite H1, Hn, Hex. reflexivity.
    + right. rewrite H1, Hex. split; [reflexivity|exact H2].
  - intros ev Hargs.
    destruct (timerId (throttled w)) as [h|] eqn:E;
      [|exfalso; apply Hwait; [rewrite Hargs; discriminate|reflexivity]].
    destruct (Hpend h eq_refl) as (t & Hin & _ & Hcb & Hdue).
    exists t. repeat split; try assumption.
    destruct (fire_throttle_closes t w Hok Htm Hin Hcb) as (_ & _ & Hex).
    rewrite Hex, Hargs. reflexivity.
Qed.

Lemma no_call_lost_witness :
  executions (log (handleCameraEvent start_B armed_world))
    = (now armed_world, start_B) :: executions (log armed_world) \/
  (executions (log (handleCameraEvent start_B armed_world))
     = executions (log armed_world) /\
   lastArgs (throttled (handleCameraEvent start_B armed_world)) = Some start_B).
Proof.
  refine (proj1 (no_call_lost armed_world _) start_B eq_refl eq_refl).
  apply reachable_step with (w := handleCameraEvent start_A card_live).
  - apply reachable_step with (w := card_live).
    + apply reachable_initial. repeat split.
    + apply step_event.
  - apply step_event.
Defined.

(** * The engine factory *)

Lemma Engine_eqb_refl (k : EngineFactory.Engine) : EngineFactory.Engine_eqb k k = true.
Proof. destruct k; simpl; [reflexivity|apply String.eqb_refl]. Qed.

Lemma engines_get_set (k : EngineFactory.Engine) (e : EngineFactory.CameraManagerEngine)
    (m : list (EngineFactory.Engine * EngineFactory.CameraManagerEngine)) :
  EngineFactory.engines_get k (EngineFactory.engines_set k e m) = Some e.
Proof.
  induction m as [|[k' e'] m IH]; simpl.
  - rewrite Engine_eqb_refl. reflexivity.
  - destruct (EngineFactory.Engine_eqb k' k) eqn:E; simpl; rewrite E; [reflexivity|exact IH].
Qed.

(** X15: [getEngine] caches: asking again for the same kind returns the
    same answer (for a created engine, the very same object) and leaves
    the factory as it is. *)
Theorem getEngine_cached (engine : EngineFactory.Engine) (f : EngineFactory.Factory) :
  EngineFactory.getEngine engine (snd (EngineFactory.getEngine engine f))
    = EngineFactory.getEngine engine f.
Proof.
  unfold EngineFactory.getEngine at 2 3.
  destruct (EngineFactory.engines_get engine (EngineFactory._engines f)) as [e|] eqn:E.
  - simpl. unfold EngineFactory.getEngine. rewrite E. reflexivity.
  - destruct engine as [|name]; simpl.
    + unfold EngineFactory.getEngine. simpl.
      rewrite (engines_get_set EngineFactory.Frigate). reflexivity.
    + unfold EngineFactory.getEngine. rewrite E. reflexivity.
Qed.

(** Whatever is asked of it, a factory is either new or holds the one
    engine it created. *)
Lemma produced_new_or_warm (f : EngineFactory.Factory) :
  EngineFactory.produced f -> f = EngineFactory.new_factory \/ f = warm_factory.
Proof.
  assert (Hget : forall engine g,
             g = EngineFactory.new_factory \/ g = warm_factory ->
             snd (EngineFactory.getEngine engine g) = EngineFactory.new_factory \/
             snd (EngineFactory.getEngine engine g) = warm_factory).
  { intros engine g [-> | ->]; destruct engine; simpl; auto. }
  assert (Hcam : forall c g,
             g = EngineFactory.new_factory \/ g = warm_factory ->
             snd (EngineFactory.getEngineForCamera c g) = EngineFactory.new_factory \/
             snd (EngineFactory.getEngineForCamera c g) = warm_factory).
  { intros c g Hg. unfold EngineFactory.getEngineForCamera.
    destruct c as [c|]; [|exact Hg].
    destruct (EngineFactory.has_camera_name c); [apply Hget|]; exact Hg. }
  assert (Hvisit : forall cameras ids out g,
             g = EngineFactory.new_factory \/ g = warm_factory ->
             snd (fold_left (EngineFactory.visit cameras) ids (out, g))
               = EngineFactory.new_factory \/
             snd (fold_left (EngineFactory.visit cameras) ids (out, g)) = warm_factory).
  { intros cameras ids. induction ids as [|x ids IH]; intros out g Hg; [exact Hg|].
    cbn [fold_left].
    assert (Hstep : snd (EngineFactory.visit cameras (out, g) x)
                      = EngineFactory.new_factory \/
                    snd (EngineFactory.visit cameras (out, g) x) = warm_factory).
    { unfold EngineFactory.visit.
      destruct (JSMap.get x cameras) as [c|]; [|exact Hg].
      pose proof (Hcam (Some c) g Hg) as Hc.
      destruct (EngineFactory.getEngineForCamera (Some c) g) as [[e|] g']; exact Hc. }
    destruct (EngineFactory.visit cameras (out, g) x) as [out' g'].
    apply IH. exact Hstep. }
  assert (Hids : forall cameras ids g,
             g = EngineFactory.new_factory \/ g = warm_factory ->
             snd (EngineFactory.getEnginesForCameraIDs cameras ids g)
               = EngineFactory.new_factory \/
             snd (EngineFactory.getEnginesForCameraIDs cameras ids g) = warm_factory).
  { intros cameras ids g Hg. unfold EngineFactory.getEnginesForCameraIDs.
    pose proof (Hvisit cameras ids [] g Hg) as H.
    destruct (fold_left _ ids ([], g)) as [out g']. exact H. }
  induction 1 as [|engine f _ IH|c f _ IH|cameras ids f _ IH|cameras m f _ IH|cameras f _ IH].
  - left. reflexivity.
  - apply Hget. exact IH.
  - apply Hcam. exact IH.
  - apply Hids. exact IH.
  - unfold EngineFactory.getEngineForMedia. destruct m as [x|]; [|exact IH].
    destruct (String.eqb x ""); [exact IH|].
    pose proof (Hids cameras [x] f IH) as H.
    destruct (EngineFactory.getEnginesForCameraIDs cameras [x] f) as [[[|[e l] out]|] f'];
      exact H.
  - unfold EngineFactory.getAllEngines.
    pose proof (Hids cameras (JSMap.keys cameras) f IH) as H.
    destruct (EngineFactory.getEnginesForCameraIDs cameras (JSMap.keys cameras) f)
      as [[out|] f']; exact H.
Qed.

(** X16: however it is used, a factory creates at most one engine; the
    engine [getEngine] hands out is always that one, of kind Frigate, and
    for any other kind [getEngine] returns null and creates nothing. *)
Theorem factory_single_engine (f : EngineFactory.Factory) :
  EngineFactory.produced f ->
  (EngineFactory.created f <= 1)%nat /\
  EngineFactory.getEngine EngineFactory.Frigate f = (Some first_engine, warm_factory) /\
  (forall name,
      EngineFactory.getEngine (EngineFactory.OtherEngine name) f = (None, f)).
Proof.
  intros Hp. destruct (produced_new_or_warm f Hp) as [-> | ->]; simpl;
    repeat split; lia.
Qed.

Lemma factory_single_engine_witness :
  EngineFactory.getEngine EngineFactory.Frigate
    (snd (EngineFactory.getAllEngines cameras_example EngineFactory.new_factory))
    = (Some first_engine, warm_factory).
Proof.
  apply (factory_single_engine
           (snd (EngineFactory.getAllEngines cameras_example EngineFactory.new_factory))).
  apply EngineFactory.produced_getAllEngines. apply EngineFactory.produced_new.
Defined.

Lemma Set_add_new (x : string) (s : list string) :
  ~ In x s -> EngineFactory.Set_add x s = s ++ [x].
Proof.
  intros Hnin. unfold EngineFactory.Set_add.
  destruct (existsb (String.eqb x) s) eqn:E; [|reflexivity].
  apply existsb_exists in E. destruct E as (y & Hy & Heq).
  apply String.eqb_eq in Heq. subst y. contradiction.
Qed.

Lemma visit_grouped (cameras : list (string * EngineFactory.CameraConfig))
    (done : list string) (f : EngineFactory.Factory) (x : string) :
  f = EngineFactory.new_factory \/ f = warm_factory ->
  (done <> [] -> f = warm_factory) -> ~ In x done ->
  EngineFactory.visit cameras (grouped done, f) x =
    if EngineFactory.resolvable cameras x
    then (grouped (done ++ [x]), warm_factory)
    else (grouped done, f).
Proof.
  intros Hf Hwarm Hnin. unfold EngineFactory.visit, EngineFactory.resolvable.
  destruct (JSMap.get x cameras) as [c|]; [|reflexivity].
  unfold EngineFactory.getEngineForCamera.
  destruct (EngineFactory.has_camera_name c); [|reflexivity].
  destruct done as [|d done].
  - destruct Hf as [-> | ->]; reflexivity.
  - rewrite (Hwarm ltac:(discriminate)). simpl.
    rewrite (Set_add_new x (d :: done) Hnin). reflexivity.
Qed.

Lemma fold_visit_grouped (cameras : list (string * EngineFactory.CameraConfig))
    (ids : list string) :
  forall (done : list string) (f : EngineFactory.Factory),
    f = EngineFactory.new_factory \/ f = warm_factory ->
    (done <> [] -> f = warm_factory) -> NoDup (done ++ ids) ->
    fold_left (EngineFactory.visit cameras) ids (grouped done, f) =
      (grouped (done ++ filter (EngineFactory.resolvable cameras) ids),
       match filter (EngineFactory.resolvable cameras) ids with
       | [] => f
       | _ => warm_factory
       end).
Proof.
  induction ids as [|x ids IH]; intros done f Hf Hwarm Hnd.
  - simpl. rewrite app_nil_r. reflexivity.
  - cbn [fold_left filter].
    assert (Hnin : ~ In x done).
    { intros Hin. apply NoDup_remove_2 in Hnd. apply Hnd.
      apply in_or_app. left. exact Hin. }
    rewrite (visit_grouped cameras done f x Hf Hwarm Hnin).
    destruct (EngineFactory.resolvable cameras x).
    + rewrite IH.
      * rewrite <- app_assoc. simpl.
        destruct (filter (EngineFactory.resolvable cameras) ids); reflexivity.
      * right. reflexivity.
      * intros _. reflexivity.
      * rewrite <- app_assoc. simpl. exact Hnd.
    + apply IH; [exact Hf|exact Hwarm|].
      apply NoDup_remove_1 in Hnd. exact Hnd.
Qed.

(** The result of [getEnginesForCameraIDs], for the lemmas below. *)
Lemma getEnginesForCameraIDs_groups_aux (cameras : list (string * EngineFactory.CameraConfig))
    (cameraIDs : list string) (f : EngineFactory.Factory) :
  EngineFactory.produced f -> NoDup cameraIDs ->
  EngineFactory.getEnginesForCameraIDs cameras cameraIDs f =
    match filter (EngineFactory.resolvable cameras) cameraIDs with
    | [] => (None, f)
    | served => (Some [(first_engine, served)], warm_factory)
    end.
Proof.
  intros Hp Hnd. unfold EngineFactory.getEnginesForCameraIDs.
  change (@nil (EngineFactory.CameraManagerEngine * list string)) with (grouped []).
  rewrite (fold_visit_grouped cameras cameraIDs [] f (produced_new_or_warm f Hp));
    [|intros H; congruence|exact Hnd].
  simpl. destruct (filter (EngineFactory.resolvable cameras) cameraIDs); reflexivity.
Qed.

(** X17: [getEnginesForCameraIDs] gives all the cameras that can be
    served (known to the card and configured with a camera name), in the
    order they were asked for, to the one engine; it returns null exactly
    when none of the cameras can be served, and then creates nothing. *)
Theorem getEnginesForCameraIDs_groups (cameras : list (string * EngineFactory.CameraConfig))
    (cameraIDs : list string) (f : EngineFactory.Factory) :
  EngineFactory.produced f -> NoDup cameraIDs ->
  EngineFactory.getEnginesForCameraIDs cameras cameraIDs f =
    match filter (EngineFactory.resolvable cameras) cameraIDs with
    | [] => (None, f)
    | served => (Some [(first_engine, served)], warm_factory)
    end.
Proof.
  intros Hp Hnd.
  pose proof (getEnginesForCameraIDs_groups_aux cameras cameraIDs f Hp Hnd) as H.
  destruct (filter (EngineFactory.resolvable cameras) cameraIDs) as [|x served];
    exact H.
Qed.

Lemma getEnginesForCameraIDs_groups_witness :
  EngineFactory.getEnginesForCameraIDs cameras_example
    ["back"; "unknown"; "birdseye"; "front"]%string EngineFactory.new_factory
    = (Some [(first_engine, ["back"; "front"]%string)], warm_factory).
Proof.
  apply (getEnginesForCameraIDs_groups cameras_example
           ["back"; "unknown"; "birdseye"; "front"]%string EngineFactory.new_factory).
  - apply EngineFactory.produced_new.
  - repeat constructor; simpl; intuition discriminate.
Defined.

(** X18: [getAllEngines] returns the one engine when some camera is
    configured with a camera name and null otherwise; [getEngineForMedia]
    returns the engine exactly when the media has a camera ID that can be
    served. *)
Theorem factory_lookups (cameras : list (string * EngineFactory.CameraConfig))
    (f : EngineFactory.Factory) :
  EngineFactory.produced f -> NoDup (JSMap.keys cameras) ->
  fst (EngineFactory.getAllEngines cameras f) =
    (if existsb (EngineFactory.resolvable cameras) (JSMap.keys cameras)
     then Some [first_engine] else None) /\
  (forall mediaCameraID,
      fst (EngineFactory.getEngineForMedia cameras mediaCameraID f) =
        match mediaCameraID with
        | Some cameraID =>
            if negb (String.eqb cameraID "") && EngineFactory.resolvable cameras cameraID
            then Some first_engine else None
        | None => None
        end).
Proof.
  intros Hp Hnd. split.
  - unfold EngineFactory.getAllEngines.
    rewrite (getEnginesForCameraIDs_groups_aux cameras (JSMap.keys cameras) f Hp Hnd).
    induction (JSMap.keys cameras) as [|x ids IH]; [reflexivity|].
    simpl. destruct (EngineFactory.resolvable cameras x); [reflexivity|].
    simpl. inversion Hnd; subst. destruct (filter _ ids) eqn:E.
    + destruct (existsb _ ids) eqn:Ex; [|reflexivity].
      apply existsb_exists in Ex. destruct Ex as (y & Hy & Hres).
      assert (Hin : In y (filter (EngineFactory.resolvable cameras) ids))
        by (apply filter_In; auto).
      rewrite E in Hin. contradiction.
    + assert (Hin : In s (filter (EngineFactory.resolvable cameras) ids))
        by (rewrite E; left; reflexivity).
      apply filter_In in Hin.
      assert (Hex : existsb (EngineFactory.resolvable cameras) ids = true)
        by (apply existsb_exists; exists s; exact Hin).
      rewrite Hex. reflexivity.
  - intros [x|]; [|reflexivity]. unfold EngineFactory.getEngineForMedia.
    destruct (String.eqb x ""); [reflexivity|].
    rewrite (getEnginesForCameraIDs_groups_aux cameras [x] f Hp);
      [|repeat constructor; simpl; tauto].
    simpl. destruct (EngineFactory.resolvable cameras x); reflexivity.
Qed.

Lemma factory_lookups_witness :
  fst (EngineFactory.getAllEngines cameras_example EngineFactory.new_factory)
    = Some [first_engine].
Proof.
  refine (proj1 (factory_lookups cameras_example EngineFactory.new_factory _ _)).
  - apply EngineFactory.produced_new.
  - repeat constructor; simpl; intuition discriminate.
Defined.

(** * The dynamic menu buttons *)

Section DynamicButtons.
Context {MenuItem : Type} (same : MenuItem -> MenuItem -> bool).
Hypothesis same_identity : forall a b, same a b = true <-> a = b.

Lemma includes_In (l : list MenuItem) (button : MenuItem) :
  MenuButtons.includes same l button = true <-> In button l.
Proof.
  unfold MenuButtons.includes. rewrite existsb_exists. split.
  - intros (x & Hx & Hs). apply same_identity in Hs. subst x. exact Hx.
  - intros H. exists button. split; [exact H|apply same_identity; reflexivity].
Qed.

Lemma remove_In (l : list MenuItem) (button x : MenuItem) :
  In x (MenuButtons.removeDynamicMenuButton same button l) <-> In x l /\ x <> button.
Proof.
  unfold MenuButtons.removeDynamicMenuButton. rewrite filter_In, negb_true_iff.
  split; intros [H1 H2]; (split; [exact H1|]).
  - intros Heq. apply same_identity in Heq. congruence.
  - destruct (same x button) eqn:E; [|reflexivity].
    apply same_identity in E. contradiction.
Qed.

Lemma remove_absent (l : list MenuItem) (button : MenuItem) :
  ~ In button l -> MenuButtons.removeDynamicMenuButton same button l = l.
Proof.
  unfold MenuButtons.removeDynamicMenuButton.
  induction l as [|x l IH]; simpl; [reflexivity|]. intros Hnin.
  destruct (same x button) eqn:E.
  - apply same_identity in E. subst x. exfalso. apply Hnin. left. reflexivity.
  - simpl. rewrite IH; [reflexivity|]. intros H. apply Hnin. right. exact H.
Qed.

(** X19: the dynamic menu buttons never hold a button twice: whatever
    calls of [addDynamicMenuButton] and [removeDynamicMenuButton] are made
    on an empty controller, the buttons are distinct; adding a button that
    is present changes nothing, and a removed button is gone. *)
Theorem dynamic_buttons_distinct (calls : list (MenuButtons.Call (MenuItem := MenuItem))) :
  NoDup (fold_left (MenuButtons.call same) calls []) /\
  (forall l button,
      In button l -> MenuButtons.addDynamicMenuButton same button l = l) /\
  (forall l button,
      ~ In button (MenuButtons.removeDynamicMenuButton same button l)).
Proof.
  split; [|split].
  - assert (H : forall l, NoDup l -> NoDup (fold_left (MenuButtons.call same) calls l)).
    { induction calls as [|c calls' IH]; intros l Hnd; [exact Hnd|].
      simpl. apply IH. destruct c as [button|button]; simpl.
      - unfold MenuButtons.addDynamicMenuButton.
        destruct (MenuButtons.includes same l button) eqn:E; simpl; [exact Hnd|].
        apply NoDup_app; [exact Hnd|repeat constructor; simpl; tauto|].
        intros x Hx [Heq|[]]. subst x. apply includes_In in Hx. congruence.
      - unfold MenuButtons.removeDynamicMenuButton. apply NoDup_filter. exact Hnd. }
    apply H. constructor.
  - intros l button Hin. unfold MenuButtons.addDynamicMenuButton.
    apply includes_In in Hin. rewrite Hin. reflexivity.
  - intros l button Hin. apply remove_In in Hin. destruct Hin as [_ Hne].
    apply Hne. reflexivity.
Qed.

(** X20: adding a button puts it last and keeps the others in their
    order, and removing a button that was just added to a list that did
    not hold it gives the list back. *)
Theorem add_then_remove (l : list MenuItem) (button : MenuItem) :
  ~ In button l ->
  MenuButtons.addDynamicMenuButton same button l = l ++ [button] /\
  MenuButtons.removeDynamicMenuButton same button
    (MenuButtons.addDynamicMenuButton same button l) = l.
Proof.
  intros Hnin.
  assert (Hadd : MenuButtons.addDynamicMenuButton same button l = l ++ [button]).
  { unfold MenuButtons.addDynamicMenuButton.
    destruct (MenuButtons.includes same l button) eqn:E; [|reflexivity].
    apply includes_In in E. contradiction. }
  split; [exact Hadd|]. rewrite Hadd.
  unfold MenuButtons.removeDynamicMenuButton. rewrite filter_app. simpl.
  assert (Hs : same button button = true) by (apply same_identity; reflexivity).
  rewrite Hs. simpl. rewrite app_nil_r. apply remove_absent. exact Hnin.
Qed.

End DynamicButtons.

Lemma Nat_eqb_identity (a b : nat) : Nat.eqb a b = true <-> a = b.
Proof. apply Nat.eqb_eq. Qed.

Lemma dynamic_buttons_distinct_witness :
  NoDup (fold_left (MenuButtons.call Nat.eqb)
           [MenuButtons.add 1%nat; MenuButtons.add 2%nat; MenuButtons.add 1%nat;
            MenuButtons.remove 2%nat; MenuButtons.add 2%nat] []).
Proof.
  apply (proj1 (dynamic_buttons_distinct Nat.eqb Nat_eqb_identity
                  [MenuButtons.add 1%nat; MenuButtons.add 2%nat; MenuButtons.add 1%nat;
                   MenuButtons.remove 2%nat; MenuButtons.add 2%nat])).
Defined.

Lemma add_then_remove_witness :
  MenuButtons.removeDynamicMenuButton Nat.eqb 3%nat
    (MenuButtons.addDynamicMenuButton Nat.eqb 3%nat [1%nat; 2%nat]) = [1%nat; 2%nat].
Proof.
  apply (proj2 (add_then_remove Nat.eqb Nat_eqb_identity [1%nat; 2%nat] 3%nat
                  ltac:(simpl; lia))).
Defined.
